(** * VoiceBridge front end: SpeechLab and VoicePersonalizer

    A shallow embedding of the algorithmic parts of
    [src/pages/SpeechLab.jsx] and [src/pages/VoicePersonalizer.jsx]:
    the WAV encoder, the live-transcription event handlers, the
    localStorage history store, the recording stop handler, the input
    validation of upload and synthesis, and the auto-stop timer.

    Conventions.
    - A JS string is a [string] of the Standard Library (ASCII code
      units); [charCodeAt] is [nat_of_ascii].
    - An ArrayBuffer / DataView is a [list Z] of bytes (each in 0..255);
      a DataView setter that would write out of range throws RangeError,
      which is [None] here.
    - A JS Number that carries a sample is a [number]: an exact rational
      or one of the IEEE specials.  Audio samples come from a
      Float32Array; the products [sample * 0x8000] and [sample * 0x7FFF]
      of a 24-bit significand with a 15/16-bit constant are exact in
      binary64, so rational arithmetic computes what the code computes.
      Negative zero truncates to the same integer 0 as zero and is not
      kept apart.
    - React state is a record; a closure created during a render reads
      the state values of THAT render, so handlers take the state of
      their render as an explicit argument [render], next to the current
      world they act on.  State setters act on the current state.
    - A handler's effects on the outside (alerts, requests, calls on the
      recorder or the recognition object, timers) are appended to a
      trace. *)

From Stdlib Require Import ZArith QArith Qround Lia Lqa.
From stdpp Require Import base option list strings pretty gmap.

Local Open Scope Z_scope.

(** ** JS numbers carrying samples *)

Module Num.

Inductive number :=
| Fin (q : Q)
| PosInf
| NegInf
| NaN.

Definition of_Z (z : Z) : number := Fin (inject_Z z).

(** [Math.min(a, b)]: NaN if either argument is NaN, else the smaller. *)
Definition Math_min (a b : number) : number :=
  match a, b with
  | NaN, _ | _, NaN => NaN
  | NegInf, _ | _, NegInf => NegInf
  | PosInf, x | x, PosInf => x
  | Fin p, Fin q => if Qle_bool p q then Fin p else Fin q
  end.

(** [Math.max(a, b)]: NaN if either argument is NaN, else the larger. *)
Definition Math_max (a b : number) : number :=
  match a, b with
  | NaN, _ | _, NaN => NaN
  | PosInf, _ | _, PosInf => PosInf
  | NegInf, x | x, NegInf => x
  | Fin p, Fin q => if Qle_bool p q then Fin q else Fin p
  end.

(** [a < b]; false as soon as one side is NaN. *)
Definition ltb (a b : number) : bool :=
  match a, b with
  | NaN, _ | _, NaN => false
  | _, NegInf => false
  | NegInf, _ => true
  | PosInf, _ => false
  | _, PosInf => true
  | Fin p, Fin q => negb (Qle_bool q p)
  end.

Definition Qsign (q : Q) : Z := Z.sgn (Qnum q).

(** The integer part of a rational, rounding toward zero. *)
Definition Qtruncate (q : Q) : Z := Z.quot (Qnum q) (Zpos (Qden q)).

(** [a * b] with the IEEE rules for the specials. *)
Definition mul (a b : number) : number :=
  match a, b with
  | NaN, _ | _, NaN => NaN
  | Fin p, Fin q => Fin (p * q)
  | Fin p, PosInf | PosInf, Fin p =>
      match Qsign p with 0 => NaN | Zpos _ => PosInf | Zneg _ => NegInf end
  | Fin p, NegInf | NegInf, Fin p =>
      match Qsign p with 0 => NaN | Zpos _ => NegInf | Zneg _ => PosInf end
  | PosInf, PosInf | NegInf, NegInf => PosInf
  | PosInf, NegInf | NegInf, PosInf => NegInf
  end.

(** ECMAScript [ToInt16]: NaN and the infinities give 0; a finite value
    is truncated toward zero, reduced modulo 2^16 and read as a signed
    16-bit integer. *)
Definition ToInt16 (x : number) : Z :=
  match x with
  | Fin q =>
      let int := Qtruncate q in
      let int16bit := int mod 2 ^ 16 in
      if 2 ^ 15 <=? int16bit then int16bit - 2 ^ 16 else int16bit
  | _ => 0
  end.

End Num.

(** ** DataView over an ArrayBuffer *)

Module DataView.

(** [new ArrayBuffer(n)]: [n] zero bytes. *)
Definition ArrayBuffer (n : nat) : list Z := replicate n 0.

(** The [n] low bytes of [v], least significant first. *)
Definition le_bytes (n : nat) (v : Z) : list Z :=
  (λ i : nat, Z.land (Z.shiftr v (8 * Z.of_nat i)) 255) <$> seq 0 n.

(** The [n] low bytes of [v], most significant first. *)
Definition be_bytes (n : nat) (v : Z) : list Z := reverse (le_bytes n v).

(** Every setter checks the whole range first, then stores the bytes. *)
Definition setBytes (byteOffset : nat) (bytes : list Z) (view : list Z)
  : option (list Z) :=
  if bool_decide (byteOffset + length bytes ≤ length view)%nat
  then Some (list_inserts byteOffset bytes view)
  else None.

Definition setUint8 (byteOffset : nat) (value : Z) (view : list Z) :=
  setBytes byteOffset (le_bytes 1 value) view.

Definition setUint16 (byteOffset : nat) (value : Z) (littleEndian : bool)
  (view : list Z) :=
  setBytes byteOffset
    (if littleEndian then le_bytes 2 value else be_bytes 2 value) view.

Definition setUint32 (byteOffset : nat) (value : Z) (littleEndian : bool)
  (view : list Z) :=
  setBytes byteOffset
    (if littleEndian then le_bytes 4 value else be_bytes 4 value) view.

(** [setInt16] converts its Number argument with [ToInt16] and stores the
    two's-complement bytes. *)
Definition setInt16 (byteOffset : nat) (value : Num.number)
  (littleEndian : bool) (view : list Z) :=
  let v := Num.ToInt16 value in
  setBytes byteOffset
    (if littleEndian then le_bytes 2 v else be_bytes 2 v) view.

(** Readers, used to state what a finished buffer holds. *)
Definition le_value (bytes : list Z) : Z :=
  foldr (λ b acc, Z.lor b (Z.shiftl acc 8)) 0 bytes.

Definition getBytes (byteOffset n : nat) (view : list Z) : option (list Z) :=
  if bool_decide (byteOffset + n ≤ length view)%nat
  then Some (take n (drop byteOffset view))
  else None.

Definition getUint16 (byteOffset : nat) (view : list Z) : option Z :=
  le_value <$> getBytes byteOffset 2 view.

Definition getUint32 (byteOffset : nat) (view : list Z) : option Z :=
  le_value <$> getBytes byteOffset 4 view.

Definition getInt16 (byteOffset : nat) (view : list Z) : option Z :=
  (λ bs, let u := le_value bs in if 2 ^ 15 <=? u then u - 2 ^ 16 else u)
    <$> getBytes byteOffset 2 view.

End DataView.

(** ** The WAV encoder ([encodeWAV], SpeechLab.jsx) *)

Module Wav.
Import Num DataView.

(** A decoded Web Audio buffer.  [ab_length] is the [length] property
    (frames per channel); [sampleRate] is in Hz, a whole number for the
    buffers an AudioContext decodes; [channelData] holds one
    Float32Array per channel. *)
Record AudioBuffer := {
  numberOfChannels : nat;
  sampleRate : Z;
  ab_length : nat;
  channelData : list (list number)
}.

(** [getChannelData(channel)]; an index that is not a channel throws
    IndexSizeError. *)
Definition getChannelData (audioBuffer : AudioBuffer) (channel : nat)
  : option (list number) :=
  channelData audioBuffer !! channel.

(** [array[i]] on a typed array; out of range it is [undefined], which
    [Math.min] converts to NaN. *)
Definition at_index (data : list number) (i : nat) : number :=
  default NaN (data !! i).

(** A sequential loop whose body may throw. *)
Fixpoint for_each {A S : Type} (xs : list A) (body : A → S → option S)
  (s : S) : option S :=
  match xs with
  | [] => Some s
  | x :: xs' => s' ← body x s; for_each xs' body s'
  end.

Definition charCodeAt (c : Ascii.ascii) : Z := Z.of_nat (Ascii.nat_of_ascii c).

(** [writeString(offset, string)]: one [setUint8] per character. *)
Definition writeString (offset : nat) (s : string) (view : list Z)
  : option (list Z) :=
  for_each (imap (λ i c, (i, c)) (String.list_ascii_of_string s))
    (λ '(i, c) view, setUint8 (offset + i) (charCodeAt c) view) view.

(** [Math.max(-1, Math.min(1, x))] *)
Definition clamp (x : number) : number :=
  Math_max (of_Z (-1)) (Math_min (of_Z 1) x).

(** [sample < 0 ? sample * 0x8000 : sample * 0x7FFF] *)
Definition scale (sample : number) : number :=
  if ltb sample (of_Z 0) then mul sample (of_Z 0x8000)
  else mul sample (of_Z 0x7FFF).

(** Body of the inner loop: one channel of frame [i]. *)
Definition write_sample (audioBuffer : AudioBuffer) (i channel : nat)
  (st : list Z * nat) : option (list Z * nat) :=
  let '(view, offset) := st in
  data ← getChannelData audioBuffer channel;
  let sample := clamp (at_index data i) in
  view' ← setInt16 offset (scale sample) true view;
  Some (view', (offset + 2)%nat).

Definition encodeWAV (audioBuffer : AudioBuffer) : option (list Z) :=
  let numChannels := numberOfChannels audioBuffer in
  let sampleRate := sampleRate audioBuffer in
  let bitDepth := 16%nat in
  let bytesPerSample := (bitDepth / 8)%nat in
  let blockAlign := (numChannels * bytesPerSample)%nat in
  let byteRate := sampleRate * Z.of_nat blockAlign in
  let dataSize := (ab_length audioBuffer * blockAlign)%nat in
  let buffer := ArrayBuffer (44 + dataSize) in
  let view := buffer in
  view ← writeString 0 "RIFF" view;
  view ← setUint32 4 (Z.of_nat (36 + dataSize)) true view;
  view ← writeString 8 "WAVE" view;
  view ← writeString 12 "fmt " view;
  view ← setUint32 16 16 true view;
  view ← setUint16 20 1 true view;
  view ← setUint16 22 (Z.of_nat numChannels) true view;
  view ← setUint32 24 sampleRate true view;
  view ← setUint32 28 byteRate true view;
  view ← setUint16 32 (Z.of_nat blockAlign) true view;
  view ← setUint16 34 (Z.of_nat bitDepth) true view;
  view ← writeString 36 "data" view;
  view ← setUint32 40 (Z.of_nat dataSize) true view;
  let offset := 44%nat in
  '(view, offset) ←
    for_each (seq 0 (ab_length audioBuffer))
      (λ i st, for_each (seq 0 numChannels) (write_sample audioBuffer i) st)
      (view, offset);
  Some view.

(** Observations on the encoder's input and output. *)

(** The quantised value of one input sample. *)
Definition quantize (x : number) : Z := ToInt16 (scale (clamp x)).

(** The float sample of channel [c] at frame [i]. *)
Definition sample_of (audioBuffer : AudioBuffer) (c i : nat) : number :=
  at_index (default [] (getChannelData audioBuffer c)) i.

(** The ASCII codes of a tag. *)
Definition tag (s : string) : list Z :=
  charCodeAt <$> String.list_ascii_of_string s.

(** The buffer really has the channels it announces, each with
    [ab_length] frames. *)
Definition well_formed (audioBuffer : AudioBuffer) : Prop :=
  length (channelData audioBuffer) = numberOfChannels audioBuffer ∧
  Forall (λ ch, length ch = ab_length audioBuffer) (channelData audioBuffer).

(** The header fields are wide enough for the buffer's parameters:
    16 bits for the block align (hence the channel count), 32 bits for
    the sample rate and the byte rate.  Web Audio implementations cap
    buffers at 32 channels and 768 kHz, far below these limits. *)
Definition fits_header (audioBuffer : AudioBuffer) : Prop :=
  Z.of_nat (numberOfChannels audioBuffer) * 2 < 2 ^ 16 ∧
  0 ≤ sampleRate audioBuffer < 2 ^ 32 ∧
  sampleRate audioBuffer * (Z.of_nat (numberOfChannels audioBuffer) * 2) < 2 ^ 32.

(** What the stored 16-bit integer must be for an input sample: clamp to
    [-1, 1], then scale a negative value by 0x8000 and a non-negative
    value by 0x7FFF, dropping the fraction. *)
Definition quantized (x : number) (stored : Z) : Prop :=
  match x with
  | Fin q =>
      ((q <= -1)%Q → stored = - 0x8000) ∧
      ((1 <= q)%Q → stored = 0x7FFF) ∧
      ((q == 0)%Q → stored = 0) ∧
      ((-1 <= q)%Q ∧ (q < 0)%Q → stored = Qtruncate (q * inject_Z 0x8000)) ∧
      ((0 <= q)%Q ∧ (q <= 1)%Q → stored = Qtruncate (q * inject_Z 0x7FFF))
  | PosInf => stored = 0x7FFF
  | NegInf => stored = - 0x8000
  | NaN => stored = 0
  end.

(** A small stereo buffer used to exercise the encoder. *)
Definition demo_buffer : AudioBuffer :=
  {| numberOfChannels := 2; sampleRate := 48000; ab_length := 3;
     channelData :=
       [ [Fin 1; Fin (-1); Fin 0];
         [Fin (3 # 2); Fin (-(1 # 2)); NaN] ] |}.

End Wav.

(** ** JS strings *)

Module Str.

(** Truthiness of a string: only the empty string is falsy. *)
Definition truthy (s : string) : bool :=
  match s with EmptyString => false | _ => true end.

(** What [String.prototype.trim] removes (WhiteSpace and
    LineTerminator), among the code units a string holds here, which
    are those below 256: tab, line feed, vertical tab, form feed,
    carriage return (9 to 13), space (32) and no-break space (160). *)
Definition is_space (c : Ascii.ascii) : bool :=
  let n := Ascii.nat_of_ascii c in
  ((9 <=? n) && (n <=? 13) || (n =? 32) || (n =? 160))%nat.

Fixpoint drop_spaces (l : list Ascii.ascii) : list Ascii.ascii :=
  match l with
  | c :: l' => if is_space c then drop_spaces l' else l
  | [] => []
  end.

Definition trim (s : string) : string :=
  String.string_of_list_ascii
    (reverse (drop_spaces (reverse (drop_spaces (String.list_ascii_of_string s))))).

(** The string is empty or made of white space only. *)
Definition whitespace_only (s : string) : bool :=
  forallb is_space (String.list_ascii_of_string s).

(** Number of positions of [hay] at which [needle] occurs. *)
Fixpoint occurrences (needle hay : string) : nat :=
  match hay with
  | EmptyString => if String.prefix needle hay then 1 else 0
  | String _ rest =>
      ((if String.prefix needle hay then 1 else 0) + occurrences needle rest)%nat
  end.

Definition lower (c : Ascii.ascii) : Ascii.ascii :=
  let n := Ascii.nat_of_ascii c in
  if ((65 <=? n) && (n <=? 90))%nat then Ascii.ascii_of_nat (n + 32) else c.

Definition toLowerCase (s : string) : string :=
  String.string_of_list_ascii (lower <$> String.list_ascii_of_string s).

Definition endsWith (s suffix : string) : bool :=
  String.prefix (String.string_of_list_ascii (reverse (String.list_ascii_of_string suffix)))
    (String.string_of_list_ascii (reverse (String.list_ascii_of_string s))).

End Str.

(** ** The history store (top-level functions of SpeechLab.jsx) *)

Module History.

Record HistoryItem := {
  id : string;
  content : string;
  accuracy : option Q;        (* speech-to-text entries *)
  voiceModel : option string; (* text-to-speech entries *)
  language : string;
  duration : Q;
  timestamp : string;
  type : string;
  favorite : option bool      (* added later by the History page *)
}.

(** What a localStorage key holds.  The store keeps strings; the history
    code reads them only through [JSON.parse] and writes them only
    through [JSON.stringify], so a value that is the JSON text of an
    array of history records is kept in parsed form ([Arr]).  [Raw] is
    any other string (a theme name, a token, damaged JSON): one on which
    [JSON.parse] throws SyntaxError, except for the empty string, which
    [||] replaces by ['[]']. *)
Inductive stored :=
| Arr (items : list HistoryItem)
| Raw (text : string).

(** The values drawn from the environment by one call:
    [generateUniqueId()] and [new Date().toISOString()]. *)
Record Env := { fresh_id : string; now : string }.

Definition stt_key : string := "speechLab_stt_history".
Definition tts_key : string := "speechLab_tts_history".

(** [JSON.parse(localStorage.getItem(key) || '[]')]; [None] is a throw. *)
Definition parse_history (key : string) (localStorage : gmap string stored)
  : option (list HistoryItem) :=
  match localStorage !! key with
  | None => Some []
  | Some (Arr items) => Some items
  | Some (Raw text) => if Str.truthy text then None else Some []
  end.

(** [saveSTTHistory]: the new store and the returned item, or the
    untouched store and [None] when [JSON.parse] throws. *)
Definition saveSTTHistory (env : Env) (transcribedText : string)
  (accuracy : Q) (language : string) (duration : Q)
  (localStorage : gmap string stored)
  : gmap string stored * option HistoryItem :=
  let historyItem :=
    {| id := fresh_id env; content := transcribedText;
       accuracy := Some accuracy; voiceModel := None;
       language := language; duration := duration;
       timestamp := now env; type := "stt"; favorite := None |} in
  match parse_history stt_key localStorage with
  | Some existing =>
      let updated := historyItem :: take 49 existing in
      (<[stt_key := Arr updated]> localStorage, Some historyItem)
  | None => (localStorage, None)
  end.

Definition saveTTSHistory (env : Env) (text : string)
  (voiceModel : string) (language : string) (duration : Q)
  (localStorage : gmap string stored)
  : gmap string stored * option HistoryItem :=
  let historyItem :=
    {| id := fresh_id env; content := text;
       accuracy := None; voiceModel := Some voiceModel;
       language := language; duration := duration;
       timestamp := now env; type := "tts"; favorite := None |} in
  match parse_history tts_key localStorage with
  | Some existing =>
      let updated := historyItem :: take 49 existing in
      (<[tts_key := Arr updated]> localStorage, Some historyItem)
  | None => (localStorage, None)
  end.

(** A JS [Map] with string keys, in insertion order.  [set] on a key
    already present replaces the value and keeps the key's position. *)
Fixpoint Map_set {V : Type} (k : string) (v : V) (m : list (string * V))
  : list (string * V) :=
  match m with
  | [] => [(k, v)]
  | (k', v') :: m' =>
      if decide (k' = k) then (k', v) :: m' else (k', v') :: Map_set k v m'
  end.

(** [new Map(entries)] *)
Definition new_Map {V : Type} (entries : list (string * V)) : list (string * V) :=
  foldl (λ m kv, Map_set kv.1 kv.2 m) [] entries.

(** [Array.from(new Map(items.map(item => [item.id, item])).values())] *)
Definition unique (items : list HistoryItem) : list HistoryItem :=
  (new_Map ((λ item, (id item, item)) <$> items)).*2.

(** [cleanupDuplicateHistory]: both collections are parsed before
    anything is written; a throw is caught and only logged. *)
Definition cleanupDuplicateHistory (localStorage : gmap string stored)
  : gmap string stored :=
  match parse_history stt_key localStorage, parse_history tts_key localStorage with
  | Some sttHistory, Some ttsHistory =>
      let uniqueSTT := unique sttHistory in
      let uniqueTTS := unique ttsHistory in
      <[tts_key := Arr uniqueTTS]> (<[stt_key := Arr uniqueSTT]> localStorage)
  | _, _ => localStorage
  end.

(** Appending a whole sequence of entries, oldest first. *)
Record SttInput := {
  stt_env : Env; stt_text : string; stt_accuracy : Q;
  stt_language : string; stt_duration : Q
}.

Record TtsInput := {
  tts_env : Env; tts_text : string; tts_voice : string;
  tts_language : string; tts_duration : Q
}.

Definition stt_item (i : SttInput) : HistoryItem :=
  {| id := fresh_id (stt_env i); content := stt_text i;
     accuracy := Some (stt_accuracy i); voiceModel := None;
     language := stt_language i; duration := stt_duration i;
     timestamp := now (stt_env i); type := "stt"; favorite := None |}.

Definition tts_item (i : TtsInput) : HistoryItem :=
  {| id := fresh_id (tts_env i); content := tts_text i;
     accuracy := None; voiceModel := Some (tts_voice i);
     language := tts_language i; duration := tts_duration i;
     timestamp := now (tts_env i); type := "tts"; favorite := None |}.

Definition save_stt_all (inputs : list SttInput) (localStorage : gmap string stored)
  : gmap string stored :=
  foldl (λ ls i,
    (saveSTTHistory (stt_env i) (stt_text i) (stt_accuracy i)
       (stt_language i) (stt_duration i) ls).1) localStorage inputs.

Definition save_tts_all (inputs : list TtsInput) (localStorage : gmap string stored)
  : gmap string stored :=
  foldl (λ ls i,
    (saveTTSHistory (tts_env i) (tts_text i) (tts_voice i)
       (tts_language i) (tts_duration i) ls).1) localStorage inputs.

(** The entry of [items] that comes last among those with id [k]. *)
Definition last_with_id (k : string) (items : list HistoryItem)
  : option HistoryItem :=
  last (filter (λ item, id item = k) items).

(** The entry of [items] that comes first among those with id [k]:
    in a newest-first collection, the most recent one. *)
Definition most_recent_with_id (k : string) (items : list HistoryItem)
  : option HistoryItem :=
  head (filter (λ item, id item = k) items).

(** "The pass retains, for every id, the most recent entry." *)
Definition retains_most_recent (localStorage : gmap string stored) : Prop :=
  ∀ before after,
    parse_history stt_key localStorage = Some before →
    parse_history stt_key (cleanupDuplicateHistory localStorage) = Some after →
    ∀ item, item ∈ after → most_recent_with_id (id item) before = Some item.

(** Two appends that drew the same id: first "first take", then
    "second take". *)
Definition same_id_env : Env := {| fresh_id := "id-7"; now := "t" |}.

Definition twice_saved : gmap string stored :=
  (saveSTTHistory same_id_env "second take" (95 # 100) "en" 5
     (saveSTTHistory same_id_env "first take" (95 # 100) "en" 5 ∅).1).1.

(** The [n]-th sequential speech-to-text input. *)
Definition numbered_stt (n : nat) : SttInput :=
  {| stt_env := {| fresh_id := pretty n; now := pretty n |};
     stt_text := pretty n; stt_accuracy := 95 # 100;
     stt_language := "en"; stt_duration := 5 |}.

Definition numbered_tts (n : nat) : TtsInput :=
  {| tts_env := {| fresh_id := pretty n; now := pretty n |};
     tts_text := pretty n; tts_voice := "21m00Tcm4TlvDq8ikWAM";
     tts_language := "en"; tts_duration := 1 |}.

End History.

(** ** The SpeechLab component *)

Module SpeechLab.
Import History.

(** A selected file: what [handleAudioUpload] reads of it. *)
Record File := { size : Z; file_type : string; name : string }.

(** React state and refs of the component. *)
Record State := {
  text : string;
  isLoading : bool;
  transcribedText : string;
  isRecording : bool;
  audioFile : option File;
  isLiveTranscribing : bool;
  interimTranscript : string;
  liveSessionText : string;
  backendConnected : bool;
  language : string;
  voiceModel : string;
  autoSpeak : bool;
  sttHistory : list History.HistoryItem;
  ttsHistory : list History.HistoryItem;
  mediaRecorderRef : bool; (* [mediaRecorderRef.current] is set *)
  audioChunksRef : list Z (* sizes of the chunks pushed so far *)
}.

Definition setIsLoading (v : bool) (s : State) : State :=
  {| text := text s; isLoading := v; transcribedText := transcribedText s;
     isRecording := isRecording s; audioFile := audioFile s;
     isLiveTranscribing := isLiveTranscribing s;
     interimTranscript := interimTranscript s;
     liveSessionText := liveSessionText s;
     backendConnected := backendConnected s; language := language s;
     voiceModel := voiceModel s; autoSpeak := autoSpeak s;
     sttHistory := sttHistory s; ttsHistory := ttsHistory s;
     mediaRecorderRef := mediaRecorderRef s;
     audioChunksRef := audioChunksRef s |}.

Definition setTranscribedText (v : string) (s : State) : State :=
  {| text := text s; isLoading := isLoading s; transcribedText := v;
     isRecording := isRecording s; audioFile := audioFile s;
     isLiveTranscribing := isLiveTranscribing s;
     interimTranscript := interimTranscript s;
     liveSessionText := liveSessionText s;
     backendConnected := backendConnected s; language := language s;
     voiceModel := voiceModel s; autoSpeak := autoSpeak s;
     sttHistory := sttHistory s; ttsHistory := ttsHistory s;
     mediaRecorderRef := mediaRecorderRef s;
     audioChunksRef := audioChunksRef s |}.

Definition setIsRecording (v : bool) (s : State) : State :=
  {| text := text s; isLoading := isLoading s;
     transcribedText := transcribedText s; isRecording := v;
     audioFile := audioFile s;
     isLiveTranscribing := isLiveTranscribing s;
     interimTranscript := interimTranscript s;
     liveSessionText := liveSessionText s;
     backendConnected := backendConnected s; language := language s;
     voiceModel := voiceModel s; autoSpeak := autoSpeak s;
     sttHistory := sttHistory s; ttsHistory := ttsHistory s;
     mediaRecorderRef := mediaRecorderRef s;
     audioChunksRef := audioChunksRef s |}.

Definition setAudioFile (v : option File) (s : State) : State :=
  {| text := text s; isLoading := isLoading s;
     transcribedText := transcribedText s; isRecording := isRecording s;
     audioFile := v; isLiveTranscribing := isLiveTranscribing s;
     interimTranscript := interimTranscript s;
     liveSessionText := liveSessionText s;
     backendConnected := backendConnected s; language := language s;
     voiceModel := voiceModel s; autoSpeak := autoSpeak s;
     sttHistory := sttHistory s; ttsHistory := ttsHistory s;
     mediaRecorderRef := mediaRecorderRef s;
     audioChunksRef := audioChunksRef s |}.

Definition setIsLiveTranscribing (v : bool) (s : State) : State :=
  {| text := text s; isLoading := isLoading s;
     transcribedText := transcribedText s; isRecording := isRecording s;
     audioFile := audioFile s; isLiveTranscribing := v;
     interimTranscript := interimTranscript s;
     liveSessionText := liveSessionText s;
     backendConnected := backendConnected s; language := language s;
     voiceModel := voiceModel s; autoSpeak := autoSpeak s;
     sttHistory := sttHistory s; ttsHistory := ttsHistory s;
     mediaRecorderRef := mediaRecorderRef s;
     audioChunksRef := audioChunksRef s |}.

Definition setInterimTranscript (v : string) (s : State) : State :=
  {| text := text s; isLoading := isLoading s;
     transcribedText := transcribedText s; isRecording := isRecording s;
     audioFile := audioFile s;
     isLiveTranscribing := isLiveTranscribing s; interimTranscript := v;
     liveSessionText := liveSessionText s;
     backendConnected := backendConnected s; language := language s;
     voiceModel := voiceModel s; autoSpeak := autoSpeak s;
     sttHistory := sttHistory s; ttsHistory := ttsHistory s;
     mediaRecorderRef := mediaRecorderRef s;
     audioChunksRef := audioChunksRef s |}.

Definition setLiveSessionText (v : string) (s : State) : State :=
  {| text := text s; isLoading := isLoading s;
     transcribedText := transcribedText s; isRecording := isRecording s;
     audioFile := audioFile s;
     isLiveTranscribing := isLiveTranscribing s;
     interimTranscript := interimTranscript s; liveSessionText := v;
     backendConnected := backendConnected s; language := language s;
     voiceModel := voiceModel s; autoSpeak := autoSpeak s;
     sttHistory := sttHistory s; ttsHistory := ttsHistory s;
     mediaRecorderRef := mediaRecorderRef s;
     audioChunksRef := audioChunksRef s |}.

Definition setSttHistory (v : list History.HistoryItem) (s : State) : State :=
  {| text := text s; isLoading := isLoading s;
     transcribedText := transcribedText s; isRecording := isRecording s;
     audioFile := audioFile s;
     isLiveTranscribing := isLiveTranscribing s;
     interimTranscript := interimTranscript s;
     liveSessionText := liveSessionText s;
     backendConnected := backendConnected s; language := language s;
     voiceModel := voiceModel s; autoSpeak := autoSpeak s;
     sttHistory := v; ttsHistory := ttsHistory s;
     mediaRecorderRef := mediaRecorderRef s;
     audioChunksRef := audioChunksRef s |}.

Definition setTtsHistory (v : list History.HistoryItem) (s : State) : State :=
  {| text := text s; isLoading := isLoading s;
     transcribedText := transcribedText s; isRecording := isRecording s;
     audioFile := audioFile s;
     isLiveTranscribing := isLiveTranscribing s;
     interimTranscript := interimTranscript s;
     liveSessionText := liveSessionText s;
     backendConnected := backendConnected s; language := language s;
     voiceModel := voiceModel s; autoSpeak := autoSpeak s;
     sttHistory := sttHistory s; ttsHistory := v;
     mediaRecorderRef := mediaRecorderRef s;
     audioChunksRef := audioChunksRef s |}.

Definition set_mediaRecorderRef (v : bool) (s : State) : State :=
  {| text := text s; isLoading := isLoading s;
     transcribedText := transcribedText s; isRecording := isRecording s;
     audioFile := audioFile s;
     isLiveTranscribing := isLiveTranscribing s;
     interimTranscript := interimTranscript s;
     liveSessionText := liveSessionText s;
     backendConnected := backendConnected s; language := language s;
     voiceModel := voiceModel s; autoSpeak := autoSpeak s;
     sttHistory := sttHistory s; ttsHistory := ttsHistory s;
     mediaRecorderRef := v; audioChunksRef := audioChunksRef s |}.

Definition set_audioChunksRef (v : list Z) (s : State) : State :=
  {| text := text s; isLoading := isLoading s;
     transcribedText := transcribedText s; isRecording := isRecording s;
     audioFile := audioFile s;
     isLiveTranscribing := isLiveTranscribing s;
     interimTranscript := interimTranscript s;
     liveSessionText := liveSessionText s;
     backendConnected := backendConnected s; language := language s;
     voiceModel := voiceModel s; autoSpeak := autoSpeak s;
     sttHistory := sttHistory s; ttsHistory := ttsHistory s;
     mediaRecorderRef := mediaRecorderRef s; audioChunksRef := v |}.

(** What a handler does to the outside, in order. *)
Inductive Effect :=
| Alert (message : string)
| Fetch (path : string)                 (* a request to the remote API *)
| ConsoleError
| ClearFileInput                        (* [e.target.value = ''] *)
| RecognitionStart
| RecognitionStop
| MediaRecorderStart (timeslice : Z)
| MediaRecorderStop
| TracksStop
| SetTimeout (delay : Z)
| PlayAudio
| Speak (utterance : string)            (* [speechSynthesis.speak] *)
| CallTextToSpeech (newText : string).  (* [handleTextToSpeech(newText)], not awaited *)

(** A [SpeechRecognition] object.  Its handlers are assigned once, by
    the effect that creates it, and close over the state of the render
    that ran the effect ([closure]). *)
Inductive Phase := Idle | Listening | Stopping.

Record Recognition := { closure : State; phase : Phase }.

(** Everything a handler can read or change: the current React state,
    the browser's localStorage, the effects emitted so far, and the
    recognition objects created so far, newest first: the head is
    [recognitionRef.current]. *)
Record World := {
  state : State;
  localStorage : gmap string stored;
  trace : list Effect;
  recognitions : list Recognition
}.

Definition update (f : State → State) (w : World) : World :=
  {| state := f (state w); localStorage := localStorage w; trace := trace w;
     recognitions := recognitions w |}.

Definition emit (e : Effect) (w : World) : World :=
  {| state := state w; localStorage := localStorage w; trace := trace w ++ [e];
     recognitions := recognitions w |}.

Definition set_localStorage (ls : gmap string stored) (w : World) : World :=
  {| state := state w; localStorage := ls; trace := trace w;
     recognitions := recognitions w |}.

Definition set_recognitions (rs : list Recognition) (w : World) : World :=
  {| state := state w; localStorage := localStorage w; trace := trace w;
     recognitions := rs |}.

Definition set_phase (p : Phase) (r : Recognition) : Recognition :=
  {| closure := closure r; phase := p |}.

Definition is_fetch (e : Effect) : bool :=
  match e with Fetch _ => true | _ => false end.

(** [loadHistory]: parse both collections, then set both state lists;
    a throw is caught and logged. *)
Definition loadHistory (w : World) : World :=
  match parse_history stt_key (localStorage w), parse_history tts_key (localStorage w) with
  | Some stt, Some tts => update (setTtsHistory tts) (update (setSttHistory stt) w)
  | _, _ => emit ConsoleError w
  end.

(** *** Live transcription handlers

    The handlers are installed by an effect whose dependencies are
    [language], [isLiveTranscribing] and [autoSpeak]; [render] is the
    state of the render whose effect installed them. *)

Record SpeechRecognitionResult := {
  isFinal : bool;
  transcript : string   (* [results[i][0].transcript] *)
}.

Record SpeechRecognitionEvent := {
  resultIndex : nat;
  results : list SpeechRecognitionResult
}.

(** The results an event reports: those from [resultIndex] on. *)
Definition reported (event : SpeechRecognitionEvent) : list SpeechRecognitionResult :=
  drop (resultIndex event) (results event).

(** The loop of [onresult]: results from [resultIndex] on, split into
    the final text (each followed by a space) and the interim text. *)
Definition collect (event : SpeechRecognitionEvent) : string * string :=
  foldl (λ '(finalTranscript, interimTranscript) r,
           if isFinal r
           then (finalTranscript +:+ transcript r +:+ " ", interimTranscript)
           else (finalTranscript, interimTranscript +:+ transcript r))
        (""%string, ""%string) (reported event).

(** [onresult].  The call [handleTextToSpeech(newText)] is not awaited;
    it is recorded as the effect [CallTextToSpeech newText], and what
    the callee then does (a request or speech, a stored entry) is not
    followed here.  What is proved about storage after an event is
    therefore proved together with the absence of that effect. *)
Definition onresult (render : State) (event : SpeechRecognitionEvent)
  (w : World) : World :=
  let '(finalTranscript, interimTranscript) := collect event in
  if Str.truthy finalTranscript then
    let newText := Str.trim finalTranscript in
    let w := update (λ prev, setTranscribedText (transcribedText prev +:+ " " +:+ newText) prev) w in
    let w := update (λ prev, setLiveSessionText (liveSessionText prev +:+ " " +:+ newText) prev) w in
    let w := update (setInterimTranscript "") w in
    if Str.truthy newText && isLiveTranscribing render && autoSpeak render
    then emit (CallTextToSpeech newText) w
    else w
  else update (setInterimTranscript interimTranscript) w.

Definition onerror (render : State) (w : World) : World :=
  update (setIsLiveTranscribing false) (emit ConsoleError w).

(** [recognitionRef.current.start()]: an idle object starts listening;
    on an object that is already started the call throws
    InvalidStateError ([None]). *)
Definition recognition_start (w : World) : option World :=
  match recognitions w with
  | r :: rest =>
      match phase r with
      | Idle => Some (emit RecognitionStart
                        (set_recognitions (set_phase Listening r :: rest) w))
      | _ => None
      end
  | [] => None
  end.

(** [recognitionRef.current.stop()]: a listening object winds down and
    will deliver its end event; otherwise nothing happens. *)
Definition recognition_stop (w : World) : World :=
  match recognitions w with
  | r :: rest =>
      match phase r with
      | Listening => emit RecognitionStop
                       (set_recognitions (set_phase Stopping r :: rest) w)
      | _ => emit RecognitionStop w
      end
  | [] => w
  end.

(** An exception that escapes [onend] is only reported by the browser. *)
Definition onend (render : State) (w : World) : World :=
  if isLiveTranscribing render then
    match recognition_start w with
    | Some w' => w'
    | None => emit ConsoleError w
    end
  else w.

Definition startLiveTranscription (render : State) (w : World) : World :=
  match recognitions w with
  | [] =>
      emit (Alert "Speech recognition is not supported in your browser. Please use Chrome or Edge.") w
  | _ =>
      match recognition_start w with
      | Some w =>
          let w := update (setIsLiveTranscribing true) w in
          let w := update (setTranscribedText "") w in
          let w := update (setInterimTranscript "") w in
          update (setLiveSessionText "") w
      | None => emit ConsoleError w
      end
  end.

Definition stopLiveTranscription (render : State) (w : World) : World :=
  match recognitions w with
  | [] => w
  | _ => update (setIsLiveTranscribing false) (recognition_stop w)
  end.

(** The effect that creates the recognition object, with dependencies
    [language, isLiveTranscribing, autoSpeak].  [supported] says whether
    the browser has the SpeechRecognition API. *)
Definition recognition_effect (supported : bool) (w : World) : World :=
  if supported
  then set_recognitions ({| closure := state w; phase := Idle |} :: recognitions w) w
  else w.

(** Its cleanup. *)
Definition recognition_cleanup (w : World) : World := recognition_stop w.

Definition deps (s : State) : string * bool * bool :=
  (language s, isLiveTranscribing s, autoSpeak s).

(** The first render of the component. *)
Definition mount (supported : bool) (s : State) (ls : gmap string stored) : World :=
  recognition_effect supported
    {| state := s; localStorage := ls; trace := []; recognitions := [] |}.

(** A later render: [prev] is the state of the previous render; the
    effect is run again, after its cleanup, when a dependency changed. *)
Definition commit (supported : bool) (prev : State) (w : World) : World :=
  if bool_decide (deps prev = deps (state w)) then w
  else recognition_effect supported (recognition_cleanup w).

(** A recognition event delivered to the handlers installed during
    [render]. *)
Inductive RecognitionEvent :=
| Result (event : SpeechRecognitionEvent)
| Error
| End.

Definition deliver (render : State) (ev : RecognitionEvent) (w : World) : World :=
  match ev with
  | Result event => onresult render event w
  | Error => onerror render w
  | End => onend render w
  end.

(** The [i]-th recognition object fires an event: its own handlers run.
    An idle object fires nothing; the end event leaves the object idle. *)
Definition fire (i : nat) (ev : RecognitionEvent) (w : World) : World :=
  match recognitions w !! i with
  | Some r =>
      match phase r, ev with
      | Idle, _ => w
      | _, End =>
          deliver (closure r) End
            (set_recognitions (<[i := set_phase Idle r]> (recognitions w)) w)
      | _, _ => deliver (closure r) ev w
      end
  | None => w
  end.

(** What can happen to the mounted component (in a browser with the
    recognition API), each time followed by the render it causes: a
    click on the start button, which is shown while the live flag is
    false; a click on the stop button, shown while it is true; an event
    of some recognition object; anything else, which leaves the flag and
    the recognition objects alone. *)
Inductive step : World → World → Prop :=
| step_start_live w :
    isLiveTranscribing (state w) = false →
    step w (commit true (state w) (startLiveTranscription (state w) w))
| step_stop_live w :
    isLiveTranscribing (state w) = true →
    step w (commit true (state w) (stopLiveTranscription (state w) w))
| step_fire w i ev :
    step w (commit true (state w) (fire i ev w))
| step_other w w' :
    isLiveTranscribing (state w') = isLiveTranscribing (state w) →
    recognitions w' = recognitions w →
    step w (commit true (state w) w').

Inductive reachable : World → Prop :=
| reachable_mount s ls :
    isLiveTranscribing s = false → reachable (mount true s ls)
| reachable_step w w' : reachable w → step w w' → reachable w'.

(** Every recognition object that is not idle closes over a render whose
    live flag was false. *)
Definition started_are_stale (rs : list Recognition) : Prop :=
  ∀ r, r ∈ rs → phase r ≠ Idle → isLiveTranscribing (closure r) = false.

(** The object in the ref closes over a render with the flag [live]. *)
Definition ref_sees (live : bool) (rs : list Recognition) : Prop :=
  ∀ r rest, rs = r :: rest → isLiveTranscribing (closure r) = live.

(** The worlds after each event of a sequence, in order. *)
Fixpoint run (render : State) (evs : list RecognitionEvent) (w : World)
  : list World :=
  match evs with
  | [] => []
  | ev :: evs' => let w' := deliver render ev w in w' :: run render evs' w'
  end.

Definition interim (t : string) : RecognitionEvent :=
  Result {| resultIndex := 0; results := [ {| isFinal := false; transcript := t |} ] |}.

Definition final (t : string) : RecognitionEvent :=
  Result {| resultIndex := 0; results := [ {| isFinal := true; transcript := t |} ] |}.

(** The text of the non-final results of an event, in order. *)
Definition interim_text (rs : list SpeechRecognitionResult) : string :=
  foldr (λ r acc, if isFinal r then acc else transcript r +:+ acc) ""%string rs.

(** The text of the final results of an event, each followed by a space. *)
Definition final_text (rs : list SpeechRecognitionResult) : string :=
  foldr (λ r acc, if isFinal r then transcript r +:+ " " +:+ acc else acc) ""%string rs.

(** *** Text to speech *)

(** What the browser's own voice does with an utterance: the window
    has no [speechSynthesis]; the utterance is spoken to its end
    ([onend]); speaking it fails ([onerror]). *)
Inductive LocalVoice := Unsupported | Finishes | Fails.

(** The promise of [realTextToSpeech] resolves. *)
Definition resolves (local_ok : LocalVoice) : bool :=
  match local_ok with Finishes => true | _ => false end.

(** [window.speechSynthesis.speak] is called. *)
Definition speaks (local_ok : LocalVoice) : bool :=
  match local_ok with Unsupported => false | _ => true end.

(** [realTextToSpeech]: the utterance is handed to the browser's voice
    if there is one; the second component says whether the promise
    resolves. *)
Definition realTextToSpeech (text : string) (local_ok : LocalVoice) (w : World)
  : World * bool :=
  match local_ok with
  | Unsupported => (w, false)
  | Finishes => (emit (Speak text) w, true)
  | Fails => (emit (Speak text) w, false)
  end.

(** [handleBackendTTS]; [remote_ok] says whether the request and the
    playback succeed.  A failure is caught and falls back to the local
    voice. *)
Definition handleBackendTTS (render : State) (textToSpeak : string)
  (remote_ok : bool) (local_ok : LocalVoice) (w : World) : World * bool :=
  if negb (backendConnected render) then realTextToSpeech textToSpeak local_ok w
  else
    let w := update (setIsLoading true) w in
    let w := emit (Fetch "/api/text-to-speech") w in
    let '(w, ok) :=
      if remote_ok then (emit PlayAudio w, true)
      else realTextToSpeech textToSpeak local_ok (emit ConsoleError w) in
    (update (setIsLoading false) w, ok).

(** [customText || text]: [null] and the empty string are falsy. *)
Definition or_else (customText : option string) (text : string) : string :=
  match customText with
  | Some t => if Str.truthy t then t else text
  | None => text
  end.

(** [handleTextToSpeech(customText = null)] *)
Definition handleTextToSpeech (render : State) (customText : option string)
  (remote_ok : bool) (local_ok : LocalVoice) (env : Env) (w : World) : World :=
  let textToSpeak := or_else customText (text render) in
  if negb (Str.truthy (Str.trim textToSpeak)) then
    emit (Alert "Please enter some text to convert to speech.") w
  else
    let w := update (setIsLoading true) w in
    let '(w, ok) :=
      if backendConnected render
      then handleBackendTTS render textToSpeak remote_ok local_ok w
      else realTextToSpeech textToSpeak local_ok w in
    let failed w :=
      emit (Alert "Text-to-speech failed. Please try again.") (emit ConsoleError w) in
    let w :=
      if ok then
        let duration := (Z.of_nat (String.length textToSpeak) # 10)%Q in
        match saveTTSHistory env textToSpeak (voiceModel render) (language render)
                duration (localStorage w) with
        | (ls, Some _) => loadHistory (set_localStorage ls w)
        | (_, None) => failed w
        end
      else failed w in
    update (setIsLoading false) w.

(** *** Recording *)

Definition sampleTexts : list string :=
  [ "This is a sample transcription of your audio recording.";
    "Your speech has been successfully converted to text.";
    "The audio processing is complete and here is your transcribed text.";
    "Speech recognition completed. This is the transcribed content." ]%string.

(** [simulateBrowserTranscription]; [random] is the value of
    [Math.random()], which lies in [0, 1).  Outside that range the index
    would miss the array; the model then yields the empty string. *)
Definition simulateBrowserTranscription (random : Q) : string :=
  let index := Z.to_nat (Qfloor (random * inject_Z (Z.of_nat (length sampleTexts)))) in
  default ""%string (sampleTexts !! index).

(** [transcribeWithWhisper]: issues the request; [response] is the text
    of a successful answer, [None] a failed request. *)
Definition transcribeWithWhisper (response : option string) (w : World)
  : World * option string :=
  let w := emit (Fetch "/api/speech-to-text") w in
  match response with
  | Some text => (w, Some text)
  | None => (emit ConsoleError w, None)
  end.

(** [mediaRecorder.onstop], created by [startRecording] during [render].
    [env] and [env'] are the id and date drawn by the first and by the
    second call of [saveSTTHistory]; [uncaught] in the result says that
    the handler ended with an exception. *)
Definition onstop (render : State) (response : option string) (random : Q)
  (env env' : Env) (w : World) : World * bool :=
  if bool_decide (0 < length (audioChunksRef (state w)))%nat then
    let w := update (setIsLoading true) w in
    let accuracy := (85 # 100)%Q in
    let '(w, transcription, accuracy) :=
      if backendConnected render then
        match transcribeWithWhisper response w with
        | (w, Some text) => (w, text, (95 # 100)%Q)
        | (w, None) => (emit ConsoleError w, simulateBrowserTranscription random, accuracy)
        end
      else (w, simulateBrowserTranscription random, accuracy) in
    let w := update (setTranscribedText transcription) w in
    let duration := 5%Q in
    match saveSTTHistory env transcription accuracy (language render) duration
            (localStorage w) with
    | (ls, Some _) =>
        let w := loadHistory (set_localStorage ls w) in
        let w := update (setIsLoading false) w in
        (emit TracksStop w, false)
    | (_, None) =>
        let w := emit ConsoleError w in
        let fallbackText :=
          "This is a sample transcription. Your audio has been processed successfully."%string in
        let w := update (setTranscribedText fallbackText) w in
        let duration := 5%Q in
        let accuracy := (85 # 100)%Q in
        match saveSTTHistory env' fallbackText accuracy (language render) duration
                (localStorage w) with
        | (ls, Some _) =>
            let w := loadHistory (set_localStorage ls w) in
            let w := update (setIsLoading false) w in
            (emit TracksStop w, false)
        | (_, None) => (update (setIsLoading false) w, true)
        end
    end
  else (emit TracksStop w, false).

Definition stopRecording (render : State) (w : World) : World :=
  if mediaRecorderRef (state w) && isRecording render then
    update (setIsRecording false) (emit MediaRecorderStop w)
  else w.

(** A pending [setTimeout]: its delay and what runs when it fires. *)
Record Timer := { delay : Z; callback : World → World }.

(** [startRecording]; [granted] says whether [getUserMedia] resolves. *)
Definition startRecording (render : State) (granted : bool) (w : World)
  : World * option Timer :=
  if granted then
    let w := update (set_mediaRecorderRef true) w in
    let w := update (set_audioChunksRef []) w in
    let w := emit (MediaRecorderStart 1000) w in
    let w := update (setIsRecording true) w in
    let w := emit (SetTimeout 30000) w in
    (w, Some {| delay := 30000;
                callback := λ w, if isRecording render then stopRecording render w else w |})
  else
    (emit (Alert "Could not access microphone. Please check permissions.")
       (emit ConsoleError w), None).

(** The record button: [onClick={isRecording ? stopRecording : startRecording}],
    evaluated in the current render. *)
Definition record_button (granted : bool) (w : World) : World * option Timer :=
  let render := state w in
  if isRecording render then (stopRecording render w, None)
  else startRecording render granted w.

(** *** Upload *)

Definition allowedTypes : list string :=
  [ "audio/mpeg"; "audio/wav"; "audio/webm"; "audio/ogg"; "audio/x-m4a"; "audio/mp4" ]%string.

(** [file.name.match(/\.(mp3|wav|webm|ogg|m4a|mp4)$/i)] *)
Definition has_audio_extension (name : string) : bool :=
  existsb (λ ext, Str.endsWith (Str.toLowerCase name) ("." +:+ ext))
    [ "mp3"; "wav"; "webm"; "ogg"; "m4a"; "mp4" ]%string.

(** [handleAudioUpload(e)]; [file] is [e.target.files[0]], [response]
    the text of a successful answer ([result.text || result.transcription],
    possibly empty) or [None] for a failed request. *)
Definition handleAudioUpload (render : State) (file : option File)
  (response : option string) (random : Q) (env env' : Env) (w : World)
  : World * bool :=
  match file with
  | None => (w, false)
  | Some file =>
      if 100 * 1024 * 1024 <? size file then
        (emit ClearFileInput
           (emit (Alert "File too large. Please select a file smaller than 100MB.") w), false)
      else if negb (bool_decide (file_type file ∈ allowedTypes))
              && negb (has_audio_extension (name file)) then
        (emit ClearFileInput
           (emit (Alert "Please select a valid audio file (MP3, WAV, WebM, OGG, M4A, MP4).") w), false)
      else
        let w := update (setAudioFile (Some file)) w in
        let w := update (setIsLoading true) w in
        let accuracy := (92 # 100)%Q in
        let '(w, transcription, accuracy) :=
          if backendConnected render then
            let w := emit (Fetch "/api/speech-to-text") w in
            match response with
            | Some text =>
                (w, if Str.truthy text then text
                    else "Transcription completed successfully."%string, (95 # 100)%Q)
            | None => (emit ConsoleError w, simulateBrowserTranscription random, accuracy)
            end
          else (w, simulateBrowserTranscription random, accuracy) in
        let w := update (setTranscribedText transcription) w in
        let duration := 10%Q in
        match saveSTTHistory env transcription accuracy (language render) duration
                (localStorage w) with
        | (ls, Some _) =>
            let w := loadHistory (set_localStorage ls w) in
            let w := update (setIsLoading false) w in
            (emit ClearFileInput w, false)
        | (_, None) =>
            let w := emit ConsoleError w in
            let fallbackText :=
              "This is a sample transcription from your uploaded audio file."%string in
            let w := update (setTranscribedText fallbackText) w in
            let duration := 10%Q in
            let accuracy := (92 # 100)%Q in
            match saveSTTHistory env' fallbackText accuracy (language render) duration
                    (localStorage w) with
            | (ls, Some _) =>
                let w := loadHistory (set_localStorage ls w) in
                let w := update (setIsLoading false) w in
                (emit ClearFileInput w, false)
            | (_, None) =>
                (emit ClearFileInput (update (setIsLoading false) w), true)
            end
        end
  end.

(** *** Sample worlds used to exercise the handlers *)

Definition initial_state : State :=
  {| text := ""; isLoading := false; transcribedText := ""; isRecording := false;
     audioFile := None; isLiveTranscribing := false; interimTranscript := "";
     liveSessionText := ""; backendConnected := true; language := "en";
     voiceModel := "21m00Tcm4TlvDq8ikWAM"; autoSpeak := true;
     sttHistory := []; ttsHistory := []; mediaRecorderRef := false;
     audioChunksRef := [] |}.

Definition initial_world : World := mount true initial_state ∅.

Definition sample_env : Env := {| fresh_id := "id-1"; now := "2024-01-01T00:00:00.000Z" |}.
Definition sample_env' : Env := {| fresh_id := "id-2"; now := "2024-01-01T00:00:01.000Z" |}.

End SpeechLab.

(** ** The VoicePersonalizer component: sample recording *)

Module VoicePersonalizer.

Record State := {
  isRecording : bool;
  isProcessing : bool;
  mediaRecorderRef : bool;   (* [mediaRecorderRef.current] is set *)
  audioChunksRef : list Z;
  recordingError : option string
}.

Inductive Effect :=
| MediaRecorderStart
| MediaRecorderStop
| TracksStop
| SetTimeout (delay : Z).

Record World := { state : State; trace : list Effect }.

Definition update (f : State → State) (w : World) : World :=
  {| state := f (state w); trace := trace w |}.

Definition emit (e : Effect) (w : World) : World :=
  {| state := state w; trace := trace w ++ [e] |}.

Definition setIsRecording (v : bool) (s : State) : State :=
  {| isRecording := v; isProcessing := isProcessing s;
     mediaRecorderRef := mediaRecorderRef s; audioChunksRef := audioChunksRef s;
     recordingError := recordingError s |}.

Definition set_recorder (s : State) : State :=
  {| isRecording := isRecording s; isProcessing := isProcessing s;
     mediaRecorderRef := true; audioChunksRef := [];
     recordingError := recordingError s |}.

Definition setRecordingError (v : option string) (s : State) : State :=
  {| isRecording := isRecording s; isProcessing := isProcessing s;
     mediaRecorderRef := mediaRecorderRef s; audioChunksRef := audioChunksRef s;
     recordingError := v |}.

Definition stopRecording (render : State) (w : World) : World :=
  if mediaRecorderRef (state w) && isRecording render then
    update (setIsRecording false) (emit TracksStop (emit MediaRecorderStop w))
  else w.

Record Timer := { delay : Z; callback : World → World }.

(** [startRecording]; [granted] is [None] when [getUserMedia] resolves,
    or the message of the error it rejects with. *)
Definition startRecording (render : State) (granted : option string) (w : World)
  : World * option Timer :=
  match granted with
  | None =>
      let w := update set_recorder w in
      let w := emit MediaRecorderStart w in
      let w := update (setIsRecording true) w in
      let w := emit (SetTimeout 10000) w in
      (w, Some {| delay := 10000;
                  callback := λ w, if isRecording render then stopRecording render w else w |})
  | Some message =>
      (update (setRecordingError (Some ("Microphone error: " +:+ message))) w, None)
  end.

(** [onClick={isRecording ? stopRecording : startRecording}] *)
Definition record_button (granted : option string) (w : World) : World * option Timer :=
  let render := state w in
  if isRecording render then (stopRecording render w, None)
  else startRecording render granted w.

Definition initial_world : World :=
  {| state := {| isRecording := false; isProcessing := false;
                 mediaRecorderRef := false; audioChunksRef := [];
                 recordingError := None |};
     trace := [] |}.

End VoicePersonalizer.

(** ** The WAV file as a layout, to compare with what [encodeWAV] writes *)

Module WavLayout.
Import Num DataView Wav.

Definition dataSize (audioBuffer : AudioBuffer) : nat :=
  (ab_length audioBuffer * (numberOfChannels audioBuffer * 2))%nat.

Definition header_bytes (audioBuffer : AudioBuffer) : list Z :=
  tag "RIFF"
  ++ le_bytes 4 (Z.of_nat (36 + dataSize audioBuffer))
  ++ tag "WAVE"
  ++ tag "fmt "
  ++ le_bytes 4 16
  ++ le_bytes 2 1
  ++ le_bytes 2 (Z.of_nat (numberOfChannels audioBuffer))
  ++ le_bytes 4 (sampleRate audioBuffer)
  ++ le_bytes 4 (sampleRate audioBuffer * Z.of_nat (numberOfChannels audioBuffer * 2))
  ++ le_bytes 2 (Z.of_nat (numberOfChannels audioBuffer * 2))
  ++ le_bytes 2 16
  ++ tag "data"
  ++ le_bytes 4 (Z.of_nat (dataSize audioBuffer)).

Definition sample_bytes (audioBuffer : AudioBuffer) (i c : nat) : list Z :=
  le_bytes 2 (quantize (sample_of audioBuffer c i)).

Definition frame_bytes (audioBuffer : AudioBuffer) (i : nat) : list Z :=
  flat_map (sample_bytes audioBuffer i) (seq 0 (numberOfChannels audioBuffer)).

Definition data_bytes (audioBuffer : AudioBuffer) : list Z :=
  flat_map (frame_bytes audioBuffer) (seq 0 (ab_length audioBuffer)).

Definition wav_bytes (audioBuffer : AudioBuffer) : list Z :=
  header_bytes audioBuffer ++ data_bytes audioBuffer.

End WavLayout.

(** ** SpeechLab: conversion to WAV, history panel, saving the text *)

Module SpeechLabRest.
Import History SpeechLab Wav.

(** A Blob: its MIME type and its bytes. *)
Record Blob := { blob_type : string; blob_bytes : list Z }.

(** [convertToWav(audioBlob)].  [decoded] is what [decodeAudioData]
    yields for the blob's bytes, [None] when it rejects.  The second
    component says whether the catch branch ran (and logged). *)
Definition convertToWav (audioBlob : Blob) (decoded : option AudioBuffer)
  : Blob * bool :=
  if bool_decide (blob_type audioBlob = "audio/wav"%string) then (audioBlob, false)
  else
    match decoded ≫= encodeWAV with
    | Some wavBuffer =>
        ({| blob_type := "audio/wav"; blob_bytes := wavBuffer |}, false)
    | None => (audioBlob, true)
    end.

(** [clearHistory(type = 'all')] *)
Definition clearHistory (type : string) (w : World) : World :=
  let w :=
    if bool_decide (type = "stt"%string) || bool_decide (type = "all"%string)
    then update (setSttHistory [])
           (set_localStorage (delete stt_key (localStorage w)) w)
    else w in
  if bool_decide (type = "tts"%string) || bool_decide (type = "all"%string)
  then update (setTtsHistory [])
         (set_localStorage (delete tts_key (localStorage w)) w)
  else w.

(** [transcribedText || text || liveSessionText] *)
Definition content_to_save (render : State) : string :=
  if Str.truthy (transcribedText render) then transcribedText render
  else if Str.truthy (text render) then text render
  else liveSessionText render.

(** [saveTranscription]: the text handed to the download, or the alert. *)
Inductive SaveOutcome :=
| Downloaded (file_content : string)
| Refused (message : string).

Definition saveTranscription (render : State) : SaveOutcome :=
  let content := content_to_save render in
  if negb (Str.truthy (Str.trim content)) then Refused "No text to save!"
  else Downloaded content.

End SpeechLabRest.

(** ** The history page (History.jsx) *)

Module HistoryPage.
Import History.

(** An entry as the page holds it: the stored record with [id] and
    [type] replaced, and the added field [service]. *)
Record PageItem := { item : HistoryItem; service : string }.

Definition with_id_type (new_id new_type : string) (it : HistoryItem) : HistoryItem :=
  {| id := new_id; content := content it; accuracy := accuracy it;
     voiceModel := voiceModel it; language := language it;
     duration := duration it; timestamp := timestamp it; type := new_type;
     favorite := favorite it |}.

(** [{...item, id: `${kind}-${item.id || Date.now()}`, type: kind,
    service: 'speech-lab'}]; [now] is the text of [Date.now()]. *)
Definition normalize (kind : string) (now : string) (it : HistoryItem) : PageItem :=
  {| item := with_id_type (kind +:+ "-" +:+ (if Str.truthy (id it) then id it else now))
               kind it;
     service := "speech-lab" |}.

(** [{...item, favorite: !item.favorite}]; a missing field is falsy. *)
Definition toggle (it : HistoryItem) : HistoryItem :=
  {| id := id it; content := content it; accuracy := accuracy it;
     voiceModel := voiceModel it; language := language it;
     duration := duration it; timestamp := timestamp it; type := type it;
     favorite := Some (negb (default false (favorite it))) |}.

Record State := {
  history : list PageItem;
  selectedItems : list string;
  isLoading : bool
}.

Definition setHistory (v : list PageItem) (s : State) : State :=
  {| history := v; selectedItems := selectedItems s; isLoading := isLoading s |}.

Definition setSelectedItems (v : list string) (s : State) : State :=
  {| history := history s; selectedItems := v; isLoading := isLoading s |}.

Definition setIsLoading (v : bool) (s : State) : State :=
  {| history := history s; selectedItems := selectedItems s; isLoading := v |}.

Inductive Effect :=
| ConsoleError
| Alert (message : string).

Record World := {
  state : State;
  localStorage : gmap string stored;
  trace : list Effect
}.

Definition update (f : State → State) (w : World) : World :=
  {| state := f (state w); localStorage := localStorage w; trace := trace w |}.

Definition emit (e : Effect) (w : World) : World :=
  {| state := state w; localStorage := localStorage w; trace := trace w ++ [e] |}.

Definition set_localStorage (ls : gmap string stored) (w : World) : World :=
  {| state := state w; localStorage := ls; trace := trace w |}.

(** [fetchHistoryData]; [clock n] is the text of the [n]-th evaluation
    of [Date.now()] in the two [map]s. *)
Definition fetchHistoryData (clock : nat → string) (w : World) : World :=
  let w := update (setIsLoading true) w in
  let w :=
    match parse_history stt_key (localStorage w) with
    | Some sttHistory =>
        match parse_history tts_key (localStorage w) with
        | Some ttsHistory =>
            let combinedHistory :=
              imap (λ i, normalize "stt" (clock i)) sttHistory
              ++ imap (λ i, normalize "tts" (clock (length sttHistory + i)%nat))
                   ttsHistory in
            update (setHistory combinedHistory) w
        | None => emit ConsoleError w
        end
    | None => emit ConsoleError w
    end in
  update (setIsLoading false) w.

(** The [count] of a tab. *)
Definition tab_count (tab : string) (history : list PageItem) : nat :=
  if bool_decide (tab = "all"%string) then length history
  else length (filter (λ p, type (item p) = tab) history).

(** [history.find(item => item.id === id)] *)
Definition find_item (render : State) (id0 : string) : option PageItem :=
  List.find (λ p, bool_decide (id (item p) = id0)) (history render).

(** [`speechLab_${item.type}_history`] *)
Definition key_of (p : PageItem) : string :=
  "speechLab_" +:+ type (item p) +:+ "_history".

(** [toggleFavorite(id)], created during [render].  The second
    component says that [JSON.parse] threw; nothing catches it here. *)
Definition toggleFavorite (render : State) (id0 : string) (w : World)
  : World * bool :=
  let w :=
    update (setHistory
              ((λ p, if bool_decide (id (item p) = id0)
                     then {| item := toggle (item p); service := service p |}
                     else p) <$> history render)) w in
  match find_item render id0 with
  | Some p =>
      if bool_decide (service p = "speech-lab"%string) then
        let key := key_of p in
        match parse_history key (localStorage w) with
        | Some existing =>
            let updated :=
              (λ storedItem, if bool_decide (id storedItem = id (item p))
                             then toggle storedItem else storedItem) <$> existing in
            (set_localStorage (<[key := Arr updated]> (localStorage w)) w, false)
        | None => (w, true)
        end
      else (w, false)
  | None => (w, false)
  end.

(** The body of the [forEach] of [deleteItems] for one id: the new
    store, or [None] when [JSON.parse] throws. *)
Definition delete_stored (render : State) (id0 : string)
  (ls : gmap string stored) : option (gmap string stored) :=
  match find_item render id0 with
  | Some p =>
      if bool_decide (service p = "speech-lab"%string) then
        let key := key_of p in
        match parse_history key ls with
        | Some existing =>
            let updated :=
              filter (λ storedItem, id storedItem ≠ id (item p)) existing in
            Some (<[key := Arr updated]> ls)
        | None => None
        end
      else Some ls
  | None => Some ls
  end.

(** [ids.forEach(...)]: the store when the loop ends, and whether it
    ran to its end. *)
Fixpoint delete_loop (render : State) (ids : list string)
  (ls : gmap string stored) : gmap string stored * bool :=
  match ids with
  | [] => (ls, true)
  | id0 :: rest =>
      match delete_stored render id0 ls with
      | Some ls' => delete_loop render rest ls'
      | None => (ls, false)
      end
  end.

(** [deleteItems(ids)]; [confirmed] is the answer to [window.confirm]. *)
Definition deleteItems (render : State) (confirmed : bool) (ids : list string)
  (w : World) : World :=
  if negb confirmed then w
  else
    let w := update (setHistory (filter (λ p, id (item p) ∉ ids) (history render))) w in
    match delete_loop render ids (localStorage w) with
    | (ls, true) => update (setSelectedItems []) (set_localStorage ls w)
    | (ls, false) =>
        emit (Alert "Error deleting items. Please try again.")
          (emit ConsoleError (set_localStorage ls w))
    end.

(** [toggleSelectItem(id)] *)
Definition toggleSelectItem (id0 : string) (w : World) : World :=
  update (λ s, setSelectedItems
                 (let prev := selectedItems s in
                  if bool_decide (id0 ∈ prev)
                  then filter (λ itemId, itemId ≠ id0) prev
                  else prev ++ [id0]) s) w.

(** What [formatTimeAgo] shows: "Just now", [`${n}m ago`], [`${n}h ago`],
    [`${n}d ago`], or the date in the locale's format. *)
Inductive TimeAgo :=
| JustNow
| MinutesAgo (n : Z)
| HoursAgo (n : Z)
| DaysAgo (n : Z)
| LocaleDate.

(** [formatTimeAgo(date)]; [now] and [date] are times in milliseconds,
    [None] an invalid date, with which every comparison is false. *)
Definition formatTimeAgo (now : Z) (date : option Z) : TimeAgo :=
  match date with
  | None => LocaleDate
  | Some date =>
      let diffInSeconds := (now - date) / 1000 in
      if diffInSeconds <? 60 then JustNow
      else if diffInSeconds <? 3600 then MinutesAgo (diffInSeconds / 60)
      else if diffInSeconds <? 86400 then HoursAgo (diffInSeconds / 3600)
      else if diffInSeconds <? 2592000 then DaysAgo (diffInSeconds / 86400)
      else LocaleDate
  end.

Definition page (ls : gmap string stored) : World :=
  {| state := {| history := []; selectedItems := []; isLoading := true |};
     localStorage := ls; trace := [] |}.

Definition digits (n : nat) : string := pretty (1700000000000 + Z.of_nat n).

End HistoryPage.

(** ** Voice profiles (VoicePersonalizer.jsx) *)

Module VoiceProfile.

Record VoiceHistoryItem := {
  id : string;
  profileName : string;
  tone : string;
  samplesCount : nat;
  timestamp : string
}.

(** What the key holds: the JSON text of an array of such records, in
    parsed form, or any other string. *)
Inductive stored :=
| Arr (items : list VoiceHistoryItem)
| Raw (text : string).

Definition history_key : string := "voicePersonalizer_history".

(** [Date.now().toString()] and [new Date().toISOString()] *)
Record Env := { now_ms : string; now_iso : string }.

(** [JSON.parse(localStorage.getItem('voicePersonalizer_history') || '[]')] *)
Definition parse_history (localStorage : gmap string stored)
  : option (list VoiceHistoryItem) :=
  match localStorage !! history_key with
  | None => Some []
  | Some (Arr items) => Some items
  | Some (Raw text) => if Str.truthy text then None else Some []
  end.

(** [saveVoiceHistory]; [None] when [JSON.parse] throws. *)
Definition saveVoiceHistory (env : Env) (profileName tone : string)
  (samplesCount : nat) (localStorage : gmap string stored)
  : gmap string stored * option VoiceHistoryItem :=
  let historyItem :=
    {| id := now_ms env; profileName := profileName; tone := tone;
       samplesCount := samplesCount; timestamp := now_iso env |} in
  match parse_history localStorage with
  | Some existing =>
      let updated := historyItem :: take 49 existing in
      (<[history_key := Arr updated]> localStorage, Some historyItem)
  | None => (localStorage, None)
  end.

Record Sample := { sample_id : string }.

Record Profile := { profile_id : string; isActive : bool }.

(** The fields of [voiceSettings] that the code reads apart from
    passing them on in a request. *)
Record VoiceSettings := { name : string; settings_tone : string }.

Record State := {
  samples : list Sample;
  voiceSettings : VoiceSettings;
  isProcessing : bool;
  history : list VoiceHistoryItem;
  voiceProfiles : list Profile
}.

Definition setSamples (v : list Sample) (s : State) : State :=
  {| samples := v; voiceSettings := voiceSettings s; isProcessing := isProcessing s;
     history := history s; voiceProfiles := voiceProfiles s |}.

Definition setVoiceSettings (v : VoiceSettings) (s : State) : State :=
  {| samples := samples s; voiceSettings := v; isProcessing := isProcessing s;
     history := history s; voiceProfiles := voiceProfiles s |}.

Definition setIsProcessing (v : bool) (s : State) : State :=
  {| samples := samples s; voiceSettings := voiceSettings s; isProcessing := v;
     history := history s; voiceProfiles := voiceProfiles s |}.

Definition setHistory (v : list VoiceHistoryItem) (s : State) : State :=
  {| samples := samples s; voiceSettings := voiceSettings s;
     isProcessing := isProcessing s; history := v;
     voiceProfiles := voiceProfiles s |}.

Definition setVoiceProfiles (v : list Profile) (s : State) : State :=
  {| samples := samples s; voiceSettings := voiceSettings s;
     isProcessing := isProcessing s; history := history s; voiceProfiles := v |}.

Inductive Effect :=
| Alert (message : string)
| Request (method path : string)
| ConsoleError.

Definition is_alert (e : Effect) : bool :=
  match e with Alert _ => true | _ => false end.

Record World := {
  state : State;
  localStorage : gmap string stored;
  trace : list Effect
}.

Definition update (f : State → State) (w : World) : World :=
  {| state := f (state w); localStorage := localStorage w; trace := trace w |}.

Definition emit (e : Effect) (w : World) : World :=
  {| state := state w; localStorage := localStorage w; trace := trace w ++ [e] |}.

Definition set_localStorage (ls : gmap string stored) (w : World) : World :=
  {| state := state w; localStorage := ls; trace := trace w |}.

(** What an awaited call of the API yields: a value, or an exception
    with its message. *)
Inductive Outcome (A : Type) :=
| Ok (a : A)
| Throws (message : string).
Arguments Ok {A} a.
Arguments Throws {A} message.

(** [loadVoiceProfiles] *)
Definition loadVoiceProfiles (profiles : Outcome (list Profile)) (w : World) : World :=
  let w := emit (Request "GET" "/api/voice/profiles") w in
  match profiles with
  | Ok ps => update (setVoiceProfiles ps) w
  | Throws _ => update (setVoiceProfiles []) w
  end.

(** [loadHistory] *)
Definition loadHistory (w : World) : World :=
  match parse_history (localStorage w) with
  | Some savedHistory => update (setHistory savedHistory) w
  | None => update (setHistory []) (emit ConsoleError w)
  end.

(** The answer of [createVoiceProfile]: [result.success] and
    [result.profile_id]. *)
Record Created := { success : bool; created_id : string }.

(** [saveVoiceProfile], created during [render].  [create], [train] and
    [profiles] are the outcomes of the three requests, [syntax_error]
    the message of the SyntaxError of [JSON.parse]. *)
Definition saveVoiceProfile (render : State) (create : Outcome Created)
  (train : Outcome unit) (profiles : Outcome (list Profile))
  (syntax_error : string) (env : Env) (w : World) : World :=
  if (length (samples render) <? 10)%nat then
    emit (Alert "Please record at least 10 voice samples for better personalization") w
  else if negb (Str.truthy (Str.trim (name (voiceSettings render)))) then
    emit (Alert "Please give your custom voice a name") w
  else
    let w := update (setIsProcessing true) w in
    let failed message w := emit (Alert ("Failed to save voice profile: " +:+ message)) w in
    let w := emit (Request "POST" "/api/voice/profiles") w in
    let w :=
      match create with
      | Throws message => failed message w
      | Ok result =>
          if success result then
            let w := emit (Request "POST" ("/api/voice/profiles/" +:+ created_id result
                                           +:+ "/train")) w in
            match train with
            | Throws message => failed message w
            | Ok _ =>
                let w := loadVoiceProfiles profiles w in
                match saveVoiceHistory env (name (voiceSettings render))
                        (settings_tone (voiceSettings render))
                        (length (samples render)) (localStorage w) with
                | (ls, Some _) =>
                    let w := loadHistory (set_localStorage ls w) in
                    let w := update (setSamples []) w in
                    let w := update (λ prev, setVoiceSettings
                                      {| name := "";
                                         settings_tone := settings_tone (voiceSettings prev) |}
                                      prev) w in
                    emit (Alert "Voice profile created successfully!") w
                | (_, None) => failed syntax_error w
                end
            end
          else w
      end in
    update (setIsProcessing false) w.

Definition sample_env : Env :=
  {| now_ms := "1700000000000"; now_iso := "2023-11-14T22:13:20.000Z" |}.

Definition ten_samples : list Sample :=
  (λ n, {| sample_id := pretty (Z.of_nat n) |}) <$> seq 0 10.

Definition ready_state : State :=
  {| samples := ten_samples;
     voiceSettings := {| name := "My voice"; settings_tone := "calm" |};
     isProcessing := false; history := []; voiceProfiles := [] |}.

Definition ready_world : World :=
  {| state := ready_state; localStorage := ∅; trace := [] |}.

End VoiceProfile.

(** * Properties *)

(** ** Bytes and DataView *)

Module DataViewFacts.
Import Num DataView.

Lemma le_bytes_S n v :
  le_bytes (S n) v = Z.land v 255 :: le_bytes n (Z.shiftr v 8).
Proof.
  unfold le_bytes. cbn [seq fmap list_fmap]. f_equal.
  rewrite <- seq_shift, <- list_fmap_compose. apply list_fmap_ext.
  intros _ i _. cbn. f_equal. rewrite Z.shiftr_shiftr by lia. f_equal. lia.
Qed.

Lemma length_le_bytes n v : length (le_bytes n v) = n.
Proof. unfold le_bytes. by rewrite length_fmap, length_seq. Qed.

Lemma le_value_le_bytes n v :
  le_value (le_bytes n v) = v mod 2 ^ (8 * Z.of_nat n).
Proof.
  revert v. induction n as [|n IH]; intros v.
  - cbn. by rewrite Z.mod_1_r.
  - rewrite le_bytes_S. cbn [le_value foldr]. fold (le_value (le_bytes n (Z.shiftr v 8))).
    rewrite IH. apply Z.bits_inj'. intros k Hk.
    rewrite Z.lor_spec, Z.land_spec.
    change 255 with (Z.ones 8).
    rewrite <- !Z.land_ones by lia.
    destruct (decide (k < 8)) as [Hlt|Hge].
    + rewrite Z.shiftl_spec_low by lia.
      rewrite Z.land_spec, !Z.ones_spec_low by lia.
      by rewrite orb_false_r.
    + rewrite Z.shiftl_spec_high by lia.
      rewrite !Z.land_spec, Z.shiftr_spec by lia.
      rewrite (Z.ones_spec_high 8) by lia. rewrite andb_false_r. cbn [orb].
      replace (k - 8 + 8) with k by lia.
      destruct (decide (k < 8 * Z.of_nat (S n))).
      * by rewrite !Z.ones_spec_low by lia.
      * by rewrite !Z.ones_spec_high by lia.
Qed.

Lemma le_value_le_bytes_small n v :
  0 ≤ v < 2 ^ (8 * Z.of_nat n) → le_value (le_bytes n v) = v.
Proof. intros. rewrite le_value_le_bytes. by apply Z.mod_small. Qed.

Lemma setBytes_append off pre bs n k :
  length pre = off → length bs = n →
  setBytes off bs (pre ++ replicate (n + k) 0) = Some ((pre ++ bs) ++ replicate k 0).
Proof.
  intros <- <-. unfold setBytes.
  rewrite bool_decide_eq_true_2
    by (rewrite length_app, length_replicate; lia).
  f_equal. rewrite replicate_add, <- (Nat.add_0_r (length pre)).
  rewrite list_inserts_app_r, list_inserts_0_r by (by rewrite length_replicate).
  by rewrite <- app_assoc.
Qed.

Lemma getBytes_app_middle pre bs post :
  getBytes (length pre) (length bs) (pre ++ bs ++ post) = Some bs.
Proof.
  unfold getBytes.
  rewrite bool_decide_eq_true_2 by (rewrite !length_app; lia).
  f_equal. rewrite drop_app_length. by rewrite take_app_length.
Qed.

End DataViewFacts.

(** ** [encodeWAV] writes the layout *)

Module WavFacts.
Import Num DataView Wav WavLayout DataViewFacts.

Lemma charCodeAt_byte c : Z.land (charCodeAt c) 255 = charCodeAt c.
Proof.
  unfold charCodeAt. change 255 with (Z.ones 8). rewrite Z.land_ones by lia.
  apply Z.mod_small. pose proof (Ascii.nat_ascii_bounded c). lia.
Qed.

Lemma setUint8_append off pre c k :
  length pre = off →
  setUint8 off (charCodeAt c) (pre ++ replicate (1 + k) 0)
  = Some ((pre ++ [charCodeAt c]) ++ replicate k 0).
Proof.
  intros Hoff. unfold setUint8.
  rewrite (setBytes_append off pre _ 1 k Hoff) by apply length_le_bytes.
  rewrite le_bytes_S. by rewrite charCodeAt_byte.
Qed.

Lemma write_chars_append (cs : list Ascii.ascii) : ∀ off j pre k,
  length pre = (off + j)%nat →
  for_each (imap (λ i c, ((j + i)%nat, c)) cs)
    (λ '(i, c) view, setUint8 (off + i) (charCodeAt c) view)
    (pre ++ replicate (length cs + k) 0)
  = Some ((pre ++ (charCodeAt <$> cs)) ++ replicate k 0).
Proof.
  induction cs as [|c cs IH]; intros off j pre k Hlen.
  - cbn. by rewrite app_nil_r.
  - cbn [imap for_each length]. rewrite Nat.add_0_r.
    rewrite (setUint8_append _ pre c (length cs + k)) by done.
    cbn [mbind option_bind].
    rewrite (imap_ext _ (λ i c, ((S j + i)%nat, c)))
      by (intros; cbn; f_equal; lia).
    rewrite (IH off (S j)) by (rewrite length_app; cbn; lia).
    cbn [fmap list_fmap]. by rewrite <- (app_assoc pre [_]).
Qed.

Lemma length_chars s :
  length (String.list_ascii_of_string s) = String.length s.
Proof. induction s as [|c s IH]; cbn; [done | by rewrite IH]. Qed.

Lemma writeString_append off s pre k :
  length pre = off →
  writeString off s (pre ++ replicate (String.length s + k) 0)
  = Some ((pre ++ tag s) ++ replicate k 0).
Proof.
  intros Hoff. unfold writeString, tag.
  rewrite <- (length_chars s).
  rewrite (imap_ext _ (λ i c, ((0 + i)%nat, c))) by done.
  apply write_chars_append. lia.
Qed.

Lemma setUint16_append off v pre k :
  length pre = off →
  setUint16 off v true (pre ++ replicate (2 + k) 0)
  = Some ((pre ++ le_bytes 2 v) ++ replicate k 0).
Proof. intros. apply setBytes_append; [done | apply length_le_bytes]. Qed.

Lemma setUint32_append off v pre k :
  length pre = off →
  setUint32 off v true (pre ++ replicate (4 + k) 0)
  = Some ((pre ++ le_bytes 4 v) ++ replicate k 0).
Proof. intros. apply setBytes_append; [done | apply length_le_bytes]. Qed.

Lemma setInt16_append off x pre k :
  length pre = off →
  setInt16 off x true (pre ++ replicate (2 + k) 0)
  = Some ((pre ++ le_bytes 2 (ToInt16 x)) ++ replicate k 0).
Proof. intros. apply setBytes_append; [done | apply length_le_bytes]. Qed.

Lemma length_flat_map_const {A} (f : A → list Z) n (xs : list A) :
  (∀ x, length (f x) = n) → length (flat_map f xs) = (length xs * n)%nat.
Proof.
  intros Hf. induction xs as [|x xs IH]; [done|].
  cbn. rewrite length_app, Hf, IH. lia.
Qed.

Section Encode.
Context (audioBuffer : AudioBuffer).
Hypothesis channels_present :
  length (channelData audioBuffer) = numberOfChannels audioBuffer.

Lemma length_sample_bytes i c : length (sample_bytes audioBuffer i c) = 2%nat.
Proof. apply length_le_bytes. Qed.

Lemma length_frame_bytes i :
  length (frame_bytes audioBuffer i) = (numberOfChannels audioBuffer * 2)%nat.
Proof.
  unfold frame_bytes.
  rewrite (length_flat_map_const _ 2) by apply length_sample_bytes.
  by rewrite length_seq.
Qed.

Lemma length_data_bytes : length (data_bytes audioBuffer) = dataSize audioBuffer.
Proof.
  unfold data_bytes, dataSize.
  rewrite (length_flat_map_const _ (numberOfChannels audioBuffer * 2))
    by apply length_frame_bytes.
  by rewrite length_seq.
Qed.

Lemma length_header_bytes : length (header_bytes audioBuffer) = 44%nat.
Proof. reflexivity. Qed.

Lemma write_sample_append i c pre k :
  (c < numberOfChannels audioBuffer)%nat →
  write_sample audioBuffer i c (pre ++ replicate (2 + k) 0, length pre)
  = Some ((pre ++ sample_bytes audioBuffer i c) ++ replicate k 0,
          (length pre + 2)%nat).
Proof.
  intros Hc. unfold write_sample.
  destruct (lookup_lt_is_Some_2 (channelData audioBuffer) c) as [data Hdata];
    [lia|].
  unfold sample_bytes, quantize, sample_of, getChannelData.
  rewrite Hdata. cbn [mbind option_bind default].
  by rewrite (setInt16_append _ _ pre).
Qed.

(** The inner loop appends the samples of the listed channels. *)
Lemma channel_loop_append i (cs : list nat) : ∀ pre k,
  Forall (λ c, (c < numberOfChannels audioBuffer)%nat) cs →
  for_each cs (write_sample audioBuffer i)
    (pre ++ replicate (length cs * 2 + k) 0, length pre)
  = Some ((pre ++ flat_map (sample_bytes audioBuffer i) cs) ++ replicate k 0,
          (length pre + length cs * 2)%nat).
Proof.
  induction cs as [|c cs IH]; intros pre k Hcs.
  - cbn. by rewrite app_nil_r, Nat.add_0_r.
  - apply Forall_cons in Hcs as [Hc Hcs].
    cbn [for_each length].
    replace (S (length cs) * 2 + k)%nat with (2 + (length cs * 2 + k))%nat by lia.
    rewrite write_sample_append by done.
    cbn [mbind option_bind].
    replace (length pre + 2)%nat
      with (length (pre ++ sample_bytes audioBuffer i c))
      by (rewrite length_app, length_sample_bytes; lia).
    rewrite IH by done. f_equal. f_equal.
    + cbn [flat_map]. by rewrite <- !app_assoc.
    + rewrite length_app, length_sample_bytes. lia.
Qed.

(** The outer loop appends the listed frames. *)
Lemma frame_loop_append (frames : list nat) : ∀ pre k,
  for_each frames
    (λ i st, for_each (seq 0 (numberOfChannels audioBuffer))
               (write_sample audioBuffer i) st)
    (pre ++ replicate (length frames * (numberOfChannels audioBuffer * 2) + k) 0,
     length pre)
  = Some ((pre ++ flat_map (frame_bytes audioBuffer) frames) ++ replicate k 0,
          (length pre + length frames * (numberOfChannels audioBuffer * 2))%nat).
Proof.
  induction frames as [|i frames IH]; intros pre k.
  - cbn. by rewrite app_nil_r, Nat.add_0_r.
  - cbn [for_each length].
    set (M := numberOfChannels audioBuffer) in *.
    replace (S (length frames) * (M * 2) + k)%nat
      with (length (seq 0 M) * 2 + (length frames * (M * 2) + k))%nat
      by (rewrite length_seq; lia).
    rewrite channel_loop_append
      by (apply Forall_forall; intros c Hc%elem_of_seq; unfold M in *; lia).
    cbn [mbind option_bind].
    fold (frame_bytes audioBuffer i).
    replace (length pre + length (seq 0 M) * 2)%nat
      with (length (pre ++ frame_bytes audioBuffer i))
      by (rewrite length_app, length_frame_bytes, length_seq; done).
    rewrite IH. f_equal. f_equal.
    + cbn [flat_map]. by rewrite <- !app_assoc.
    + rewrite length_app, length_frame_bytes. unfold M. lia.
Qed.

(** [encodeWAV] returns, and what it returns is the layout. *)
Lemma encodeWAV_layout : encodeWAV audioBuffer = Some (wav_bytes audioBuffer).
Proof.
  unfold encodeWAV, ArrayBuffer.
  change (16 / 8)%nat with 2%nat.
  fold (dataSize audioBuffer).
  set (d := dataSize audioBuffer).
  change (replicate (44 + d) 0)
    with ([] ++ replicate (String.length "RIFF" + (40 + d)) 0).
  rewrite writeString_append by done. cbn [mbind option_bind].
  change (40 + d)%nat with (4 + (36 + d))%nat.
  rewrite setUint32_append by done. cbn [mbind option_bind].
  change (36 + d)%nat with (String.length "WAVE" + (32 + d))%nat at 2.
  rewrite writeString_append by done. cbn [mbind option_bind].
  change (32 + d)%nat with (String.length "fmt " + (28 + d))%nat.
  rewrite writeString_append by done. cbn [mbind option_bind].
  change (28 + d)%nat with (4 + (24 + d))%nat.
  rewrite setUint32_append by done. cbn [mbind option_bind].
  change (24 + d)%nat with (2 + (22 + d))%nat.
  rewrite setUint16_append by done. cbn [mbind option_bind].
  change (22 + d)%nat with (2 + (20 + d))%nat.
  rewrite setUint16_append by done. cbn [mbind option_bind].
  change (20 + d)%nat with (4 + (16 + d))%nat.
  rewrite setUint32_append by done. cbn [mbind option_bind].
  change (16 + d)%nat with (4 + (12 + d))%nat.
  rewrite setUint32_append by done. cbn [mbind option_bind].
  change (12 + d)%nat with (2 + (10 + d))%nat.
  rewrite setUint16_append by done. cbn [mbind option_bind].
  change (10 + d)%nat with (2 + (8 + d))%nat.
  rewrite setUint16_append by done. cbn [mbind option_bind].
  change (8 + d)%nat with (String.length "data" + (4 + d))%nat.
  rewrite writeString_append by done. cbn [mbind option_bind].
  rewrite setUint32_append by done. cbn [mbind option_bind].
  match goal with
  | |- context [for_each _ _ (?pre ++ _, _)] => set (hdr := pre)
  end.
  change 44%nat with (length hdr).
  replace d
    with (length (seq 0 (ab_length audioBuffer))
          * (numberOfChannels audioBuffer * 2) + 0)%nat
    by (rewrite length_seq; unfold d, dataSize; lia).
  rewrite frame_loop_append. cbn [mbind option_bind].
  f_equal. cbn [replicate]. rewrite app_nil_r.
  unfold wav_bytes, data_bytes. by f_equal.
Qed.

End Encode.

(** *** Reading a finished buffer *)

Lemma getBytes_here seg rest n :
  length seg = n → getBytes 0 n (seg ++ rest) = Some seg.
Proof. intros <-. apply (getBytes_app_middle [] seg rest). Qed.

Lemma getBytes_skip seg rest off n k off' :
  length seg = k → off = (k + off')%nat →
  getBytes off n (seg ++ rest) = getBytes off' n rest.
Proof.
  intros <- ->. unfold getBytes. rewrite length_app, drop_app_add.
  repeat case_bool_decide; done || lia.
Qed.

Ltac read_segment :=
  repeat lazymatch goal with
  | |- getBytes 0%nat ?n (?seg ++ ?rest) = Some _ =>
      apply getBytes_here; reflexivity
  | |- getBytes ?off ?n (?seg ++ ?rest) = _ =>
      let k := eval lazy in (length seg) in
      let off' := eval lazy in (off - k)%nat in
      rewrite (getBytes_skip seg rest off n k off') by reflexivity
  end.

Lemma drop_flat_map_seq {A} (f : nat → list A) n :
  (∀ x, length (f x) = n) →
  ∀ i a len, (i ≤ len)%nat →
  drop (i * n) (flat_map f (seq a len)) = flat_map f (seq (a + i) (len - i)).
Proof.
  intros Hf. induction i as [|i IH]; intros a len Hi.
  - cbn. by rewrite Nat.add_0_r, Nat.sub_0_r.
  - destruct len as [|len]; [lia|].
    cbn [seq flat_map Nat.mul Nat.sub].
    rewrite <- (Hf a) at 1. rewrite drop_app_add, IH by lia.
    by rewrite Nat.add_succ_r.
Qed.

Lemma getBytes_chunk (f : nat → list Z) n len i :
  (∀ x, length (f x) = n) → (i < len)%nat →
  ∀ off m, (off + m ≤ n)%nat →
  getBytes (i * n + off) m (flat_map f (seq 0 len)) = getBytes off m (f i).
Proof.
  intros Hf Hi off m Hoff. unfold getBytes.
  rewrite (length_flat_map_const f n) by done. rewrite length_seq, Hf.
  rewrite !bool_decide_eq_true_2 by nia. f_equal.
  rewrite <- drop_drop, (drop_flat_map_seq f n) by (done || lia).
  replace (len - i)%nat with (S (len - S i)) by lia.
  cbn [seq flat_map Nat.add].
  rewrite drop_app_le by (rewrite Hf; lia).
  rewrite take_app_le; [done|]. rewrite length_drop, Hf. lia.
Qed.

Lemma getBytes_sample (audioBuffer : AudioBuffer) i c :
  (i < ab_length audioBuffer)%nat → (c < numberOfChannels audioBuffer)%nat →
  getBytes ((i * numberOfChannels audioBuffer + c) * 2) 2 (data_bytes audioBuffer)
  = Some (sample_bytes audioBuffer i c).
Proof.
  intros Hi Hc. unfold data_bytes.
  replace ((i * numberOfChannels audioBuffer + c) * 2)%nat
    with (i * (numberOfChannels audioBuffer * 2) + c * 2)%nat by lia.
  rewrite (getBytes_chunk _ (numberOfChannels audioBuffer * 2))
    by (apply length_frame_bytes || lia).
  unfold frame_bytes.
  replace (c * 2)%nat with (c * 2 + 0)%nat by lia.
  rewrite (getBytes_chunk _ 2)
    by (apply length_sample_bytes || lia).
  rewrite <- (app_nil_r (sample_bytes _ _ _)) at 1.
  apply getBytes_here, length_sample_bytes.
Qed.

Lemma ToInt16_range x : - 2 ^ 15 ≤ ToInt16 x < 2 ^ 15.
Proof.
  destruct x as [q| | |]; cbn [ToInt16]; try lia.
  pose proof (Z.mod_pos_bound (Qtruncate q) (2 ^ 16) ltac:(lia)).
  case_match; lia.
Qed.

Lemma getInt16_le_bytes v rest :
  - 2 ^ 15 ≤ v < 2 ^ 15 → getInt16 0 (le_bytes 2 v ++ rest) = Some v.
Proof.
  intros Hv. unfold getInt16.
  rewrite getBytes_here by apply length_le_bytes.
  cbn [fmap option_fmap option_map]. f_equal.
  rewrite le_value_le_bytes. change (2 ^ (8 * Z.of_nat 2)) with (2 ^ 16).
  destruct (decide (0 ≤ v)).
  - rewrite Z.mod_small by lia. case_match; lia.
  - replace (v mod 2 ^ 16) with (v + 2 ^ 16)
      by (apply (Z.mod_unique _ _ (-1)); lia).
    case_match; lia.
Qed.

(** Where the encoder puts the sample of channel [c] in frame [i]. *)
Lemma encodeWAV_sample (audioBuffer : AudioBuffer) i c :
  (i < ab_length audioBuffer)%nat → (c < numberOfChannels audioBuffer)%nat →
  getInt16 (44 + (i * numberOfChannels audioBuffer + c) * 2) (wav_bytes audioBuffer)
  = Some (quantize (sample_of audioBuffer c i)).
Proof.
  intros Hi Hc.
  pose proof (getBytes_sample audioBuffer i c Hi Hc) as Hs.
  pose proof (getInt16_le_bytes (quantize (sample_of audioBuffer c i)) []
                (ToInt16_range _)) as Hr.
  unfold getInt16 in *. unfold wav_bytes.
  rewrite (getBytes_skip _ _ _ 2 44 ((i * numberOfChannels audioBuffer + c) * 2))
    by done.
  rewrite Hs. rewrite getBytes_here in Hr by apply length_le_bytes.
  exact Hr.
Qed.

(** C1.  For a decoded buffer with M channels, N frames and sample rate
    R, [encodeWAV] returns 44 + N*M*2 bytes: the tags RIFF, WAVE, "fmt "
    and data at offsets 0, 8, 12 and 36; the little-endian fields audio
    format 1 at 20, channel count M at 22, sample rate R at 24, byte rate
    R*M*2 at 28, block align M*2 at 32 and bits per sample 16 at 34; then
    the N*M little-endian 16-bit samples, frame by frame and within a
    frame channel by channel. *)
Theorem encodeWAV_format (audioBuffer : AudioBuffer) :
  well_formed audioBuffer → fits_header audioBuffer →
  let M := numberOfChannels audioBuffer in
  let N := ab_length audioBuffer in
  let R := sampleRate audioBuffer in
  ∃ wav, encodeWAV audioBuffer = Some wav ∧
    length wav = (44 + N * M * 2)%nat ∧
    getBytes 0 4 wav = Some (tag "RIFF") ∧
    getBytes 8 4 wav = Some (tag "WAVE") ∧
    getBytes 12 4 wav = Some (tag "fmt ") ∧
    getBytes 36 4 wav = Some (tag "data") ∧
    getUint16 20 wav = Some 1 ∧
    getUint16 22 wav = Some (Z.of_nat M) ∧
    getUint32 24 wav = Some R ∧
    getUint32 28 wav = Some (R * Z.of_nat M * 2) ∧
    getUint16 32 wav = Some (Z.of_nat M * 2) ∧
    getUint16 34 wav = Some 16 ∧
    ∀ i c, (i < N)%nat → (c < M)%nat →
      getInt16 (44 + (i * M + c) * 2) wav
      = Some (quantize (sample_of audioBuffer c i)).
Proof.
  intros [Hch _] (HM & [HR HR'] & HRM) M N R.
  exists (wav_bytes audioBuffer).
  split; [by apply encodeWAV_layout|].
  split.
  { unfold wav_bytes. rewrite length_app, length_header_bytes, length_data_bytes.
    unfold dataSize. lia. }
  assert (Hfield : ∀ off n v,
    getBytes off n (wav_bytes audioBuffer) = Some (le_bytes n v) →
    0 ≤ v < 2 ^ (8 * Z.of_nat n) →
    le_value <$> getBytes off n (wav_bytes audioBuffer) = Some v).
  { intros off n v -> Hv. cbn. f_equal. by apply le_value_le_bytes_small. }
  assert (H16 : 2 ^ (8 * Z.of_nat 2) = 65536) by reflexivity.
  assert (H32 : 2 ^ (8 * Z.of_nat 4) = 4294967296) by reflexivity.
  assert (HRM' : 0 ≤ R * Z.of_nat (M * 2) < 4294967296)
    by (unfold M, R in *; nia).
  unfold getUint16, getUint32.
  replace (R * Z.of_nat M * 2) with (R * Z.of_nat (M * 2)) by lia.
  replace (Z.of_nat M * 2) with (Z.of_nat (M * 2)) by lia.
  repeat split;
    try (apply Hfield; [|rewrite ?H16, ?H32; unfold M, R in *; lia]);
    try (unfold wav_bytes, header_bytes; rewrite <- ?app_assoc; read_segment; fail).
  intros i c Hi Hc. by apply encodeWAV_sample.
Qed.

Lemma encodeWAV_format_witness :
  well_formed demo_buffer ∧ fits_header demo_buffer ∧
  ∃ wav, encodeWAV demo_buffer = Some wav ∧
    length wav = 56%nat ∧
    getBytes 0 4 wav = Some [82; 73; 70; 70] ∧
    getUint16 22 wav = Some 2 ∧
    getUint32 24 wav = Some 48000 ∧
    getUint32 28 wav = Some 192000 ∧
    getUint16 32 wav = Some 4 ∧
    getInt16 (44 + (1 * 2 + 0) * 2) wav = Some (-32768).
Proof.
  assert (Hwf : well_formed demo_buffer)
    by (split; [reflexivity | repeat constructor]).
  assert (Hfits : fits_header demo_buffer) by (unfold fits_header; cbn; lia).
  split; [exact Hwf|]. split; [exact Hfits|].
  destruct (encodeWAV_format demo_buffer Hwf Hfits)
    as (wav & Hwav & Hlen & Hriff & _ & _ & _ & _ & HM & HR & HRM & HBA & _ & Hs).
  exists wav. repeat (split; [assumption|]).
  apply (Hs 1%nat 0%nat); cbn; lia.
Defined.

(** *** Quantisation *)

Lemma Qtruncate_proper p q : (p == q)%Q → Qtruncate p = Qtruncate q.
Proof.
  destruct p as [a b], q as [c d]. unfold Qeq, Qtruncate. cbn. intros H.
  rewrite <- (Z.quot_mul_cancel_r a (Zpos b) (Zpos d)) by lia.
  rewrite H, (Z.mul_comm c), Z.quot_mul_cancel_l by lia. done.
Qed.

Lemma Qtruncate_lower a q : (inject_Z a <= q)%Q → a ≤ Qtruncate q.
Proof.
  destruct q as [n d]. unfold Qle, Qtruncate. cbn. intros H.
  rewrite <- (Z.quot_mul a (Zpos d)) by lia.
  apply Z.quot_le_mono; lia.
Qed.

Lemma Qtruncate_upper a q : (q <= inject_Z a)%Q → Qtruncate q ≤ a.
Proof.
  destruct q as [n d]. unfold Qle, Qtruncate. cbn. intros H.
  rewrite <- (Z.quot_mul a (Zpos d)) by lia.
  apply Z.quot_le_mono; lia.
Qed.

Lemma ToInt16_in_range q :
  (inject_Z (- 2 ^ 15) <= q)%Q → (q <= inject_Z (2 ^ 15 - 1))%Q →
  ToInt16 (Fin q) = Qtruncate q.
Proof.
  intros Hlo%Qtruncate_lower Hhi%Qtruncate_upper. cbn [ToInt16].
  destruct (decide (0 ≤ Qtruncate q)).
  - rewrite Z.mod_small by lia. case_match; lia.
  - replace (Qtruncate q mod 2 ^ 16) with (Qtruncate q + 2 ^ 16)
      by (apply (Z.mod_unique _ _ (-1)); lia).
    case_match; lia.
Qed.

Lemma Qle_bool_true p q : (p <= q)%Q → Qle_bool p q = true.
Proof. apply Qle_bool_iff. Qed.

Lemma Qle_bool_false p q : (q < p)%Q → Qle_bool p q = false.
Proof.
  intros H. destruct (Qle_bool p q) eqn:E; [|done].
  apply Qle_bool_iff in E. lra.
Qed.

(** The scaled value of a finite sample already inside [-1, 1]. *)
Lemma scale_negative q :
  (-1 <= q)%Q → (q < 0)%Q →
  ToInt16 (scale (Fin q)) = Qtruncate (q * inject_Z 0x8000).
Proof.
  intros H1 H2. unfold scale, ltb, of_Z.
  rewrite (Qle_bool_false (inject_Z 0) q) by exact H2.
  cbn [negb mul]. apply ToInt16_in_range.
  - change (inject_Z (- 2 ^ 15)) with (- (32768))%Q.
    change (inject_Z 32768) with 32768%Q. lra.
  - change (inject_Z (2 ^ 15 - 1)) with 32767%Q.
    change (inject_Z 32768) with 32768%Q. lra.
Qed.

Lemma scale_nonnegative q :
  (0 <= q)%Q → (q <= 1)%Q →
  ToInt16 (scale (Fin q)) = Qtruncate (q * inject_Z 0x7FFF).
Proof.
  intros H1 H2. unfold scale, ltb, of_Z.
  rewrite (Qle_bool_true (inject_Z 0) q) by exact H1.
  cbn [negb mul]. apply ToInt16_in_range.
  - change (inject_Z (- 2 ^ 15)) with (- (32768))%Q.
    change (inject_Z 32767) with 32767%Q. lra.
  - change (inject_Z (2 ^ 15 - 1)) with 32767%Q.
    change (inject_Z 32767) with 32767%Q. lra.
Qed.

(** Clamping a finite sample. *)
Lemma clamp_above q : (1 <= q)%Q → clamp (Fin q) = of_Z 1.
Proof.
  intros H. unfold clamp, of_Z. cbn [Math_min].
  by rewrite (Qle_bool_true (inject_Z 1) q) by exact H.
Qed.

Lemma clamp_below q :
  (q <= -1)%Q → ∃ q', clamp (Fin q) = Fin q' ∧ (q' == -1)%Q.
Proof.
  intros H. unfold clamp, of_Z. cbn [Math_min].
  rewrite (Qle_bool_false (inject_Z 1) q)
    by (change (inject_Z 1) with 1%Q; lra).
  cbn [Math_max]. destruct (Qle_bool (inject_Z (-1)) q) eqn:E.
  - apply Qle_bool_iff in E. change (inject_Z (-1)) with (-1)%Q in E.
    exists q. split; [done | lra].
  - by exists (inject_Z (-1)).
Qed.

Lemma clamp_inside q :
  (-1 <= q)%Q → (q <= 1)%Q → ∃ q', clamp (Fin q) = Fin q' ∧ (q' == q)%Q.
Proof.
  intros H1 H2. unfold clamp, of_Z. cbn [Math_min].
  destruct (Qle_bool (inject_Z 1) q) eqn:E.
  - apply Qle_bool_iff in E. change (inject_Z 1) with 1%Q in E.
    cbn. exists (inject_Z 1). split; [done|]. change (inject_Z 1) with 1%Q. lra.
  - cbn [Math_max]. rewrite (Qle_bool_true (inject_Z (-1)) q) by exact H1.
    by exists q.
Qed.

Lemma quantize_negative q :
  (-1 <= q)%Q → (q < 0)%Q → quantize (Fin q) = Qtruncate (q * inject_Z 0x8000).
Proof.
  intros H1 H2. unfold quantize.
  destruct (clamp_inside q) as (q' & -> & Hq'); [lra..|].
  rewrite scale_negative by lra.
  apply Qtruncate_proper. by rewrite Hq'.
Qed.

Lemma quantize_nonnegative q :
  (0 <= q)%Q → (q <= 1)%Q → quantize (Fin q) = Qtruncate (q * inject_Z 0x7FFF).
Proof.
  intros H1 H2. unfold quantize.
  destruct (clamp_inside q) as (q' & -> & Hq'); [lra..|].
  rewrite scale_nonnegative by lra.
  apply Qtruncate_proper. by rewrite Hq'.
Qed.

Lemma quantize_above q : (1 <= q)%Q → quantize (Fin q) = 0x7FFF.
Proof. intros H. unfold quantize. by rewrite clamp_above. Qed.

Lemma quantize_below q : (q <= -1)%Q → quantize (Fin q) = - 0x8000.
Proof.
  intros H. unfold quantize.
  destruct (clamp_below q H) as (q' & -> & Hq').
  rewrite scale_negative by lra.
  rewrite (Qtruncate_proper _ (inject_Z (- 0x8000))); [done|].
  rewrite Hq'. reflexivity.
Qed.

Lemma quantize_zero q : (q == 0)%Q → quantize (Fin q) = 0.
Proof.
  intros H. rewrite quantize_nonnegative by lra.
  rewrite (Qtruncate_proper _ (inject_Z 0)); [done|].
  rewrite H. reflexivity.
Qed.

Lemma quantize_quantized x : quantized x (quantize x).
Proof.
  destruct x as [q| | |]; cbn [quantized]; try reflexivity.
  repeat split.
  - apply quantize_below.
  - apply quantize_above.
  - apply quantize_zero.
  - intros [? ?]. by apply quantize_negative.
  - intros [? ?]. by apply quantize_nonnegative.
Qed.

(** C2.  Every sample is stored clamped to [-1, 1] and scaled by 0x8000
    when negative, by 0x7FFF otherwise: 1.0 and anything above (also
    +Infinity) is stored as 0x7FFF, -1.0 and anything below (also
    -Infinity) as -0x8000, 0.0 as 0. *)
Theorem encodeWAV_quantization (audioBuffer : AudioBuffer) :
  well_formed audioBuffer →
  ∃ wav, encodeWAV audioBuffer = Some wav ∧
    ∀ i c, (i < ab_length audioBuffer)%nat →
           (c < numberOfChannels audioBuffer)%nat →
      ∃ stored,
        getInt16 (44 + (i * numberOfChannels audioBuffer + c) * 2) wav = Some stored ∧
        stored = ToInt16 (scale (clamp (sample_of audioBuffer c i))) ∧
        quantized (sample_of audioBuffer c i) stored.
Proof.
  intros [Hch _]. exists (wav_bytes audioBuffer).
  split; [by apply encodeWAV_layout|].
  intros i c Hi Hc. exists (quantize (sample_of audioBuffer c i)).
  split; [by apply encodeWAV_sample|].
  split; [reflexivity | apply quantize_quantized].
Qed.

Lemma encodeWAV_quantization_witness :
  well_formed demo_buffer ∧
  ∃ wav, encodeWAV demo_buffer = Some wav ∧
    getInt16 44 wav = Some 0x7FFF ∧ getInt16 46 wav = Some 0x7FFF ∧
    getInt16 48 wav = Some (- 0x8000).
Proof.
  assert (Hwf : well_formed demo_buffer)
    by (split; [reflexivity | repeat constructor]).
  split; [exact Hwf|].
  destruct (encodeWAV_quantization demo_buffer Hwf) as (wav & Hwav & Hs).
  exists wav. split; [exact Hwav|].
  destruct (Hs 0%nat 0%nat) as (s00 & H00 & -> & _); [cbn; lia..|].
  destruct (Hs 0%nat 1%nat) as (s01 & H01 & -> & _); [cbn; lia..|].
  destruct (Hs 1%nat 0%nat) as (s10 & H10 & -> & _); [cbn; lia..|].
  repeat split; assumption.
Defined.

End WavFacts.

(** ** The history store *)

Module HistoryFacts.
Import History.

Lemma keys_distinct : stt_key ≠ tts_key.
Proof. done. Qed.

Lemma parse_history_insert key items (ls : gmap string stored) :
  parse_history key (<[key := Arr items]> ls) = Some items.
Proof. unfold parse_history. by rewrite lookup_insert_eq. Qed.

Lemma parse_history_insert_ne key key' v (ls : gmap string stored) :
  key' ≠ key → parse_history key (<[key' := v]> ls) = parse_history key ls.
Proof. intros. unfold parse_history. by rewrite lookup_insert_ne. Qed.

(** *** Appending *)

Lemma saveSTTHistory_parse env t a l d ls existing :
  parse_history stt_key ls = Some existing →
  parse_history stt_key (saveSTTHistory env t a l d ls).1
  = Some (stt_item {| stt_env := env; stt_text := t; stt_accuracy := a;
                      stt_language := l; stt_duration := d |} :: take 49 existing).
Proof.
  intros H. unfold saveSTTHistory. rewrite H. cbn [fst].
  by rewrite parse_history_insert.
Qed.

Lemma saveTTSHistory_parse env t v l d ls existing :
  parse_history tts_key ls = Some existing →
  parse_history tts_key (saveTTSHistory env t v l d ls).1
  = Some (tts_item {| tts_env := env; tts_text := t; tts_voice := v;
                      tts_language := l; tts_duration := d |} :: take 49 existing).
Proof.
  intros H. unfold saveTTSHistory. rewrite H. cbn [fst].
  by rewrite parse_history_insert.
Qed.

Lemma take_49_take_50 {A} (l : list A) x :
  x :: take 49 (take 50 l) = take 50 (x :: l).
Proof. cbn [take]. f_equal. rewrite take_take. f_equal. Qed.

Lemma save_stt_all_parse (inputs : list SttInput) ls :
  parse_history stt_key ls = Some [] →
  parse_history stt_key (save_stt_all inputs ls)
  = Some (take 50 (reverse (stt_item <$> inputs))).
Proof.
  intros Hempty. induction inputs as [|x inputs IH] using rev_ind.
  - done.
  - unfold save_stt_all in *. rewrite foldl_app. cbn [foldl].
    rewrite (saveSTTHistory_parse _ _ _ _ _ _ _ IH).
    rewrite fmap_app. change (stt_item <$> [x]) with [stt_item x].
    rewrite reverse_snoc. f_equal.
    rewrite take_49_take_50. by destruct x.
Qed.

Lemma save_tts_all_parse (inputs : list TtsInput) ls :
  parse_history tts_key ls = Some [] →
  parse_history tts_key (save_tts_all inputs ls)
  = Some (take 50 (reverse (tts_item <$> inputs))).
Proof.
  intros Hempty. induction inputs as [|x inputs IH] using rev_ind.
  - done.
  - unfold save_tts_all in *. rewrite foldl_app. cbn [foldl].
    rewrite (saveTTSHistory_parse _ _ _ _ _ _ _ IH).
    rewrite fmap_app. change (tts_item <$> [x]) with [tts_item x].
    rewrite reverse_snoc. f_equal.
    rewrite take_49_take_50. by destruct x.
Qed.

(** C5.  Appending k entries one after the other to an empty collection
    leaves the min(k, 50) most recent ones, newest first; the same for
    the text-to-speech collection. *)
Theorem history_cap :
  (∀ (inputs : list SttInput) ls,
     parse_history stt_key ls = Some [] →
     ∃ kept,
       parse_history stt_key (save_stt_all inputs ls) = Some kept ∧
       kept = take 50 (reverse (stt_item <$> inputs)) ∧
       length kept = Nat.min (length inputs) 50) ∧
  (∀ (inputs : list TtsInput) ls,
     parse_history tts_key ls = Some [] →
     ∃ kept,
       parse_history tts_key (save_tts_all inputs ls) = Some kept ∧
       kept = take 50 (reverse (tts_item <$> inputs)) ∧
       length kept = Nat.min (length inputs) 50).
Proof.
  split; intros inputs ls Hempty; eexists; split;
    [by apply save_stt_all_parse | | by apply save_tts_all_parse | ];
    (split; [reflexivity|]);
    rewrite length_take, length_reverse, length_fmap; lia.
Qed.

(** Sixty sequential entries 1..60: entries 60 down to 11 remain. *)
Lemma history_cap_witness :
  parse_history stt_key (∅ : gmap string stored) = Some [] ∧
  parse_history tts_key (∅ : gmap string stored) = Some [] ∧
  parse_history stt_key (save_stt_all (numbered_stt <$> seq 1 60) ∅)
  = Some (stt_item <$> (numbered_stt <$> reverse (seq 11 50))) ∧
  parse_history tts_key (save_tts_all (numbered_tts <$> seq 1 60) ∅)
  = Some (tts_item <$> (numbered_tts <$> reverse (seq 11 50))).
Proof.
  split; [reflexivity|]. split; [reflexivity|].
  destruct history_cap as [Hstt Htts]. split.
  - destruct (Hstt (numbered_stt <$> seq 1 60) ∅) as (kept & -> & -> & _);
      reflexivity.
  - destruct (Htts (numbered_tts <$> seq 1 60) ∅) as (kept & -> & -> & _);
      reflexivity.
Defined.

(** *** Frame *)

(** C10.  [saveSTTHistory] changes no key but 'speechLab_stt_history',
    so the text-to-speech collection and every other key keep their
    value; [saveTTSHistory] changes no key but 'speechLab_tts_history'. *)
Theorem save_history_frame env t a v l d (ls : gmap string stored) :
  (∀ k, k ≠ stt_key → (saveSTTHistory env t a l d ls).1 !! k = ls !! k) ∧
  (saveSTTHistory env t a l d ls).1 !! tts_key = ls !! tts_key ∧
  (∀ k, k ≠ tts_key → (saveTTSHistory env t v l d ls).1 !! k = ls !! k) ∧
  (saveTTSHistory env t v l d ls).1 !! stt_key = ls !! stt_key.
Proof.
  assert (Hstt : ∀ k, k ≠ stt_key →
            (saveSTTHistory env t a l d ls).1 !! k = ls !! k).
  { intros k Hk. unfold saveSTTHistory.
    destruct (parse_history stt_key ls); cbn [fst]; [|done].
    by rewrite lookup_insert_ne. }
  assert (Htts : ∀ k, k ≠ tts_key →
            (saveTTSHistory env t v l d ls).1 !! k = ls !! k).
  { intros k Hk. unfold saveTTSHistory.
    destruct (parse_history tts_key ls); cbn [fst]; [|done].
    by rewrite lookup_insert_ne. }
  repeat split; [done | by apply Hstt | done | by apply Htts].
Qed.

Lemma save_history_frame_witness :
  let ls : gmap string stored :=
    <[tts_key := Arr [tts_item (numbered_tts 1)]]> {[ "sautiai-theme"%string := Raw "dark" ]} in
  (saveSTTHistory same_id_env "hello" (95 # 100) "en" 5 ls).1 !! "sautiai-theme"%string
    = Some (Raw "dark") ∧
  (saveSTTHistory same_id_env "hello" (95 # 100) "en" 5 ls).1 !! tts_key
    = Some (Arr [tts_item (numbered_tts 1)]) ∧
  (saveTTSHistory same_id_env "hello" "Rachel" "en" 5 ls).1 !! "sautiai-theme"%string
    = Some (Raw "dark").
Proof.
  intros ls.
  destruct (save_history_frame same_id_env "hello" (95 # 100) "Rachel" "en" 5 ls)
    as (Hstt & Hstt_tts & Htts & _).
  split; [|split].
  - rewrite Hstt by done. reflexivity.
  - rewrite Hstt_tts. reflexivity.
  - rewrite Htts by done. reflexivity.
Defined.

(** *** De-duplication *)

Section MapFacts.
Context {V : Type}.
Implicit Types (m : list (string * V)) (k : string) (v : V).

Lemma Map_set_keys k v m :
  (Map_set k v m).*1 = if decide (k ∈ m.*1) then m.*1 else m.*1 ++ [k].
Proof.
  induction m as [|[k' v'] m IH]; [done|].
  cbn [Map_set]. destruct (decide (k' = k)) as [->|Hne].
  - cbn. rewrite decide_True by left. done.
  - cbn [fmap list_fmap fst]. fold (m.*1). fold ((Map_set k v m).*1). rewrite IH.
    destruct (decide (k ∈ m.*1)) as [Hin|Hnin].
    + rewrite decide_True by (by right). done.
    + rewrite decide_False; [done|].
      intros [?|?]%elem_of_cons; congruence.
Qed.

Lemma Map_set_NoDup k v m : NoDup m.*1 → NoDup (Map_set k v m).*1.
Proof.
  intros Hm. rewrite Map_set_keys. case_decide; [done|].
  apply NoDup_app. repeat split; [done| |apply NoDup_singleton].
  intros x Hx ->%list_elem_of_singleton. done.
Qed.

Lemma elem_of_Map_set k v m k' v' :
  NoDup m.*1 →
  (k', v') ∈ Map_set k v m ↔ (k' = k ∧ v' = v) ∨ (k' ≠ k ∧ (k', v') ∈ m).
Proof.
  induction m as [|[k0 v0] m IH]; intros Hm.
  - cbn. rewrite list_elem_of_singleton. split.
    + intros [= -> ->]. by left.
    + intros [[-> ->]|[_ H]]; [done|]. by apply elem_of_nil in H.
  - apply NoDup_cons in Hm as [Hk0 Hm]. cbn [Map_set].
    destruct (decide (k0 = k)) as [->|Hne].
    + rewrite !elem_of_cons. split.
      * intros [[= -> ->]|Hin]; [by left|]. right. split; [|by right].
        intros ->. apply Hk0. apply list_elem_of_fmap. by exists (k, v').
      * intros [[-> ->]|[Hk' [[= -> _]|Hin]]]; [by left|done|by right].
    + rewrite !elem_of_cons, IH by done. split.
      * intros [[= -> ->]|[[-> ->]|[Hk' Hin]]].
        -- right. split; [done|by left].
        -- by left.
        -- right. split; [done|by right].
      * intros [[-> ->]|[Hk' [[= -> ->]|Hin]]].
        -- right. by left.
        -- by left.
        -- right. right. by split.
Qed.

End MapFacts.

Lemma new_Map_snoc {V} (entries : list (string * V)) kv :
  new_Map (entries ++ [kv]) = Map_set kv.1 kv.2 (new_Map entries).
Proof. unfold new_Map. by rewrite foldl_app. Qed.

Lemma last_with_id_snoc k items x :
  last_with_id k (items ++ [x])
  = if decide (id x = k) then Some x else last_with_id k items.
Proof.
  unfold last_with_id. rewrite filter_app, filter_cons, filter_nil.
  case_decide.
  - by rewrite last_snoc.
  - by rewrite app_nil_r.
Qed.

Lemma last_with_id_Some k items x :
  last_with_id k items = Some x → id x = k ∧ x ∈ items.
Proof.
  unfold last_with_id. intros H%last_Some_elem_of.
  apply list_elem_of_filter in H. naive_solver.
Qed.

Lemma last_with_id_is_Some k items :
  is_Some (last_with_id k items) ↔ k ∈ id <$> items.
Proof.
  unfold last_with_id. rewrite last_is_Some. split.
  - intros Hne. destruct (filter _ items) as [|x l] eqn:E; [done|].
    assert (x ∈ filter (λ item, id item = k) items) as Hx by (rewrite E; left).
    apply list_elem_of_filter in Hx as [<- Hx]. by apply list_elem_of_fmap_2.
  - intros (x & -> & Hx)%list_elem_of_fmap Hnil.
    assert (x ∈ filter (λ item, id item = id x) items) as Hin
      by (by apply list_elem_of_filter).
    rewrite Hnil in Hin. by apply elem_of_nil in Hin.
Qed.

(** The map built by the pass: one binding per id, bound to the entry
    that comes last in the array among those with that id. *)
Lemma new_Map_spec (items : list HistoryItem) :
  let m := new_Map ((λ item, (id item, item)) <$> items) in
  NoDup m.*1 ∧ ∀ k v, (k, v) ∈ m ↔ last_with_id k items = Some v.
Proof.
  induction items as [|x items IH] using rev_ind.
  - cbn. split; [constructor|]. intros k v. split; [|done].
    intros H. by apply elem_of_nil in H.
  - destruct IH as [Hnd IH]. rewrite fmap_app. cbn [fmap list_fmap].
    rewrite new_Map_snoc. cbn [fst snd]. split; [by apply Map_set_NoDup|].
    intros k v. rewrite elem_of_Map_set by done.
    rewrite last_with_id_snoc, IH. case_decide; intuition congruence.
Qed.

Lemma unique_spec (items : list HistoryItem) :
  NoDup (id <$> unique items) ∧
  (∀ k, k ∈ id <$> unique items ↔ k ∈ id <$> items) ∧
  (∀ item, item ∈ unique items → last_with_id (id item) items = Some item).
Proof.
  destruct (new_Map_spec items) as [Hnd Hm]. cbn zeta in *.
  unfold unique. set (m := new_Map _) in *.
  assert (Hid : ∀ kv, kv ∈ m → id kv.2 = kv.1).
  { intros [k v] Hkv. apply Hm in Hkv. by apply last_with_id_Some in Hkv as [? _]. }
  assert (Hkeys : id <$> m.*2 = m.*1).
  { rewrite <- list_fmap_compose. apply list_fmap_ext.
    intros i kv Hkv. apply Hid. by eapply list_elem_of_lookup_2. }
  rewrite Hkeys. split; [done|]. split.
  - intros k. rewrite <- last_with_id_is_Some. split.
    + intros ([k' v] & -> & Hkv)%list_elem_of_fmap. exists v. by apply Hm.
    + intros [v Hv]. apply Hm in Hv. apply list_elem_of_fmap. by exists (k, v).
  - intros item ([k v] & -> & Hkv)%list_elem_of_fmap.
    pose proof (Hid _ Hkv) as E. cbn [fst snd] in *. rewrite E. by apply Hm.
Qed.

(** C6, as the code has it.  When both collections parse, the pass
    leaves one entry per id in each of them, with the same ids as
    before; the entry kept for an id is the one that comes LAST in the
    stored array among those with that id. *)
Theorem cleanup_keeps_last (ls : gmap string stored) stt tts :
  parse_history stt_key ls = Some stt →
  parse_history tts_key ls = Some tts →
  ∃ stt' tts',
    parse_history stt_key (cleanupDuplicateHistory ls) = Some stt' ∧
    parse_history tts_key (cleanupDuplicateHistory ls) = Some tts' ∧
    NoDup (id <$> stt') ∧ NoDup (id <$> tts') ∧
    (∀ k, k ∈ id <$> stt' ↔ k ∈ id <$> stt) ∧
    (∀ k, k ∈ id <$> tts' ↔ k ∈ id <$> tts) ∧
    (∀ item, item ∈ stt' → last_with_id (id item) stt = Some item) ∧
    (∀ item, item ∈ tts' → last_with_id (id item) tts = Some item).
Proof.
  intros Hstt Htts. exists (unique stt), (unique tts).
  unfold cleanupDuplicateHistory. rewrite Hstt, Htts.
  rewrite parse_history_insert_ne by done.
  rewrite !parse_history_insert.
  destruct (unique_spec stt) as (Hn1 & Hk1 & Hl1).
  destruct (unique_spec tts) as (Hn2 & Hk2 & Hl2).
  repeat split; done || apply Hk1 || apply Hk2.
Qed.

Lemma cleanup_keeps_last_witness :
  let first := stt_item {| stt_env := same_id_env; stt_text := "first take";
                           stt_accuracy := 95 # 100; stt_language := "en";
                           stt_duration := 5 |} in
  let second := stt_item {| stt_env := same_id_env; stt_text := "second take";
                            stt_accuracy := 95 # 100; stt_language := "en";
                            stt_duration := 5 |} in
  parse_history stt_key twice_saved = Some [second; first] ∧
  parse_history tts_key twice_saved = Some [] ∧
  ∃ stt',
    parse_history stt_key (cleanupDuplicateHistory twice_saved) = Some stt' ∧
    NoDup (id <$> stt') ∧
    (∀ item, item ∈ stt' → last_with_id (id item) [second; first] = Some item) ∧
    stt' = [first].
Proof.
  intros first second. split; [reflexivity|]. split; [reflexivity|].
  destruct (cleanup_keeps_last twice_saved [second; first] [] eq_refl eq_refl)
    as (stt' & tts' & Hstt' & _ & Hnd & _ & _ & _ & Hlast & _).
  exists stt'. split; [exact Hstt'|]. split; [exact Hnd|]. split; [exact Hlast|].
  assert (Hrun : parse_history stt_key (cleanupDuplicateHistory twice_saved)
                 = Some [first]) by reflexivity.
  congruence.
Defined.

(** C6 as stated fails: after two appends with the same id the pass
    keeps "first take", the older entry, not the most recent one. *)
Lemma cleanup_drops_most_recent : ¬ retains_most_recent twice_saved.
Proof.
  intros H.
  specialize (H _ _ eq_refl eq_refl
    (stt_item {| stt_env := same_id_env; stt_text := "first take";
                 stt_accuracy := 95 # 100; stt_language := "en";
                 stt_duration := 5 |})).
  specialize (H ltac:(left)). discriminate H.
Qed.

End HistoryFacts.

(** ** Live transcription *)

Module LiveFacts.
Import History SpeechLab.

Lemma append_nil_r (s : string) : s +:+ "" = s.
Proof.
  induction s as [|c s IH]; [done|].
  change (String c (s +:+ "") = String c s). by rewrite IH.
Qed.

Lemma append_assoc (a b c : string) : (a +:+ b) +:+ c = a +:+ (b +:+ c).
Proof.
  induction a as [|x a IH]; [done|].
  change (String x ((a +:+ b) +:+ c) = String x (a +:+ (b +:+ c))). by rewrite IH.
Qed.

Lemma truthy_append (a b : string) :
  Str.truthy (a +:+ b) = Str.truthy a || Str.truthy b.
Proof. by destruct a. Qed.

Lemma collect_from (rs : list SpeechRecognitionResult) : ∀ a b,
  foldl (λ '(finalTranscript, interimTranscript) r,
           if isFinal r
           then (finalTranscript +:+ transcript r +:+ " ", interimTranscript)
           else (finalTranscript, interimTranscript +:+ transcript r))
        (a, b) rs
  = (a +:+ final_text rs, b +:+ interim_text rs).
Proof.
  induction rs as [|r rs IH]; intros a b; cbn [foldl final_text interim_text foldr].
  - by rewrite !append_nil_r.
  - destruct (isFinal r); rewrite IH; fold (final_text rs) (interim_text rs);
      by rewrite ?append_assoc.
Qed.

Lemma collect_spec event :
  collect event = (final_text (reported event), interim_text (reported event)).
Proof. unfold collect. by rewrite collect_from. Qed.

Lemma truthy_final_text rs : Str.truthy (final_text rs) = existsb isFinal rs.
Proof.
  induction rs as [|r rs IH]; [done|].
  cbn [final_text foldr existsb]. fold (final_text rs).
  destruct (isFinal r); [|done].
  rewrite !truthy_append. cbn. by rewrite orb_true_r.
Qed.

Lemma state_emit_if (b : bool) e w : state (if b then emit e w else w) = state w.
Proof. by destruct b. Qed.

(** An event without a final result: the interim text becomes the text
    of that event; the committed text stays; nothing is emitted. *)
Lemma onresult_interim render event w :
  existsb isFinal (reported event) = false →
  onresult render event w
  = update (setInterimTranscript (interim_text (reported event))) w.
Proof.
  intros H. unfold onresult. rewrite collect_spec, truthy_final_text, H. done.
Qed.

(** An event with a final result: the interim text is cleared and the
    trimmed final text is appended to the committed text. *)
Lemma onresult_final render event w :
  existsb isFinal (reported event) = true →
  state (onresult render event w)
  = setInterimTranscript ""
      (setLiveSessionText
         (liveSessionText (state w) +:+ " " +:+ Str.trim (final_text (reported event)))
         (setTranscribedText
            (transcribedText (state w) +:+ " " +:+ Str.trim (final_text (reported event)))
            (state w))).
Proof.
  intros H. unfold onresult. rewrite collect_spec, truthy_final_text, H.
  by rewrite state_emit_if.
Qed.

(** C3.  From a freshly started live session, the events interim "hel",
    interim "hello", final "hello world" leave the interim text "hel",
    then "hello", then empty, and the committed text then holds
    "hello world" exactly once.  In general an event without a final
    result replaces the interim text by its own text, and an event with
    a final result clears it. *)
Theorem live_session_ordering :
  (∀ render0 render w0 r rest,
     recognitions w0 = r :: rest → phase r = Idle →
     let w := startLiveTranscription render0 w0 in
     let ws := run render [interim "hel"; interim "hello"; final "hello world"] w in
     (λ w, interimTranscript (state w)) <$> ws = ["hel"; "hello"; ""]%string ∧
     ∃ w3, last ws = Some w3 ∧
           liveSessionText (state w3) = " hello world"%string ∧
           Str.occurrences "hello world" (liveSessionText (state w3)) = 1%nat) ∧
  (∀ render event w,
     existsb isFinal (reported event) = false →
     interimTranscript (state (onresult render event w))
       = interim_text (reported event) ∧
     liveSessionText (state (onresult render event w)) = liveSessionText (state w)) ∧
  (∀ render event w,
     existsb isFinal (reported event) = true →
     interimTranscript (state (onresult render event w)) = ""%string ∧
     liveSessionText (state (onresult render event w))
       = liveSessionText (state w) +:+ " " +:+ Str.trim (final_text (reported event))).
Proof.
  split; [|split].
  - intros render0 render w0 r rest Href Hidle w ws.
    assert (Hw : liveSessionText (state w) = ""%string).
    { unfold w, startLiveTranscription, recognition_start.
      by rewrite Href, Hidle. }
    set (e1 := {| resultIndex := 0%nat;
                  results := [ {| isFinal := false; transcript := "hel" |} ] |}).
    set (e2 := {| resultIndex := 0%nat;
                  results := [ {| isFinal := false; transcript := "hello" |} ] |}).
    set (e3 := {| resultIndex := 0%nat;
                  results := [ {| isFinal := true; transcript := "hello world" |} ] |}).
    assert (H1 : onresult render e1 w
                 = update (setInterimTranscript "hel") w)
      by (by apply onresult_interim).
    assert (H2 : ∀ w', onresult render e2 w'
                 = update (setInterimTranscript "hello") w')
      by (intros; by apply onresult_interim).
    assert (H3 : ∀ w', state (onresult render e3 w')
                 = setInterimTranscript ""
                     (setLiveSessionText (liveSessionText (state w') +:+ " hello world")
                        (setTranscribedText
                           (transcribedText (state w') +:+ " hello world") (state w'))))
      by (intros; by apply onresult_final).
    unfold ws. cbn [run deliver interim final fmap list_fmap last].
    fold e1 e2 e3. rewrite H3, H1, H2.
    cbn [state update interimTranscript setInterimTranscript liveSessionText
         setLiveSessionText setTranscribedText].
    split; [reflexivity|]. eexists. split; [reflexivity|].
    rewrite H3.
    cbn [state update interimTranscript setInterimTranscript liveSessionText
         setLiveSessionText setTranscribedText].
    rewrite Hw. split; reflexivity.
  - intros render event w H. by rewrite onresult_interim.
  - intros render event w H. by rewrite onresult_final.
Qed.

Lemma live_session_ordering_witness :
  let ws := run initial_state [interim "hel"; interim "hello"; final "hello world"]
              (startLiveTranscription initial_state initial_world) in
  phase <$> recognitions initial_world = [Idle] ∧
  (λ w, interimTranscript (state w)) <$> ws = ["hel"; "hello"; ""]%string ∧
  (liveSessionText ∘ state) <$> last ws = Some " hello world"%string.
Proof.
  intros ws. split; [reflexivity|].
  destruct live_session_ordering as (Hrun & _ & _).
  destruct (Hrun initial_state initial_state initial_world _ _ eq_refl eq_refl)
    as (Hinterim & w3 & Hlast & Htext & _).
  split; [exact Hinterim|].
  unfold ws. rewrite Hlast. cbn. by rewrite Htext.
Defined.

(** The handlers taken alone: [onend] restarts exactly when the render
    it closes over had the live flag set, and never touches the state;
    [onerror] clears the flag and starts nothing. *)
Lemma onend_stale render w : isLiveTranscribing render = false → onend render w = w.
Proof. intros H. unfold onend. by rewrite H. Qed.

Lemma onend_state render w : state (onend render w) = state w.
Proof.
  unfold onend, recognition_start. repeat case_match; simplify_eq; done.
Qed.

Lemma onerror_stops render w :
  isLiveTranscribing (state (onerror render w)) = false ∧
  liveSessionText (state (onerror render w)) = liveSessionText (state w) ∧
  trace (onerror render w) = trace w ++ [ConsoleError] ∧
  recognitions (onerror render w) = recognitions w.
Proof. done. Qed.

Lemma deps_changed s s' :
  isLiveTranscribing s ≠ isLiveTranscribing s' → deps s ≠ deps s'.
Proof. unfold deps. congruence. Qed.

(** C4: what the code does when the stream of a live session ends.
    The session is started from a render whose live flag is false, so
    the recognition object that gets started carries handlers that see
    the flag false.  Its end event, whether it comes before the next
    render or after it (when the effect has stopped that object and put a
    new, never started object in the ref), restarts nothing: the flag
    stays true, the committed text is untouched, and no recognition
    object is listening any more.  An error event clears the flag and
    starts nothing. *)
Theorem live_session_end_not_restarted (s : State) (ls : gmap string stored) :
  isLiveTranscribing s = false →
  let w0 := mount true s ls in
  let w1 := startLiveTranscription (state w0) w0 in
  let w2 := commit true (state w0) w1 in
  (isLiveTranscribing (state w1) = true ∧
   phase <$> recognitions w1 = [Listening] ∧
   trace w1 = [RecognitionStart]) ∧
  (isLiveTranscribing (state (fire 0 End w1)) = true ∧
   liveSessionText (state (fire 0 End w1)) = liveSessionText (state w1) ∧
   phase <$> recognitions (fire 0 End w1) = [Idle] ∧
   trace (fire 0 End w1) = trace w1) ∧
  (isLiveTranscribing (state w2) = true ∧
   phase <$> recognitions w2 = [Idle; Stopping] ∧
   isLiveTranscribing (state (fire 1 End w2)) = true ∧
   liveSessionText (state (fire 1 End w2)) = liveSessionText (state w2) ∧
   phase <$> recognitions (fire 1 End w2) = [Idle; Idle] ∧
   trace (fire 1 End w2) = trace w2) ∧
  (isLiveTranscribing (state (fire 0 Error w1)) = false ∧
   trace (fire 0 Error w1) = trace w1 ++ [ConsoleError]).
Proof.
  intros Hidle w0 w1 w2.
  assert (Hw1 : w1 = update (setLiveSessionText "")
                       (update (setInterimTranscript "")
                          (update (setTranscribedText "")
                             (update (setIsLiveTranscribing true)
                                (emit RecognitionStart
                                   (set_recognitions
                                      [ {| closure := s; phase := Listening |} ]
                                      w0)))))) by reflexivity.
  assert (Hw2 : w2 = recognition_effect true (recognition_cleanup w1)).
  { unfold w2, commit. rewrite bool_decide_eq_false_2; [done|].
    apply deps_changed. rewrite Hw1. cbn. rewrite Hidle. done. }
  split; [by rewrite Hw1|].
  split.
  { rewrite Hw1. unfold fire. cbn [recognitions update emit set_recognitions
      lookup list_lookup phase closure deliver].
    rewrite onend_stale by done. done. }
  split; [|by rewrite Hw1].
  rewrite Hw2, Hw1. unfold fire.
  cbn [recognition_effect recognition_cleanup recognition_stop recognitions update
       emit set_recognitions set_phase state lookup list_lookup phase closure deliver].
  rewrite onend_stale by done. done.
Qed.

Lemma live_session_end_not_restarted_witness :
  let w1 := startLiveTranscription initial_state initial_world in
  let w2 := commit true initial_state w1 in
  isLiveTranscribing initial_state = false ∧
  isLiveTranscribing (state (fire 1 End w2)) = true ∧
  phase <$> recognitions (fire 1 End w2) = [Idle; Idle] ∧
  trace (fire 1 End w2) = [RecognitionStart; RecognitionStop].
Proof.
  intros w1 w2. split; [reflexivity|].
  destruct (live_session_end_not_restarted initial_state ∅ eq_refl)
    as (_ & _ & (_ & _ & Hlive & _ & Hphase & Htrace) & _).
  split; [exact Hlive|]. split; [exact Hphase|].
  etrans; [exact Htrace | reflexivity].
Defined.

(** *** No reachable world restarts

    The same holds along every run of the component, not only right
    after the first start. *)

Lemma commit_sound prev w :
  started_are_stale (recognitions w) →
  ref_sees (isLiveTranscribing prev) (recognitions w) →
  started_are_stale (recognitions (commit true prev w)) ∧
  ref_sees (isLiveTranscribing (state (commit true prev w)))
    (recognitions (commit true prev w)).
Proof.
  intros Hstale Href. unfold commit. case_bool_decide as Hdeps.
  - split; [done|]. unfold deps in Hdeps. by injection Hdeps as _ <- _.
  - unfold recognition_effect, recognition_cleanup, recognition_stop.
    destruct (recognitions w) as [|r0 rest] eqn:E.
    { rewrite E. split.
      - intros r ->%list_elem_of_singleton Hphase. done.
      - by intros r rest [= <- _]. }
    destruct (phase r0) eqn:E0; cbn; rewrite ?E;
      (split; [|by intros r rest' [= <- _]]).
    + intros r [->|Hr]%elem_of_cons Hphase; [done | by apply Hstale].
    + intros r [->|[->|Hr]%elem_of_cons]%elem_of_cons Hphase; [done| |].
      * apply (Hstale r0); [left | congruence].
      * apply Hstale; [by right | done].
    + intros r [->|Hr]%elem_of_cons Hphase; [done | by apply Hstale].
Qed.

Lemma startLiveTranscription_sound w :
  isLiveTranscribing (state w) = false →
  started_are_stale (recognitions w) →
  ref_sees (isLiveTranscribing (state w)) (recognitions w) →
  started_are_stale (recognitions (startLiveTranscription (state w) w)) ∧
  ref_sees (isLiveTranscribing (state w))
    (recognitions (startLiveTranscription (state w) w)).
Proof.
  intros Hlive Hstale Href. unfold startLiveTranscription, recognition_start.
  destruct (recognitions w) as [|r rest] eqn:E; [cbn; by rewrite E|].
  destruct (phase r) eqn:Er; cbn; rewrite ?E; try done.
  pose proof (Href r rest eq_refl) as Hr. split.
  - intros r' [->|Hr']%elem_of_cons Hphase; [cbn; congruence|].
    apply Hstale; [by right | done].
  - by intros r' rest' [= <- _].
Qed.

Lemma stopLiveTranscription_sound w :
  started_are_stale (recognitions w) →
  ref_sees (isLiveTranscribing (state w)) (recognitions w) →
  started_are_stale (recognitions (stopLiveTranscription (state w) w)) ∧
  ref_sees (isLiveTranscribing (state w))
    (recognitions (stopLiveTranscription (state w) w)).
Proof.
  intros Hstale Href. unfold stopLiveTranscription, recognition_stop.
  destruct (recognitions w) as [|r rest] eqn:E; [cbn; by rewrite E|].
  pose proof (Href r rest eq_refl) as Hr.
  destruct (phase r) eqn:Er; cbn; rewrite ?E; try done. split.
  - intros r' [->|Hr']%elem_of_cons Hphase.
    + apply (Hstale r); [left | congruence].
    + apply Hstale; [by right | done].
  - by intros r' rest' [= <- _].
Qed.

Lemma recognitions_onresult render event w :
  recognitions (onresult render event w) = recognitions w.
Proof. unfold onresult. by repeat case_match. Qed.

Lemma fire_sound i ev w :
  started_are_stale (recognitions w) →
  ref_sees (isLiveTranscribing (state w)) (recognitions w) →
  started_are_stale (recognitions (fire i ev w)) ∧
  ref_sees (isLiveTranscribing (state w)) (recognitions (fire i ev w)).
Proof.
  intros Hstale Href. unfold fire.
  destruct (recognitions w !! i) as [r|] eqn:Ei; [|done].
  destruct (phase r) eqn:Er; [done|..];
    (assert (Hr : isLiveTranscribing (closure r) = false)
       by (apply Hstale; [by eapply list_elem_of_lookup_2 | congruence]));
    destruct ev as [event| |]; cbn [deliver];
    rewrite ?recognitions_onresult, ?onend_stale by done; try done.
  all: cbn [recognitions set_recognitions]; split.
  all: try (intros r' Hr' Hphase;
            apply list_elem_of_lookup in Hr' as [j Hj];
            destruct (decide (i = j)) as [<-|Hne];
            [ rewrite list_lookup_insert_eq in Hj
                by (by eapply lookup_lt_Some);
              by injection Hj as <-
            | rewrite list_lookup_insert_ne in Hj by done;
              apply Hstale; [by eapply list_elem_of_lookup_2 | done] ]).
  all: intros r' rest' Hcons;
       destruct (recognitions w) as [|r0 rest0] eqn:E; [done|];
       destruct i as [|i]; cbn in Hcons, Ei;
       [ injection Ei as ->; injection Hcons as <- _; by apply (Href r rest0)
       | injection Hcons as <- _; by apply (Href r0 rest0) ].
Qed.

(** The invariant of the runs. *)
Lemma reachable_sound w :
  reachable w →
  started_are_stale (recognitions w) ∧
  ref_sees (isLiveTranscribing (state w)) (recognitions w).
Proof.
  induction 1 as [s ls Hs|w w' _ [Hstale Href] Hstep].
  - cbn. split.
    + intros r ->%list_elem_of_singleton Hphase. done.
    + by intros r rest [= <- _].
  - destruct Hstep as [w Hlive|w Hlive|w i ev|w w' Hflag Hrec].
    + by apply commit_sound; apply startLiveTranscription_sound.
    + by apply commit_sound; apply stopLiveTranscription_sound.
    + by apply commit_sound; apply fire_sound.
    + apply commit_sound; by rewrite Hrec.
Qed.

(** In no reachable world does the end of a stream restart anything:
    the end event of any recognition object leaves state and trace as
    they are. *)
Lemma reachable_end_restarts_nothing w i :
  reachable w →
  state (fire i End w) = state w ∧ trace (fire i End w) = trace w.
Proof.
  intros [Hstale _]%reachable_sound. unfold fire.
  destruct (recognitions w !! i) as [r|] eqn:Ei; [|done].
  destruct (phase r) eqn:Er; [done|..]; cbn [deliver];
    rewrite onend_stale; try done;
    apply Hstale; (by eapply list_elem_of_lookup_2) || congruence.
Qed.

End LiveFacts.

(** ** Recording, upload and synthesis *)

Module SpeechLabFacts.
Import History SpeechLab HistoryFacts.

Lemma random_index_bound (random : Q) :
  (0 <= random)%Q → (random < 1)%Q →
  (Z.to_nat (Qfloor (random * inject_Z (Z.of_nat (length sampleTexts)))) < 4)%nat.
Proof.
  intros H0 H1. change (inject_Z (Z.of_nat (length sampleTexts))) with 4%Q.
  assert (0 ≤ Qfloor (random * 4)).
  { change 0 with (Qfloor 0). apply Qfloor_resp_le. lra. }
  assert (Qfloor (random * 4) < 4).
  { destruct (decide (Qfloor (random * 4) < 4)) as [|Hge]; [done|].
    pose proof (Qfloor_le (random * 4)) as Hle.
    assert (inject_Z 4 <= inject_Z (Qfloor (random * 4)))%Q as Hinj
      by (rewrite <- Zle_Qle; lia).
    change (inject_Z 4) with 4%Q in Hinj. lra. }
  lia.
Qed.

(** The placeholder is one of the four sample sentences. *)
Lemma simulateBrowserTranscription_sample (random : Q) :
  (0 <= random)%Q → (random < 1)%Q →
  simulateBrowserTranscription random ∈ sampleTexts ∧
  simulateBrowserTranscription random ≠ ""%string.
Proof.
  intros H0 H1. pose proof (random_index_bound random H0 H1) as Hi.
  unfold simulateBrowserTranscription.
  set (i := Z.to_nat _) in *. clearbody i.
  do 4 (destruct i as [|i]; [cbn; split; [set_solver | done]|]). lia.
Qed.

Lemma localStorage_update f w : localStorage (update f w) = localStorage w.
Proof. done. Qed.

Lemma localStorage_emit e w : localStorage (emit e w) = localStorage w.
Proof. done. Qed.

Lemma transcribedText_loadHistory w :
  transcribedText (state (loadHistory w)) = transcribedText (state w).
Proof. unfold loadHistory. by repeat case_match. Qed.

Lemma localStorage_loadHistory w : localStorage (loadHistory w) = localStorage w.
Proof. unfold loadHistory. by repeat case_match. Qed.

(** C7.  After a recording that captured data, when the transcription
    request fails the stop handler still ends normally, shows one of the
    placeholder sentences (not empty) and puts exactly one new
    speech-to-text entry in front of the stored history, with accuracy
    0.85; a successful request records 0.95, which is higher. *)
Theorem transcription_failure_fallback (render : State) (random : Q)
  (env env' : Env) (w : World) (existing : list HistoryItem) :
  backendConnected render = true →
  (0 < length (audioChunksRef (state w)))%nat →
  (0 <= random)%Q → (random < 1)%Q →
  parse_history stt_key (localStorage w) = Some existing →
  (∃ w' entry,
     onstop render None random env env' w = (w', false) ∧
     transcribedText (state w') ∈ sampleTexts ∧
     transcribedText (state w') ≠ ""%string ∧
     parse_history stt_key (localStorage w') = Some (entry :: take 49 existing) ∧
     id entry = fresh_id env ∧
     content entry = transcribedText (state w') ∧
     type entry = "stt"%string ∧
     accuracy entry = Some (85 # 100)%Q) ∧
  (∀ text, ∃ w' entry,
     onstop render (Some text) random env env' w = (w', false) ∧
     parse_history stt_key (localStorage w') = Some (entry :: take 49 existing) ∧
     content entry = text ∧
     accuracy entry = Some (95 # 100)%Q) ∧
  (85 # 100 < 95 # 100)%Q.
Proof.
  intros Hback Hchunks H0 H1 Hparse.
  destruct (simulateBrowserTranscription_sample random H0 H1) as [Hin Hne].
  split; [|split; [|done]].
  - unfold onstop. rewrite bool_decide_eq_true_2 by done. rewrite Hback.
    cbn [transcribeWithWhisper].
    set (t := simulateBrowserTranscription random) in *.
    unfold saveSTTHistory.
    repeat (rewrite localStorage_update || rewrite localStorage_emit). rewrite Hparse.
    eexists _, _. split; [reflexivity|].
    cbn [state update emit transcribedText setIsLoading].
    rewrite transcribedText_loadHistory.
    cbn [localStorage update emit]. rewrite localStorage_loadHistory.
    cbn [localStorage set_localStorage state update emit transcribedText
         setTranscribedText].
    rewrite parse_history_insert. done.
  - intros text. unfold onstop. rewrite bool_decide_eq_true_2 by done. rewrite Hback.
    cbn [transcribeWithWhisper].
    unfold saveSTTHistory.
    repeat (rewrite localStorage_update || rewrite localStorage_emit). rewrite Hparse.
    eexists _, _. split; [reflexivity|].
    cbn [localStorage update emit]. rewrite localStorage_loadHistory.
    cbn [localStorage set_localStorage].
    rewrite parse_history_insert. done.
Qed.

Lemma transcription_failure_fallback_witness :
  let w := update (set_audioChunksRef [2048]) initial_world in
  backendConnected initial_state = true ∧
  (0 < length (audioChunksRef (state w)))%nat ∧
  (0 <= 1 # 2)%Q ∧ (1 # 2 < 1)%Q ∧
  parse_history stt_key (localStorage w) = Some [] ∧
  ∃ w' entry,
    onstop initial_state None (1 # 2) sample_env sample_env' w = (w', false) ∧
    transcribedText (state w')
      = "The audio processing is complete and here is your transcribed text."%string ∧
    parse_history stt_key (localStorage w') = Some [entry] ∧
    accuracy entry = Some (85 # 100)%Q.
Proof.
  intros w.
  assert (Hlen : (0 < length (audioChunksRef (state w)))%nat) by (cbn; lia).
  assert (H0 : (0 <= 1 # 2)%Q) by done.
  assert (H1 : (1 # 2 < 1)%Q) by done.
  repeat (split; [done|]).
  destruct (transcription_failure_fallback initial_state (1 # 2) sample_env
              sample_env' w [] eq_refl Hlen H0 H1 eq_refl)
    as ((w' & entry & Hrun & _ & _ & Hstored & _ & _ & _ & Hacc) & _ & _).
  exists w', entry. split; [exact Hrun|].
  split; [|split; [exact Hstored | exact Hacc]].
  by injection Hrun as <-.
Defined.

Lemma drop_spaces_all (l : list Ascii.ascii) :
  forallb Str.is_space l = true → Str.drop_spaces l = [].
Proof.
  induction l as [|c l IH]; [done|]. cbn [forallb Str.drop_spaces].
  intros [Hc Hl]%andb_true_iff. rewrite Hc. by apply IH.
Qed.

Lemma trim_whitespace_only (s : string) :
  Str.whitespace_only s = true → Str.trim s = ""%string.
Proof. intros H. unfold Str.trim. by rewrite (drop_spaces_all _ H). Qed.

(** C8.  A selected file larger than 100MB is refused with an alert: no
    request is issued, storage and state stay as they were.  A synthesis
    text that is empty or white space only is refused the same way. *)
Theorem validation_before_network (render : State) (w : World) :
  (∀ file response random env env',
     100 * 1024 * 1024 < size file →
     ∃ w' message,
       handleAudioUpload render (Some file) response random env env' w = (w', false) ∧
       trace w' = trace w ++ [Alert message; ClearFileInput] ∧
       existsb is_fetch (drop (length (trace w)) (trace w')) = false ∧
       localStorage w' = localStorage w ∧
       state w' = state w) ∧
  (∀ customText remote_ok local_ok env,
     Str.whitespace_only (or_else customText (text render)) = true →
     ∃ message,
       let w' := handleTextToSpeech render customText remote_ok local_ok env w in
       trace w' = trace w ++ [Alert message] ∧
       existsb is_fetch (drop (length (trace w)) (trace w')) = false ∧
       localStorage w' = localStorage w ∧
       state w' = state w).
Proof.
  split.
  - intros file response random env env' Hsize. unfold handleAudioUpload.
    apply Z.ltb_lt in Hsize. rewrite Hsize.
    eexists _, _. split; [reflexivity|].
    cbn [trace emit localStorage state]. rewrite <- app_assoc.
    split; [reflexivity|]. rewrite drop_app_length. done.
  - intros customText remote_ok local_ok env Hws. unfold handleTextToSpeech.
    rewrite (trim_whitespace_only _ Hws). cbn [Str.truthy negb].
    eexists. cbn [trace emit localStorage state].
    split; [reflexivity|]. rewrite drop_app_length. done.
Qed.

(** The text of the witness is a tab, a no-break space and a space. *)
Lemma validation_before_network_witness :
  let big := {| size := 100 * 1024 * 1024 + 1; file_type := "audio/wav"; name := "talk.wav" |} in
  let blank := String (Ascii.ascii_of_nat 9) (String (Ascii.ascii_of_nat 160) " ") in
  100 * 1024 * 1024 < size big ∧
  Str.whitespace_only (or_else (Some blank) (text initial_state)) = true ∧
  trace (handleAudioUpload initial_state (Some big) (Some "hi"%string) (1 # 2)
           sample_env sample_env' initial_world).1
  = [Alert "File too large. Please select a file smaller than 100MB."; ClearFileInput] ∧
  trace (handleTextToSpeech initial_state (Some blank) true Finishes sample_env
           initial_world)
  = [Alert "Please enter some text to convert to speech."].
Proof.
  intros big blank.
  assert (Hbig : 100 * 1024 * 1024 < size big) by (cbn; lia).
  split; [exact Hbig|]. split; [reflexivity|].
  destruct (validation_before_network initial_state initial_world) as [Hup Htts].
  destruct (Hup big (Some "hi"%string) (1 # 2)%Q sample_env sample_env' Hbig)
    as (w' & message & Hrun & Htrace & _).
  destruct (Htts (Some blank) true Finishes sample_env eq_refl)
    as (message' & Htrace' & _).
  split; reflexivity.
Defined.

(** C9: what the auto-stop timer does.  The record button starts a
    recording only in a render whose [isRecording] is false, and the
    timer's callback tests that render's [isRecording]; so when the timer
    fires, after 30 s here and after 10 s in the voice personalizer, it
    changes nothing, whatever the state then is: a recording that is still
    running is not stopped. *)
Theorem auto_stop_timer_does_nothing :
  (∀ granted w0 w1 timer,
     isRecording (state w0) = false →
     record_button granted w0 = (w1, Some timer) →
     delay timer = 30000 ∧ isRecording (state w1) = true ∧
     ∀ w, callback timer w = w) ∧
  (∀ granted w0 w1 timer,
     VoicePersonalizer.isRecording (VoicePersonalizer.state w0) = false →
     VoicePersonalizer.record_button granted w0 = (w1, Some timer) →
     VoicePersonalizer.delay timer = 10000 ∧
     VoicePersonalizer.isRecording (VoicePersonalizer.state w1) = true ∧
     ∀ w, VoicePersonalizer.callback timer w = w).
Proof.
  split.
  - intros granted w0 w1 timer Hidle. unfold record_button, startRecording.
    rewrite Hidle. destruct granted; [|done].
    intros [= <- <-]. cbn [delay callback]. done.
  - intros granted w0 w1 timer Hidle.
    unfold VoicePersonalizer.record_button, VoicePersonalizer.startRecording.
    rewrite Hidle. destruct granted; [done|].
    intros [= <- <-]. cbn [VoicePersonalizer.delay VoicePersonalizer.callback].
    done.
Qed.

(** On the initial screen: the recording started by the button is still
    running when the timer fires, the timer leaves it running, and the
    stop button of that moment would have stopped it. *)
Lemma auto_stop_timer_does_nothing_witness :
  isRecording (state initial_world) = false ∧
  ∃ w1 timer,
    record_button true initial_world = (w1, Some timer) ∧
    isRecording (state w1) = true ∧
    isRecording (state (callback timer w1)) = true ∧
    trace (callback timer w1) = trace w1 ∧
    isRecording (state (stopRecording (state w1) w1)) = false ∧
    trace (stopRecording (state w1) w1) = trace w1 ++ [MediaRecorderStop].
Proof.
  split; [reflexivity|].
  destruct auto_stop_timer_does_nothing as [Hlab _].
  eexists _, _. split; [reflexivity|].
  destruct (Hlab true initial_world _ _ eq_refl eq_refl) as (_ & Hrec & Hcb).
  split; [exact Hrec|]. rewrite Hcb.
  split; [exact Hrec|]. split; [reflexivity|]. split; reflexivity.
Defined.

End SpeechLabFacts.

(** ** More on the WAV encoder *)

Module WavMore.
Import Num DataView Wav WavLayout DataViewFacts WavFacts SpeechLabRest.

(** The header is written whatever the samples are; what can fail is
    the sample loop. *)
Lemma encodeWAV_header_first (audioBuffer : AudioBuffer) :
  encodeWAV audioBuffer
  = for_each (seq 0 (ab_length audioBuffer))
      (λ i st, for_each (seq 0 (numberOfChannels audioBuffer))
                 (write_sample audioBuffer i) st)
      (header_bytes audioBuffer ++ replicate (dataSize audioBuffer) 0, 44%nat)
    ≫= λ st, Some st.1.
Proof.
  unfold encodeWAV, ArrayBuffer.
  change (16 / 8)%nat with 2%nat.
  fold (dataSize audioBuffer).
  set (d := dataSize audioBuffer).
  change (replicate (44 + d) 0)
    with ([] ++ replicate (String.length "RIFF" + (40 + d)) 0).
  rewrite writeString_append by done. cbn [mbind option_bind].
  change (40 + d)%nat with (4 + (36 + d))%nat.
  rewrite setUint32_append by done. cbn [mbind option_bind].
  change (36 + d)%nat with (String.length "WAVE" + (32 + d))%nat at 2.
  rewrite writeString_append by done. cbn [mbind option_bind].
  change (32 + d)%nat with (String.length "fmt " + (28 + d))%nat.
  rewrite writeString_append by done. cbn [mbind option_bind].
  change (28 + d)%nat with (4 + (24 + d))%nat.
  rewrite setUint32_append by done. cbn [mbind option_bind].
  change (24 + d)%nat with (2 + (22 + d))%nat.
  rewrite setUint16_append by done. cbn [mbind option_bind].
  change (22 + d)%nat with (2 + (20 + d))%nat.
  rewrite setUint16_append by done. cbn [mbind option_bind].
  change (20 + d)%nat with (4 + (16 + d))%nat.
  rewrite setUint32_append by done. cbn [mbind option_bind].
  change (16 + d)%nat with (4 + (12 + d))%nat.
  rewrite setUint32_append by done. cbn [mbind option_bind].
  change (12 + d)%nat with (2 + (10 + d))%nat.
  rewrite setUint16_append by done. cbn [mbind option_bind].
  change (10 + d)%nat with (2 + (8 + d))%nat.
  rewrite setUint16_append by done. cbn [mbind option_bind].
  change (8 + d)%nat with (String.length "data" + (4 + d))%nat.
  rewrite writeString_append by done. cbn [mbind option_bind].
  rewrite setUint32_append by done. cbn [mbind option_bind].
  match goal with
  | |- for_each _ _ ?st ≫= _ = for_each _ _ ?st' ≫= _ =>
      replace st with st' by (unfold header_bytes; by rewrite <- ?app_assoc)
  end.
  destruct (for_each _ _ _) as [[view offset]|]; done.
Qed.

Lemma for_each_throws {A S} (xs : list A) (body : A → S → option S) x s :
  x ∈ xs → (∀ s', body x s' = None) → for_each xs body s = None.
Proof.
  intros Hx Hbody. revert s. induction xs as [|y xs IH]; intros s.
  - by apply elem_of_nil in Hx.
  - cbn [for_each]. apply elem_of_cons in Hx as [<-|Hx].
    + by rewrite Hbody.
    + destruct (body y s); cbn; [by apply IH | done].
Qed.

(** The chunk sizes of the header agree with the file: the RIFF size is
    the file length less 8, the fmt chunk has 16 bytes and the data
    size is the file length less 44. *)
Theorem encodeWAV_chunk_sizes (audioBuffer : AudioBuffer) :
  length (channelData audioBuffer) = numberOfChannels audioBuffer →
  Z.of_nat (36 + dataSize audioBuffer) < 2 ^ 32 →
  ∃ wav, encodeWAV audioBuffer = Some wav ∧
    getUint32 4 wav = Some (Z.of_nat (length wav) - 8) ∧
    getUint32 16 wav = Some 16 ∧
    getUint32 40 wav = Some (Z.of_nat (length wav) - 44).
Proof.
  intros Hch Hsize. exists (wav_bytes audioBuffer).
  split; [by apply encodeWAV_layout|].
  assert (Hlen : length (wav_bytes audioBuffer) = (44 + dataSize audioBuffer)%nat).
  { unfold wav_bytes.
    by rewrite length_app, length_header_bytes, length_data_bytes. }
  rewrite Hlen.
  assert (Hfield : ∀ off v v',
    getBytes off 4 (wav_bytes audioBuffer) = Some (le_bytes 4 v) →
    0 ≤ v < 2 ^ 32 → v' = v →
    getUint32 off (wav_bytes audioBuffer) = Some v').
  { intros off v v' Hget Hv ->. unfold getUint32. rewrite Hget.
    cbn [fmap option_fmap option_map]. f_equal.
    by apply (le_value_le_bytes_small 4). }
  change (2 ^ 32) with 4294967296 in *.
  split; [|split].
  - apply (Hfield _ (Z.of_nat (36 + dataSize audioBuffer))); [|lia..].
    unfold wav_bytes, header_bytes; rewrite <- ?app_assoc; read_segment.
  - apply (Hfield _ 16); [|lia..].
    unfold wav_bytes, header_bytes; rewrite <- ?app_assoc; read_segment.
  - apply (Hfield _ (Z.of_nat (dataSize audioBuffer))); [|lia..].
    unfold wav_bytes, header_bytes; rewrite <- ?app_assoc; read_segment.
Qed.

Lemma encodeWAV_chunk_sizes_witness :
  length (channelData demo_buffer) = numberOfChannels demo_buffer ∧
  Z.of_nat (36 + dataSize demo_buffer) < 2 ^ 32 ∧
  ∃ wav, encodeWAV demo_buffer = Some wav ∧
    getUint32 4 wav = Some 48 ∧ getUint32 40 wav = Some 12.
Proof.
  assert (H1 : length (channelData demo_buffer) = numberOfChannels demo_buffer)
    by reflexivity.
  assert (H2 : Z.of_nat (36 + dataSize demo_buffer) < 2 ^ 32) by (cbn; lia).
  split; [exact H1|]. split; [exact H2|].
  destruct (encodeWAV_chunk_sizes demo_buffer H1 H2)
    as (wav & Hwav & Hriff & _ & Hdata).
  exists wav. split; [exact Hwav|].
  assert (Hlen : length wav = 56%nat)
    by (vm_compute in Hwav; by injection Hwav as <-).
  rewrite Hlen in Hriff, Hdata. split; assumption.
Defined.



Lemma flat_map_bytes {A} (f : A → list Z) xs :
  (∀ x, Forall (λ b, 0 ≤ b < 256) (f x)) →
  Forall (λ b, 0 ≤ b < 256) (flat_map f xs).
Proof.
  intros Hf. induction xs as [|x xs IH]; cbn; [constructor|].
  apply Forall_app. by split.
Qed.





(** *** Order *)

Lemma Qtruncate_mono p q : (p <= q)%Q → Qtruncate p ≤ Qtruncate q.
Proof.
  destruct p as [a b], q as [c d]. unfold Qle, Qtruncate. cbn. intros H.
  rewrite <- (Z.quot_mul_cancel_r a (Zpos b) (Zpos d)) by lia.
  rewrite <- (Z.quot_mul_cancel_l c (Zpos d) (Zpos b)) by lia.
  rewrite (Z.mul_comm (Zpos b) c). apply Z.quot_le_mono; lia.
Qed.

Lemma quantize_range x : - 0x8000 ≤ quantize x ≤ 0x7FFF.
Proof. unfold quantize. pose proof (ToInt16_range (scale (clamp x))). lia. Qed.

(** Quantisation keeps the order of the samples: a larger sample never
    gets a smaller 16-bit value, across the clamp and across the change
    of scale at zero; nothing wraps around. *)
Theorem quantize_monotone (p q : Q) :
  (p <= q)%Q → quantize (Fin p) ≤ quantize (Fin q).
Proof.
  intros Hpq.
  destruct (Qlt_le_dec q 1) as [Hq1|Hq1];
    [|rewrite (quantize_above q Hq1); apply quantize_range].
  destruct (Qlt_le_dec (-1) p) as [Hp1|Hp1];
    [|rewrite (quantize_below p Hp1); apply quantize_range].
  destruct (Qlt_le_dec p 0) as [Hp0|Hp0].
  - rewrite (quantize_negative p) by lra.
    destruct (Qlt_le_dec q 0) as [Hq0|Hq0].
    + rewrite (quantize_negative q) by lra. apply Qtruncate_mono.
      change (inject_Z 32768) with 32768%Q. lra.
    + rewrite (quantize_nonnegative q) by lra.
      trans 0.
      * apply Qtruncate_upper. change (inject_Z 32768) with 32768%Q.
        change (inject_Z 0) with 0%Q. lra.
      * apply Qtruncate_lower. change (inject_Z 32767) with 32767%Q.
        change (inject_Z 0) with 0%Q. lra.
  - rewrite (quantize_nonnegative p), (quantize_nonnegative q) by lra.
    apply Qtruncate_mono. change (inject_Z 32767) with 32767%Q. lra.
Qed.

Lemma quantize_monotone_witness :
  (-(1 # 3) <= 1 # 4)%Q ∧ quantize (Fin (-(1 # 3))) ≤ quantize (Fin (1 # 4)).
Proof.
  assert (H : (-(1 # 3) <= 1 # 4)%Q) by done.
  split; [exact H | exact (quantize_monotone _ _ H)].
Defined.

(** *** Failure and the empty buffer *)

(** A buffer with no frame encodes to the bare 44-byte header, with
    both size fields saying so, whatever its channel data. *)
Theorem encodeWAV_no_frames (audioBuffer : AudioBuffer) :
  ab_length audioBuffer = 0%nat →
  ∃ wav, encodeWAV audioBuffer = Some wav ∧
    length wav = 44%nat ∧
    getUint32 4 wav = Some 36 ∧
    getUint32 40 wav = Some 0.
Proof.
  intros HN. exists (header_bytes audioBuffer).
  rewrite encodeWAV_header_first. unfold dataSize, header_bytes. rewrite HN.
  cbn [seq for_each mbind option_bind fst Nat.mul replicate].
  rewrite app_nil_r. split; [unfold dataSize; by rewrite HN|].
  split; [reflexivity|]. unfold dataSize. rewrite HN. split; reflexivity.
Qed.

Lemma encodeWAV_no_frames_witness :
  let silent := {| numberOfChannels := 2; sampleRate := 44100; ab_length := 0;
                   channelData := [] |} in
  ab_length silent = 0%nat ∧
  (length <$> encodeWAV silent) = Some 44%nat.
Proof.
  intros silent. split; [reflexivity|].
  destruct (encodeWAV_no_frames silent eq_refl) as (wav & -> & Hlen & _).
  cbn. by rewrite Hlen.
Defined.

(** With at least one frame, a buffer that announces more channels than
    it has data for makes [encodeWAV] throw; [convertToWav] then hands
    back the blob it was given. *)
Theorem encodeWAV_missing_channel (audioBuffer : AudioBuffer) :
  (0 < ab_length audioBuffer)%nat →
  (length (channelData audioBuffer) < numberOfChannels audioBuffer)%nat →
  encodeWAV audioBuffer = None ∧
  ∀ blob, blob_type blob ≠ "audio/wav"%string →
    convertToWav blob (Some audioBuffer) = (blob, true).
Proof.
  intros HN HM.
  assert (Hthrow : encodeWAV audioBuffer = None).
  { rewrite encodeWAV_header_first.
    rewrite (for_each_throws _ _ 0%nat); [done | apply elem_of_seq; lia |].
    intros st.
    apply (for_each_throws _ _ (length (channelData audioBuffer)));
      [apply elem_of_seq; lia|].
    intros [view offset]. unfold write_sample, getChannelData.
    by rewrite lookup_ge_None_2. }
  split; [exact Hthrow|].
  intros blob Hty. unfold convertToWav.
  rewrite bool_decide_eq_false_2 by done. cbn [mbind option_bind].
  by rewrite Hthrow.
Qed.

Lemma encodeWAV_missing_channel_witness :
  let short := {| numberOfChannels := 2; sampleRate := 44100; ab_length := 1;
                  channelData := [ [Fin 0] ] |} in
  (0 < ab_length short)%nat ∧
  (length (channelData short) < numberOfChannels short)%nat ∧
  encodeWAV short = None.
Proof.
  intros short.
  assert (H1 : (0 < ab_length short)%nat) by (cbn; lia).
  assert (H2 : (length (channelData short) < numberOfChannels short)%nat)
    by (cbn; lia).
  split; [exact H1|]. split; [exact H2|].
  exact (proj1 (encodeWAV_missing_channel short H1 H2)).
Defined.

(** [convertToWav] is best effort: a WAV blob is passed through without
    decoding; a blob that cannot be decoded is passed through with a
    logged error; a blob decoded to a buffer that has its channels comes
    back as a WAV blob of 44 + N*M*2 bytes.  The result is always the
    blob given or a blob of type audio/wav. *)
Theorem convertToWav_best_effort (audioBlob : Blob) :
  (∀ decoded, blob_type audioBlob = "audio/wav"%string →
     convertToWav audioBlob decoded = (audioBlob, false)) ∧
  (blob_type audioBlob ≠ "audio/wav"%string →
     convertToWav audioBlob None = (audioBlob, true)) ∧
  (∀ audioBuffer,
     blob_type audioBlob ≠ "audio/wav"%string →
     length (channelData audioBuffer) = numberOfChannels audioBuffer →
     ∃ wav,
       convertToWav audioBlob (Some audioBuffer)
         = ({| blob_type := "audio/wav"; blob_bytes := wav |}, false) ∧
       encodeWAV audioBuffer = Some wav ∧
       length wav
         = (44 + ab_length audioBuffer * numberOfChannels audioBuffer * 2)%nat) ∧
  (∀ decoded,
     (convertToWav audioBlob decoded).1 = audioBlob ∨
     blob_type (convertToWav audioBlob decoded).1 = "audio/wav"%string).
Proof.
  split; [|split; [|split]].
  - intros decoded Hty. unfold convertToWav.
    by rewrite bool_decide_eq_true_2.
  - intros Hty. unfold convertToWav. by rewrite bool_decide_eq_false_2.
  - intros audioBuffer Hty Hch. exists (wav_bytes audioBuffer).
    unfold convertToWav. rewrite bool_decide_eq_false_2 by done.
    cbn [mbind option_bind]. rewrite (encodeWAV_layout audioBuffer Hch).
    split; [done|]. split; [done|].
    unfold wav_bytes.
    rewrite length_app, length_header_bytes, length_data_bytes.
    unfold dataSize. lia.
  - intros decoded. unfold convertToWav. case_bool_decide; [by left|].
    destruct (decoded ≫= encodeWAV); [by right | by left].
Qed.

Lemma convertToWav_best_effort_witness :
  let webm := {| blob_type := "audio/webm"; blob_bytes := [26; 69; 223; 163] |} in
  blob_type webm ≠ "audio/wav"%string ∧
  length (channelData demo_buffer) = numberOfChannels demo_buffer ∧
  convertToWav webm None = (webm, true) ∧
  blob_type (convertToWav webm (Some demo_buffer)).1 = "audio/wav"%string ∧
  length (blob_bytes (convertToWav webm (Some demo_buffer)).1) = 56%nat.
Proof.
  intros webm.
  assert (Hty : blob_type webm ≠ "audio/wav"%string) by done.
  split; [exact Hty|]. split; [reflexivity|].
  destruct (convertToWav_best_effort webm) as (_ & Hnone & Hsome & _).
  split; [exact (Hnone Hty)|].
  destruct (Hsome demo_buffer Hty eq_refl) as (wav & -> & _ & Hlen).
  split; [reflexivity | exact Hlen].
Defined.

End WavMore.

(** ** More on the history store *)

Module HistoryMore.
Import History SpeechLab SpeechLabRest HistoryFacts.

Lemma Map_set_fresh {V} k (v : V) m : k ∉ m.*1 → Map_set k v m = m ++ [(k, v)].
Proof.
  induction m as [|[k' v'] m IH]; [done|]. cbn. intros Hk.
  apply not_elem_of_cons in Hk as [Hne Hk].
  rewrite decide_False by done. by rewrite IH.
Qed.

Lemma new_Map_NoDup (items : list HistoryItem) :
  NoDup (id <$> items) →
  new_Map ((λ item, (id item, item)) <$> items) = (λ item, (id item, item)) <$> items.
Proof.
  induction items as [|x items IH] using rev_ind; [done|].
  rewrite !fmap_app. intros [Hnd [Hx _]]%NoDup_app.
  cbn [fmap list_fmap]. rewrite new_Map_snoc, IH by done. cbn [fst snd].
  apply Map_set_fresh. rewrite <- list_fmap_compose. intros Hin.
  apply (Hx (id x)); [exact Hin | left].
Qed.

Lemma unique_NoDup (items : list HistoryItem) :
  NoDup (id <$> items) → unique items = items.
Proof.
  intros Hnd. unfold unique. rewrite new_Map_NoDup by done.
  rewrite <- list_fmap_compose. apply list_fmap_id.
Qed.

Lemma unique_unique items : unique (unique items) = unique items.
Proof. apply unique_NoDup. by destruct (unique_spec items) as [? _]. Qed.

(** The de-duplication pass is idempotent: running it a second time
    changes nothing, on any store. *)
Theorem cleanup_idempotent (ls : gmap string stored) :
  cleanupDuplicateHistory (cleanupDuplicateHistory ls) = cleanupDuplicateHistory ls.
Proof.
  unfold cleanupDuplicateHistory at 2.
  destruct (parse_history stt_key ls) as [stt|] eqn:Hstt;
    [|unfold cleanupDuplicateHistory; by rewrite Hstt].
  destruct (parse_history tts_key ls) as [tts|] eqn:Htts;
    [|unfold cleanupDuplicateHistory; by rewrite Hstt, Htts].
  cbn zeta. unfold cleanupDuplicateHistory. rewrite Hstt, Htts.
  rewrite parse_history_insert_ne, !parse_history_insert by done.
  rewrite !unique_unique.
  apply map_eq. intros k. rewrite !lookup_insert.
  by repeat case_decide.
Qed.

(** When the ids of both stored collections are already distinct, the
    pass leaves both collections exactly as they are, order included. *)
Theorem cleanup_without_duplicates (ls : gmap string stored) stt tts :
  parse_history stt_key ls = Some stt →
  parse_history tts_key ls = Some tts →
  NoDup (id <$> stt) → NoDup (id <$> tts) →
  parse_history stt_key (cleanupDuplicateHistory ls) = Some stt ∧
  parse_history tts_key (cleanupDuplicateHistory ls) = Some tts.
Proof.
  intros Hstt Htts Hn1 Hn2. unfold cleanupDuplicateHistory. rewrite Hstt, Htts.
  rewrite parse_history_insert_ne, !parse_history_insert by done.
  by rewrite !unique_NoDup.
Qed.

Lemma cleanup_without_duplicates_witness :
  let ls := save_stt_all (numbered_stt <$> seq 1 3) ∅ in
  let items := stt_item <$> (numbered_stt <$> [3; 2; 1]%nat) in
  parse_history stt_key ls = Some items ∧
  parse_history tts_key ls = Some [] ∧
  NoDup (id <$> items) ∧ NoDup (id <$> ([] : list HistoryItem)) ∧
  parse_history stt_key (cleanupDuplicateHistory ls) = Some items.
Proof.
  intros ls items.
  assert (Hnd : NoDup (id <$> items))
    by (apply (bool_decide_unpack _); by vm_compute).
  assert (Hnil : NoDup (id <$> ([] : list HistoryItem))) by constructor.
  split; [reflexivity|]. split; [reflexivity|].
  split; [exact Hnd|]. split; [exact Hnil|].
  exact (proj1 (cleanup_without_duplicates ls items [] eq_refl eq_refl Hnd Hnil)).
Defined.





(** What the pass does at the edges: if either collection does not
    parse, nothing at all is written; keys other than the two history
    keys are never touched; a missing collection is written back as an
    empty array. *)
Theorem cleanup_edges (ls : gmap string stored) :
  (parse_history stt_key ls = None ∨ parse_history tts_key ls = None →
     cleanupDuplicateHistory ls = ls) ∧
  (∀ k, k ≠ stt_key → k ≠ tts_key → cleanupDuplicateHistory ls !! k = ls !! k) ∧
  (ls !! stt_key = None → is_Some (parse_history tts_key ls) →
     cleanupDuplicateHistory ls !! stt_key = Some (Arr [])).
Proof.
  split; [|split].
  - unfold cleanupDuplicateHistory. intros [->| ->]; [done|].
    by destruct (parse_history stt_key ls).
  - intros k Hstt Htts. unfold cleanupDuplicateHistory.
    destruct (parse_history stt_key ls), (parse_history tts_key ls); try done.
    by rewrite !lookup_insert_ne.
  - intros Hnone [tts Htts]. unfold cleanupDuplicateHistory.
    unfold parse_history at 1. rewrite Hnone, Htts.
    rewrite lookup_insert_ne by done. by rewrite lookup_insert_eq.
Qed.

Lemma cleanup_edges_witness :
  let damaged : gmap string stored :=
    <[tts_key := Raw "{oops"]> twice_saved in
  parse_history tts_key damaged = None ∧
  cleanupDuplicateHistory damaged = damaged ∧
  cleanupDuplicateHistory ∅ !! stt_key = Some (Arr []).
Proof.
  intros damaged.
  assert (H : parse_history tts_key damaged = None) by reflexivity.
  split; [exact H|].
  destruct (cleanup_edges damaged) as (Hkeep & _ & _).
  destruct (cleanup_edges ∅) as (_ & _ & Hnew).
  split; [apply Hkeep; by right | by apply Hnew].
Defined.

(** *** What an append keeps *)

Lemma append_tidy (entry : HistoryItem) (existing : list HistoryItem) :
  take 49 existing `prefix_of` existing ∧
  (length (entry :: take 49 existing) ≤ 50)%nat ∧
  (NoDup (id <$> existing) → id entry ∉ id <$> existing →
   NoDup (id <$> entry :: take 49 existing)).
Proof.
  split; [apply prefix_take|]. split.
  - cbn [length]. rewrite length_take. lia.
  - intros Hnd Hfresh. rewrite fmap_cons. apply NoDup_cons. split.
    + intros Hin. apply Hfresh. rewrite fmap_take in Hin.
      apply elem_of_take in Hin as (i & Hi & _).
      by eapply list_elem_of_lookup_2.
    + rewrite fmap_take. eapply sublist_NoDup; [exact Hnd | apply sublist_take].
Qed.

(** Whatever the stored collection held, after an append it has the new
    entry in front of a prefix of the old entries, at most 50 entries in
    all, and ids that are still distinct if they were and the new id is
    fresh.  The same for both kinds. *)
Theorem save_keeps_history_tidy (env : Env) (t l v : string) (a d : Q)
  (ls : gmap string stored) :
  (∀ existing, parse_history stt_key ls = Some existing →
     ∃ entry kept,
       parse_history stt_key (saveSTTHistory env t a l d ls).1 = Some (entry :: kept) ∧
       (saveSTTHistory env t a l d ls).2 = Some entry ∧
       id entry = fresh_id env ∧ content entry = t ∧
       kept `prefix_of` existing ∧
       (length (entry :: kept) ≤ 50)%nat ∧
       (NoDup (id <$> existing) → fresh_id env ∉ id <$> existing →
        NoDup (id <$> entry :: kept))) ∧
  (∀ existing, parse_history tts_key ls = Some existing →
     ∃ entry kept,
       parse_history tts_key (saveTTSHistory env t v l d ls).1 = Some (entry :: kept) ∧
       (saveTTSHistory env t v l d ls).2 = Some entry ∧
       id entry = fresh_id env ∧ content entry = t ∧
       kept `prefix_of` existing ∧
       (length (entry :: kept) ≤ 50)%nat ∧
       (NoDup (id <$> existing) → fresh_id env ∉ id <$> existing →
        NoDup (id <$> entry :: kept))).
Proof.
  split; intros existing Hparse.
  - unfold saveSTTHistory. rewrite Hparse. cbn [fst snd].
    rewrite parse_history_insert. eexists _, _. split; [reflexivity|].
    split; [reflexivity|]. split; [reflexivity|]. split; [reflexivity|].
    apply append_tidy.
  - unfold saveTTSHistory. rewrite Hparse. cbn [fst snd].
    rewrite parse_history_insert. eexists _, _. split; [reflexivity|].
    split; [reflexivity|]. split; [reflexivity|]. split; [reflexivity|].
    apply append_tidy.
Qed.

Lemma save_keeps_history_tidy_witness :
  let items := stt_item <$> (numbered_stt <$> [3; 2; 1]%nat) in
  let ls : gmap string stored := {[ stt_key := Arr items ]} in
  let env := {| fresh_id := "4"; now := "4" |} in
  parse_history stt_key ls = Some items ∧
  ∃ entry kept,
    parse_history stt_key (saveSTTHistory env "next" (95 # 100) "en" 5 ls).1
      = Some (entry :: kept) ∧
    id entry = "4"%string ∧ kept `prefix_of` items ∧
    (length (entry :: kept) ≤ 50)%nat.
Proof.
  intros items ls env.
  assert (Hparse : parse_history stt_key ls = Some items) by reflexivity.
  split; [exact Hparse|].
  destruct (save_keeps_history_tidy env "next" "en" "" (95 # 100) 5 ls) as [Hstt _].
  destruct (Hstt items Hparse) as (entry & kept & Hp & _ & Hid & _ & Hpre & Hlen & _).
  exists entry, kept. repeat split; assumption.
Defined.

(** *** Clearing and loading *)

(** [clearHistory] removes the collection(s) it is asked to remove, from
    storage and from the panel, and nothing else; an unknown kind does
    nothing.  Removing also repairs a damaged collection: the next
    append succeeds and starts a collection of one entry. *)
Theorem clearHistory_removes (type : string) (w : World) :
  (type = "all"%string →
     localStorage (clearHistory type w) !! stt_key = None ∧
     localStorage (clearHistory type w) !! tts_key = None ∧
     sttHistory (state (clearHistory type w)) = [] ∧
     ttsHistory (state (clearHistory type w)) = []) ∧
  (type = "stt"%string →
     localStorage (clearHistory type w) !! stt_key = None ∧
     sttHistory (state (clearHistory type w)) = [] ∧
     localStorage (clearHistory type w) !! tts_key = localStorage w !! tts_key ∧
     ttsHistory (state (clearHistory type w)) = ttsHistory (state w) ∧
     ∀ env t a l d,
       parse_history stt_key
         (saveSTTHistory env t a l d (localStorage (clearHistory type w))).1
       = (λ entry, [entry]) <$>
           (saveSTTHistory env t a l d (localStorage (clearHistory type w))).2 ∧
       is_Some (saveSTTHistory env t a l d (localStorage (clearHistory type w))).2) ∧
  (type = "tts"%string →
     localStorage (clearHistory type w) !! tts_key = None ∧
     ttsHistory (state (clearHistory type w)) = [] ∧
     localStorage (clearHistory type w) !! stt_key = localStorage w !! stt_key ∧
     sttHistory (state (clearHistory type w)) = sttHistory (state w)) ∧
  (type ≠ "all"%string → type ≠ "stt"%string → type ≠ "tts"%string →
     clearHistory type w = w) ∧
  (∀ k, k ≠ stt_key → k ≠ tts_key →
     localStorage (clearHistory type w) !! k = localStorage w !! k) ∧
  trace (clearHistory type w) = trace w.
Proof.
  assert (Hall : clearHistory "all" w
            = update (setTtsHistory [])
                (set_localStorage
                   (delete tts_key (delete stt_key (localStorage w)))
                   (update (setSttHistory []) w))) by reflexivity.
  assert (Hstt : clearHistory "stt" w
            = update (setSttHistory [])
                (set_localStorage (delete stt_key (localStorage w)) w))
    by reflexivity.
  assert (Htts : clearHistory "tts" w
            = update (setTtsHistory [])
                (set_localStorage (delete tts_key (localStorage w)) w))
    by reflexivity.
  split; [|split; [|split; [|split; [|split]]]].
  - intros ->. rewrite Hall.
    cbn [localStorage state update set_localStorage sttHistory ttsHistory
         setSttHistory setTtsHistory].
    rewrite lookup_delete_ne by done. by rewrite !lookup_delete_eq.
  - intros ->. rewrite Hstt.
    cbn [localStorage state update set_localStorage sttHistory ttsHistory
         setSttHistory setTtsHistory].
    rewrite lookup_delete_eq, lookup_delete_ne by done.
    repeat split; try done.
    + unfold saveSTTHistory, parse_history. rewrite lookup_delete_eq. cbn [fst snd].
      by rewrite lookup_insert_eq.
    + unfold saveSTTHistory, parse_history. by rewrite lookup_delete_eq.
  - intros ->. rewrite Htts.
    cbn [localStorage state update set_localStorage sttHistory ttsHistory
         setSttHistory setTtsHistory].
    by rewrite lookup_delete_eq, lookup_delete_ne.
  - intros H1 H2 H3. unfold clearHistory.
    by rewrite !bool_decide_eq_false_2.
  - intros k H1 H2. unfold clearHistory.
    repeat case_bool_decide;
      cbn [orb localStorage state update set_localStorage];
      by rewrite ?lookup_delete_ne.
  - unfold clearHistory. by repeat case_bool_decide.
Qed.

Lemma clearHistory_removes_witness :
  let damaged : World :=
    set_localStorage (<[stt_key := Raw "{oops"]> {[ "theme"%string := Raw "dark" ]})
      initial_world in
  parse_history stt_key (localStorage damaged) = None ∧
  (saveSTTHistory sample_env "hi" (95 # 100) "en" 5 (localStorage damaged)).2 = None ∧
  is_Some (saveSTTHistory sample_env "hi" (95 # 100) "en" 5
             (localStorage (clearHistory "stt" damaged))).2 ∧
  localStorage (clearHistory "stt" damaged) !! "theme"%string = Some (Raw "dark") ∧
  clearHistory "video" damaged = damaged.
Proof.
  intros damaged. split; [reflexivity|]. split; [reflexivity|].
  destruct (clearHistory_removes "stt" damaged) as (_ & Hstt & _ & _ & Hframe & _).
  destruct (clearHistory_removes "video" damaged) as (_ & _ & _ & Hnone & _ & _).
  destruct (Hstt eq_refl) as (_ & _ & _ & _ & Hsave).
  split; [apply Hsave|]. split.
  - rewrite Hframe by done. reflexivity.
  - by apply Hnone.
Defined.

(** [loadHistory] is all or nothing: both panel lists are replaced by
    the stored collections when both parse; when either is damaged,
    neither list changes and an error is logged.  Storage is only read. *)
Theorem loadHistory_all_or_nothing (w : World) :
  (∀ stt tts,
     parse_history stt_key (localStorage w) = Some stt →
     parse_history tts_key (localStorage w) = Some tts →
     sttHistory (state (loadHistory w)) = stt ∧
     ttsHistory (state (loadHistory w)) = tts ∧
     trace (loadHistory w) = trace w) ∧
  (parse_history stt_key (localStorage w) = None ∨
   parse_history tts_key (localStorage w) = None →
     state (loadHistory w) = state w ∧
     trace (loadHistory w) = trace w ++ [ConsoleError]) ∧
  localStorage (loadHistory w) = localStorage w.
Proof.
  unfold loadHistory. split; [|split].
  - intros stt tts -> ->. done.
  - intros [->| ->]; [done|]. by destruct (parse_history stt_key _).
  - by repeat case_match.
Qed.

Lemma loadHistory_all_or_nothing_witness :
  let w := set_localStorage
             (<[tts_key := Raw "{oops"]> twice_saved) initial_world in
  parse_history tts_key (localStorage w) = None ∧
  is_Some (parse_history stt_key (localStorage w)) ∧
  sttHistory (state (loadHistory w)) = [] ∧
  length (sttHistory (state (loadHistory (set_localStorage twice_saved initial_world))))
    = 2%nat.
Proof.
  intros w.
  assert (Htts : parse_history tts_key (localStorage w) = None) by reflexivity.
  split; [exact Htts|]. split; [by eexists|].
  destruct (loadHistory_all_or_nothing w) as (_ & Hnone & _).
  destruct (Hnone (or_intror Htts)) as [-> _].
  split; [reflexivity|].
  destruct (loadHistory_all_or_nothing (set_localStorage twice_saved initial_world))
    as (Hboth & _ & _).
  destruct (Hboth _ _ eq_refl eq_refl) as (-> & _ & _). reflexivity.
Defined.

End HistoryMore.

(** ** More on the SpeechLab handlers *)

Module SpeechLabMore.
Import History SpeechLab SpeechLabRest HistoryFacts LiveFacts SpeechLabFacts.

Lemma truthy_nonempty (s : string) : s ≠ ""%string → Str.truthy s = true.
Proof. by destruct s. Qed.

Lemma trace_loadHistory w :
  ∃ effs, trace (loadHistory w) = trace w ++ effs ∧ existsb is_fetch effs = false.
Proof.
  unfold loadHistory.
  destruct (parse_history stt_key (localStorage w)),
    (parse_history tts_key (localStorage w));
    (by exists []; rewrite app_nil_r) || by exists [ConsoleError].
Qed.

Lemma isLoading_loadHistory w :
  isLoading (state (loadHistory w)) = isLoading (state w).
Proof. unfold loadHistory. by repeat case_match. Qed.

(** *** The stop handler of a recording *)

(** Without captured data the stop handler only releases the
    microphone; with data but no backend connection it issues no request
    and records one placeholder entry at accuracy 0.85. *)
Theorem onstop_without_request (render : State) (response : option string)
  (random : Q) (env env' : Env) (w : World) :
  (audioChunksRef (state w) = [] →
     onstop render response random env env' w = (emit TracksStop w, false)) ∧
  (∀ existing,
     (0 < length (audioChunksRef (state w)))%nat →
     backendConnected render = false →
     (0 <= random)%Q → (random < 1)%Q →
     parse_history stt_key (localStorage w) = Some existing →
     ∃ w' entry effs,
       onstop render response random env env' w = (w', false) ∧
       trace w' = trace w ++ effs ∧ existsb is_fetch effs = false ∧
       transcribedText (state w') ∈ sampleTexts ∧
       parse_history stt_key (localStorage w') = Some (entry :: take 49 existing) ∧
       content entry = transcribedText (state w') ∧
       accuracy entry = Some (85 # 100)%Q).
Proof.
  split.
  - intros Hempty. unfold onstop. by rewrite Hempty.
  - intros existing Hchunks Hback H0 H1 Hparse.
    destruct (simulateBrowserTranscription_sample random H0 H1) as [Hin _].
    unfold onstop. rewrite bool_decide_eq_true_2 by done. rewrite Hback.
    set (t := simulateBrowserTranscription random) in *.
    unfold saveSTTHistory.
    repeat (rewrite localStorage_update || rewrite localStorage_emit). rewrite Hparse.
    match goal with
    | |- context [loadHistory ?w0] =>
        destruct (trace_loadHistory w0) as (effs & Htr & Hfetch);
        pose proof (transcribedText_loadHistory w0) as Htext;
        pose proof (localStorage_loadHistory w0) as Hls
    end.
    eexists _, _, (effs ++ [TracksStop]). split; [reflexivity|].
    cbn [state update emit trace localStorage transcribedText setIsLoading].
    rewrite Htr, Htext, Hls.
    cbn [localStorage set_localStorage state update emit trace transcribedText
         setTranscribedText setIsLoading].
    rewrite parse_history_insert, <- app_assoc, existsb_app, Hfetch. done.
Qed.

Lemma onstop_without_request_witness :
  let offline := {| text := ""; isLoading := false; transcribedText := "";
                    isRecording := false; audioFile := None;
                    isLiveTranscribing := false; interimTranscript := "";
                    liveSessionText := ""; backendConnected := false;
                    language := "en"; voiceModel := "21m00Tcm4TlvDq8ikWAM";
                    autoSpeak := true; sttHistory := []; ttsHistory := [];
                    mediaRecorderRef := true; audioChunksRef := [] |} in
  let w := update (set_audioChunksRef [2048]) initial_world in
  audioChunksRef (state initial_world) = [] ∧
  (0 < length (audioChunksRef (state w)))%nat ∧
  backendConnected offline = false ∧
  (0 <= 3 # 4)%Q ∧ (3 # 4 < 1)%Q ∧
  parse_history stt_key (localStorage w) = Some [] ∧
  trace (onstop offline (Some "ignored"%string) (3 # 4) sample_env sample_env'
           initial_world).1 = [TracksStop] ∧
  ∃ w' entry,
    onstop offline (Some "ignored"%string) (3 # 4) sample_env sample_env' w
      = (w', false) ∧
    parse_history stt_key (localStorage w') = Some [entry] ∧
    accuracy entry = Some (85 # 100)%Q.
Proof.
  intros offline w.
  assert (Hlen : (0 < length (audioChunksRef (state w)))%nat) by (cbn; lia).
  assert (H0 : (0 <= 3 # 4)%Q) by done.
  assert (H1 : (3 # 4 < 1)%Q) by done.
  repeat (split; [done|]).
  destruct (onstop_without_request offline (Some "ignored"%string) (3 # 4)
              sample_env sample_env' w) as [_ Hoff].
  destruct (Hoff [] Hlen eq_refl H0 H1 eq_refl)
    as (w' & entry & effs & Hrun & _ & _ & _ & Hstored & _ & Hacc).
  by exists w', entry.
Defined.

(** When the stored speech-to-text collection does not parse, the stop
    handler of a recording with data ends with an exception, whatever
    the backend answers: the fixed fallback sentence is shown, nothing
    is written to storage, the loading flag is cleared, and the
    microphone tracks are not released. *)
Theorem onstop_storage_damaged (render : State) (response : option string)
  (random : Q) (env env' : Env) (w : World) :
  (0 < length (audioChunksRef (state w)))%nat →
  parse_history stt_key (localStorage w) = None →
  ∃ w',
    onstop render response random env env' w = (w', true) ∧
    transcribedText (state w')
      = "This is a sample transcription. Your audio has been processed successfully."%string ∧
    localStorage w' = localStorage w ∧
    isLoading (state w') = false ∧
    TracksStop ∉ drop (length (trace w)) (trace w').
Proof.
  intros Hchunks Hparse. unfold onstop.
  rewrite bool_decide_eq_true_2 by done.
  assert (Hsave : ∀ e t a l d wx,
            localStorage wx = localStorage w →
            saveSTTHistory e t a l d (localStorage wx) = (localStorage w, None)).
  { intros e t a l d wx ->. unfold saveSTTHistory. by rewrite Hparse. }
  destruct (backendConnected render); [destruct response as [text|]|];
    cbn [transcribeWithWhisper];
    rewrite !Hsave by done;
    (eexists; split; [reflexivity|]);
    cbn [state update emit trace localStorage transcribedText setTranscribedText
         setIsLoading isLoading];
    (repeat split; try done);
    rewrite <- ?app_assoc, drop_app_length;
    intros Hin; repeat (apply elem_of_cons in Hin as [Hin|Hin]; [done|]);
    by apply elem_of_nil in Hin.
Qed.

Lemma onstop_storage_damaged_witness :
  let w := set_localStorage {[ stt_key := Raw "{oops" ]}
             (update (set_audioChunksRef [2048]) initial_world) in
  (0 < length (audioChunksRef (state w)))%nat ∧
  parse_history stt_key (localStorage w) = None ∧
  (onstop initial_state (Some "hello"%string) (1 # 2) sample_env sample_env' w).2 = true ∧
  localStorage (onstop initial_state (Some "hello"%string) (1 # 2) sample_env
                  sample_env' w).1 = localStorage w.
Proof.
  intros w.
  assert (Hlen : (0 < length (audioChunksRef (state w)))%nat) by (cbn; lia).
  assert (Hparse : parse_history stt_key (localStorage w) = None) by reflexivity.
  split; [exact Hlen|]. split; [exact Hparse|].
  destruct (onstop_storage_damaged initial_state (Some "hello"%string) (1 # 2)
              sample_env sample_env' w Hlen Hparse) as (w' & -> & _ & Hls & _).
  split; [reflexivity | exact Hls].
Defined.

(** *** Upload *)

(** No file selected: nothing happens.  A file of acceptable size whose
    type is not an allowed audio type and whose name has no audio
    extension is refused with an alert: no request, no change to
    storage or state. *)
Theorem upload_wrong_type_refused (render : State) (response : option string)
  (random : Q) (env env' : Env) (w : World) :
  handleAudioUpload render None response random env env' w = (w, false) ∧
  ∀ file,
    size file ≤ 100 * 1024 * 1024 →
    file_type file ∉ allowedTypes →
    has_audio_extension (name file) = false →
    ∃ w' message,
      handleAudioUpload render (Some file) response random env env' w = (w', false) ∧
      trace w' = trace w ++ [Alert message; ClearFileInput] ∧
      localStorage w' = localStorage w ∧
      state w' = state w.
Proof.
  split; [done|]. intros file Hsize Hty Hext. unfold handleAudioUpload.
  rewrite (proj2 (Z.ltb_ge _ _)) by done.
  rewrite bool_decide_eq_false_2, Hext by done. cbn [negb andb].
  eexists _, _. split; [reflexivity|].
  cbn [trace emit localStorage state]. by rewrite <- app_assoc.
Qed.

Lemma upload_wrong_type_refused_witness :
  let notes := {| size := 1024; file_type := "text/plain"; name := "notes.txt" |} in
  size notes ≤ 100 * 1024 * 1024 ∧
  (file_type notes ∉ allowedTypes) ∧
  has_audio_extension (name notes) = false ∧
  ∃ message,
    trace (handleAudioUpload initial_state (Some notes) (Some "hi"%string) (1 # 2)
             sample_env sample_env' initial_world).1
    = trace initial_world ++ [Alert message; ClearFileInput].
Proof.
  intros notes.
  assert (H1 : size notes ≤ 100 * 1024 * 1024) by (cbn; lia).
  assert (H2 : file_type notes ∉ allowedTypes)
    by (apply (bool_decide_unpack _); by vm_compute).
  assert (H3 : has_audio_extension (name notes) = false) by reflexivity.
  split; [exact H1|]. split; [exact H2|]. split; [exact H3|].
  destruct (upload_wrong_type_refused initial_state (Some "hi"%string) (1 # 2)
              sample_env sample_env' initial_world) as [_ Hfile].
  destruct (Hfile notes H1 H2 H3) as (w' & message & Hrun & Htrace & _).
  exists message. rewrite Hrun. exact Htrace.
Defined.

(** A file of at most 100MB that has an allowed type or an audio
    extension is processed: it becomes the current file, the transcript
    shown is never empty, and exactly one speech-to-text entry with that
    transcript is stored, at accuracy 0.95 when the backend answered and
    0.92 otherwise; without a backend connection no request is issued. *)
Theorem upload_accepted (render : State) (file : File) (response : option string)
  (random : Q) (env env' : Env) (w : World) (existing : list HistoryItem) :
  size file ≤ 100 * 1024 * 1024 →
  file_type file ∈ allowedTypes ∨ has_audio_extension (name file) = true →
  (0 <= random)%Q → (random < 1)%Q →
  parse_history stt_key (localStorage w) = Some existing →
  ∃ w' entry effs,
    handleAudioUpload render (Some file) response random env env' w = (w', false) ∧
    audioFile (state w') = Some file ∧
    isLoading (state w') = false ∧
    transcribedText (state w') ≠ ""%string ∧
    parse_history stt_key (localStorage w') = Some (entry :: take 49 existing) ∧
    content entry = transcribedText (state w') ∧
    accuracy entry
      = Some (match backendConnected render, response with
              | true, Some _ => 95 # 100
              | _, _ => 92 # 100
              end)%Q ∧
    trace w' = trace w ++ effs ∧
    existsb is_fetch effs = backendConnected render.
Proof.
  intros Hsize Hok H0 H1 Hparse.
  destruct (simulateBrowserTranscription_sample random H0 H1) as [_ Hne].
  unfold handleAudioUpload.
  rewrite (proj2 (Z.ltb_ge _ _)) by done.
  assert (Hcheck : negb (bool_decide (file_type file ∈ allowedTypes))
                   && negb (has_audio_extension (name file)) = false).
  { destruct Hok as [Hty| ->]; [by rewrite bool_decide_eq_true_2|].
    by rewrite andb_false_r. }
  rewrite Hcheck.
  set (t := simulateBrowserTranscription random) in *.
  assert (Hsave : ∀ e tx a l d wx,
            localStorage wx = localStorage w →
            saveSTTHistory e tx a l d (localStorage wx)
            = (<[stt_key := Arr (stt_item {| stt_env := e; stt_text := tx;
                                             stt_accuracy := a; stt_language := l;
                                             stt_duration := d |}
                                 :: take 49 existing)]> (localStorage w),
               Some (stt_item {| stt_env := e; stt_text := tx; stt_accuracy := a;
                                 stt_language := l; stt_duration := d |}))).
  { intros e tx a l d wx ->. unfold saveSTTHistory. by rewrite Hparse. }
  destruct (backendConnected render); [destruct response as [text|]|];
    rewrite Hsave by done;
    match goal with
    | |- context [loadHistory ?w0] =>
        destruct (trace_loadHistory w0) as (effs & Htr & Hfetch);
        pose proof (transcribedText_loadHistory w0) as Htext;
        pose proof (localStorage_loadHistory w0) as Hls;
        pose proof (isLoading_loadHistory w0) as Hload;
        assert (Hfile : audioFile (state (loadHistory w0)) = Some file)
          by (unfold loadHistory; by repeat case_match)
    end;
    (eexists _, _, _; split; [reflexivity|]);
    cbn [state update emit trace localStorage transcribedText setIsLoading
         isLoading audioFile];
    rewrite Htr, Htext, Hls;
    cbn [localStorage set_localStorage state update emit trace transcribedText
         setTranscribedText setIsLoading];
    rewrite parse_history_insert;
    (split; [exact Hfile|]); (split; [done|]);
    (split; [try done; by destruct text|]);
    (split; [done|]); (split; [done|]); (split; [done|]);
    rewrite <- !app_assoc;
    (split; [reflexivity|]);
    cbn [app existsb is_fetch orb]; rewrite ?existsb_app, ?Hfetch; done.
Qed.

Lemma upload_accepted_witness :
  let clip := {| size := 100 * 1024 * 1024; file_type := ""; name := "Memo.WAV" |} in
  size clip ≤ 100 * 1024 * 1024 ∧
  has_audio_extension (name clip) = true ∧
  (0 <= 1 # 2)%Q ∧ (1 # 2 < 1)%Q ∧
  parse_history stt_key (localStorage initial_world) = Some [] ∧
  ∃ w' entry,
    handleAudioUpload initial_state (Some clip) (Some ""%string) (1 # 2)
      sample_env sample_env' initial_world = (w', false) ∧
    transcribedText (state w') = "Transcription completed successfully."%string ∧
    parse_history stt_key (localStorage w') = Some [entry] ∧
    accuracy entry = Some (95 # 100)%Q.
Proof.
  intros clip.
  assert (H1 : size clip ≤ 100 * 1024 * 1024) by (cbn; lia).
  assert (H2 : has_audio_extension (name clip) = true) by reflexivity.
  assert (H3 : (0 <= 1 # 2)%Q) by done.
  assert (H4 : (1 # 2 < 1)%Q) by done.
  repeat (split; [done|]).
  destruct (upload_accepted initial_state clip (Some ""%string) (1 # 2) sample_env
              sample_env' initial_world [] H1 (or_intror H2) H3 H4 eq_refl)
    as (w' & entry & effs & Hrun & _ & _ & _ & Hstored & _ & Hacc & _).
  exists w', entry. split; [exact Hrun|].
  split; [by injection Hrun as <-|]. split; [exact Hstored | exact Hacc].
Defined.

(** *** Text to speech *)

Lemma loadHistory_effects w :
  ∃ effs, trace (loadHistory w) = trace w ++ effs ∧ (effs = [] ∨ effs = [ConsoleError]).
Proof.
  unfold loadHistory.
  destruct (parse_history stt_key (localStorage w)),
    (parse_history tts_key (localStorage w));
    (exists []; rewrite app_nil_r; by auto) || (exists [ConsoleError]; by auto).
Qed.

(** A text that is not blank is spoken by the remote voice when the
    backend is connected and answers, and is handed to the browser's
    voice otherwise: a request is issued exactly with a connection, the
    remote audio plays exactly when the request succeeded, and the
    browser's voice is called exactly when no remote audio played and
    the window has speech synthesis.  When the remote audio played or
    the browser's voice spoke to the end, one text-to-speech entry is
    recorded, with the text as spoken, the selected voice model and a
    duration of a tenth of the text's length, the speech-to-text
    collection is left alone and no alert is shown.  Otherwise (the
    browser has no voice, or its voice failed) the user is alerted and
    storage stays as it was.  The loading flag is off at the end in
    both cases. *)
Theorem tts_outcome (render : State) (customText : option string)
  (remote_ok : bool) (local_ok : LocalVoice) (env : Env) (w : World)
  (existing : list HistoryItem) :
  let textToSpeak := or_else customText (text render) in
  let spoken :=
    if backendConnected render then remote_ok || resolves local_ok
    else resolves local_ok in
  let w' := handleTextToSpeech render customText remote_ok local_ok env w in
  Str.truthy (Str.trim textToSpeak) = true →
  parse_history tts_key (localStorage w) = Some existing →
  ∃ effs,
    trace w' = trace w ++ effs ∧
    existsb is_fetch effs = backendConnected render ∧
    (Speak textToSpeak ∈ effs
     ↔ backendConnected render && remote_ok = false ∧ speaks local_ok = true) ∧
    (PlayAudio ∈ effs ↔ backendConnected render && remote_ok = true) ∧
    isLoading (state w') = false ∧
    if spoken then
      parse_history tts_key (localStorage w')
      = Some (tts_item {| tts_env := env; tts_text := textToSpeak;
                          tts_voice := voiceModel render;
                          tts_language := language render;
                          tts_duration := (Z.of_nat (String.length textToSpeak) # 10)%Q |}
              :: take 49 existing) ∧
      localStorage w' !! stt_key = localStorage w !! stt_key ∧
      ∀ message, Alert message ∉ effs
    else
      localStorage w' = localStorage w ∧
      last effs = Some (Alert "Text-to-speech failed. Please try again.").
Proof.
  intros textToSpeak spoken w' Htext Hparse. subst w' spoken.
  unfold handleTextToSpeech. fold textToSpeak. rewrite Htext. cbn [negb].
  unfold handleBackendTTS, realTextToSpeech.
  assert (Hsave : ∀ wx,
            localStorage wx = localStorage w →
            saveTTSHistory env textToSpeak (voiceModel render) (language render)
              (Z.of_nat (String.length textToSpeak) # 10)%Q (localStorage wx)
            = (<[tts_key := Arr (tts_item
                                   {| tts_env := env; tts_text := textToSpeak;
                                      tts_voice := voiceModel render;
                                      tts_language := language render;
                                      tts_duration :=
                                        (Z.of_nat (String.length textToSpeak) # 10)%Q |}
                                 :: take 49 existing)]>
                 (localStorage w),
               Some (tts_item
                       {| tts_env := env; tts_text := textToSpeak;
                          tts_voice := voiceModel render;
                          tts_language := language render;
                          tts_duration :=
                            (Z.of_nat (String.length textToSpeak) # 10)%Q |}))).
  { intros wx ->. unfold saveTTSHistory. by rewrite Hparse. }
  destruct (backendConnected render), remote_ok, local_ok;
    cbn [negb orb andb resolves speaks];
    rewrite ?Hsave by done;
    try match goal with
    | |- context [loadHistory ?w0] =>
        destruct (loadHistory_effects w0) as (effs & Htr & Heffs);
        pose proof (localStorage_loadHistory w0) as Hls
    end;
    eexists;
    cbn [state update emit trace localStorage isLoading setIsLoading];
    rewrite ?Htr, ?Hls;
    cbn [state update emit trace localStorage set_localStorage];
    rewrite <- ?app_assoc;
    (split; [reflexivity|]);
    try (destruct Heffs as [-> | ->]);
    cbn [app existsb is_fetch orb];
    rewrite ?parse_history_insert,
      ?(lookup_insert_ne (localStorage w) _ _ _ (not_eq_sym keys_distinct));
    rewrite ?elem_of_cons, ?elem_of_nil;
    intuition (try congruence);
    match goal with
    | Hin : _ ∈ _ |- _ =>
        rewrite ?elem_of_cons, ?elem_of_nil in Hin; intuition congruence
    end.
Qed.

Lemma tts_outcome_witness :
  let render := initial_state in
  Str.truthy (Str.trim (or_else (Some "hello"%string) (text render))) = true ∧
  parse_history tts_key (localStorage initial_world) = Some [] ∧
  ∃ entry,
    parse_history tts_key
      (localStorage (handleTextToSpeech render (Some "hello"%string) false Finishes
                       sample_env initial_world))
    = Some [entry] ∧
    content entry = "hello"%string ∧
    duration entry = (5 # 10)%Q.
Proof.
  intros render.
  assert (H1 : Str.truthy (Str.trim (or_else (Some "hello"%string) (text render))) = true)
    by reflexivity.
  assert (H2 : parse_history tts_key (localStorage initial_world) = Some [])
    by reflexivity.
  split; [exact H1|]. split; [exact H2|].
  destruct (tts_outcome render (Some "hello"%string) false Finishes sample_env
              initial_world [] H1 H2)
    as (effs & _ & _ & _ & _ & _ & Hstored).
  assert (Hspoken : (if backendConnected render
                     then false || resolves Finishes else resolves Finishes) = true)
    by (by destruct (backendConnected render)).
  rewrite Hspoken in Hstored. destruct Hstored as (Hstored & _).
  eexists. split; [exact Hstored|]. split; reflexivity.
Defined.

(** *** Saving the transcript to a file *)

Lemma forallb_drop_spaces (l : list Ascii.ascii) :
  forallb Str.is_space (Str.drop_spaces l) = forallb Str.is_space l.
Proof.
  induction l as [|c l IH]; [done|]. cbn [Str.drop_spaces forallb].
  destruct (Str.is_space c) eqn:Hc; [done|]. cbn [forallb]. by rewrite Hc.
Qed.

Lemma forallb_reverse {A} (f : A → bool) (l : list A) :
  forallb f (reverse l) = forallb f l.
Proof.
  induction l as [|x l IH]; [done|].
  rewrite reverse_cons, forallb_app, IH. cbn [forallb].
  rewrite andb_true_r. apply andb_comm.
Qed.

Lemma drop_spaces_nil (l : list Ascii.ascii) :
  Str.drop_spaces l = [] → forallb Str.is_space l = true.
Proof.
  induction l as [|c l IH]; [done|]. cbn [Str.drop_spaces forallb].
  destruct (Str.is_space c); [exact IH | done].
Qed.

(** [trim] yields the empty string exactly on white space. *)
Lemma truthy_trim (s : string) :
  Str.truthy (Str.trim s) = negb (Str.whitespace_only s).
Proof.
  unfold Str.whitespace_only.
  destruct (forallb Str.is_space (String.list_ascii_of_string s)) eqn:Hs.
  - by rewrite (trim_whitespace_only s Hs).
  - unfold Str.trim.
    destruct (reverse (Str.drop_spaces (reverse (Str.drop_spaces
               (String.list_ascii_of_string s))))) as [|c l] eqn:El; [|done].
    apply (f_equal reverse) in El. rewrite reverse_involutive in El.
    apply drop_spaces_nil in El.
    rewrite forallb_reverse, forallb_drop_spaces in El. congruence.
Qed.

(** The file offered for download is never blank: it is the first
    non-empty one of transcript, typed text and live-session text, and
    it holds a character that is not white space.  The choice is made
    before the blank test: a transcript that is not empty but consists
    of white space is chosen, and then nothing is saved, whatever the
    typed text holds. *)
Theorem saveTranscription_never_blank (render : State) :
  (∀ file_content,
     saveTranscription render = Downloaded file_content →
     file_content = content_to_save render ∧
     Str.whitespace_only file_content = false) ∧
  (transcribedText render ≠ ""%string →
   Str.whitespace_only (transcribedText render) = true →
   saveTranscription render = Refused "No text to save!").
Proof.
  unfold saveTranscription. split.
  - intros file_content. rewrite truthy_trim, negb_involutive.
    destruct (Str.whitespace_only (content_to_save render)) eqn:Hws; [done|].
    by intros [= <-].
  - intros Hne Hws. unfold content_to_save.
    rewrite (truthy_nonempty _ Hne), truthy_trim, Hws. done.
Qed.

(** The transcript of the witness is a no-break space and a space. *)
Lemma saveTranscription_never_blank_witness :
  let render := setTranscribedText (String (Ascii.ascii_of_nat 160) " ")
                  (setIsLoading false initial_state) in
  transcribedText render ≠ ""%string ∧
  Str.whitespace_only (transcribedText render) = true ∧
  saveTranscription render = Refused "No text to save!".
Proof.
  intros render.
  assert (H1 : transcribedText render ≠ ""%string) by done.
  assert (H2 : Str.whitespace_only (transcribedText render) = true) by reflexivity.
  split; [exact H1|]. split; [exact H2|].
  exact (proj2 (saveTranscription_never_blank render) H1 H2).
Defined.

(** *** Live transcription *)

Lemma trace_onresult_stale render event w :
  isLiveTranscribing render = false →
  trace (onresult render event w) = trace w.
Proof.
  intros Hstale. unfold onresult. destruct (collect event) as [f i].
  rewrite Hstale, andb_false_r. by destruct (Str.truthy f).
Qed.

Lemma localStorage_onresult render event w :
  localStorage (onresult render event w) = localStorage w.
Proof. unfold onresult. by repeat case_match. Qed.

Lemma localStorage_onend render w :
  localStorage (onend render w) = localStorage w.
Proof.
  unfold onend, recognition_start. repeat case_match; simplify_eq; done.
Qed.

Lemma histories_onresult render event w :
  sttHistory (state (onresult render event w)) = sttHistory (state w) ∧
  ttsHistory (state (onresult render event w)) = ttsHistory (state w).
Proof. unfold onresult. by repeat case_match. Qed.

(** In every world the component can reach, no recognition event is
    recorded.  Whatever a recognition object delivers, the only effect
    it can have on the outside is a logged error: [handleTextToSpeech],
    which would store a text-to-speech entry, is not called.
    localStorage and the two history lists of the page stay as they
    are; the live transcript is kept in the page's state only. *)
Theorem live_events_not_recorded (i : nat) (ev : RecognitionEvent) (w : World) :
  reachable w →
  (trace (fire i ev w) = trace w ∨ trace (fire i ev w) = trace w ++ [ConsoleError]) ∧
  localStorage (fire i ev w) = localStorage w ∧
  sttHistory (state (fire i ev w)) = sttHistory (state w) ∧
  ttsHistory (state (fire i ev w)) = ttsHistory (state w).
Proof.
  intros [Hstale _]%reachable_sound. unfold fire.
  destruct (recognitions w !! i) as [r|] eqn:Ei; [|by auto].
  destruct (phase r) eqn:Er; [by auto|..];
    (assert (Hr : isLiveTranscribing (closure r) = false)
       by (apply Hstale; [by eapply list_elem_of_lookup_2 | congruence]));
    destruct ev as [event| |]; cbn [deliver];
    rewrite ?localStorage_onresult, ?(trace_onresult_stale _ _ _ Hr),
      ?(onend_stale _ _ Hr);
    try (destruct (histories_onresult (closure r) event w) as [-> ->]);
    cbn [trace state localStorage set_recognitions onerror update emit
         sttHistory ttsHistory setIsLiveTranscribing];
    auto.
Qed.

Lemma live_events_not_recorded_witness :
  let w := commit true initial_state
             (startLiveTranscription initial_state initial_world) in
  reachable w ∧
  transcribedText (state (fire 1 (final "hello there") w)) = " hello there"%string ∧
  localStorage (fire 1 (final "hello there") w) = ∅ ∧
  ttsHistory (state (fire 1 (final "hello there") w)) = [].
Proof.
  intros w.
  assert (Hreach : reachable w).
  { eapply reachable_step; [apply (reachable_mount initial_state ∅); reflexivity|].
    apply (step_start_live initial_world). reflexivity. }
  split; [exact Hreach|]. split; [reflexivity|].
  destruct (live_events_not_recorded 1 (final "hello there") w Hreach)
    as (_ & Hls & _ & Htts).
  split; [exact Hls | exact Htts].
Defined.

(** In every world the component can reach, the handlers of a
    recognition object that can still deliver results see the live flag
    false.  So a final result never starts speech synthesis, also with
    auto-speak switched on: a result event adds nothing to the trace. *)
Theorem auto_speak_never_fires (w : World) (i : nat) (event : SpeechRecognitionEvent) :
  reachable w →
  trace (fire i (Result event) w) = trace w.
Proof.
  intros [Hstale _]%reachable_sound. unfold fire.
  destruct (recognitions w !! i) as [r|] eqn:Ei; [|done].
  destruct (phase r) eqn:Er; [done|..]; cbn [deliver];
    apply trace_onresult_stale, Hstale;
    (by eapply list_elem_of_lookup_2) || congruence.
Qed.

Lemma auto_speak_never_fires_witness :
  let w := commit true initial_state
             (startLiveTranscription initial_state initial_world) in
  reachable w ∧
  isLiveTranscribing (state w) = true ∧
  autoSpeak (state w) = true ∧
  transcribedText (state (fire 1 (final "hello there") w)) = " hello there"%string ∧
  trace (fire 1 (final "hello there") w) = trace w.
Proof.
  intros w.
  assert (Hreach : reachable w).
  { eapply reachable_step; [apply (reachable_mount initial_state ∅); reflexivity|].
    apply (step_start_live initial_world). reflexivity. }
  split; [exact Hreach|]. split; [reflexivity|]. split; [reflexivity|].
  split; [reflexivity|].
  exact (auto_speak_never_fires w 1
           {| resultIndex := 0;
              results := [ {| isFinal := true; transcript := "hello there" |} ] |}
           Hreach).
Defined.

Lemma commit_quiet prev w :
  (∀ r, r ∈ recognitions w → phase r ≠ Listening) →
  ∀ r, r ∈ recognitions (commit true prev w) → phase r ≠ Listening.
Proof.
  intros Hquiet. unfold commit. case_bool_decide as Hdeps; [done|].
  unfold recognition_effect, recognition_cleanup, recognition_stop.
  destruct (recognitions w) as [|r0 rest] eqn:E.
  { rewrite E. by intros r ->%list_elem_of_singleton. }
  destruct (phase r0) eqn:E0; cbn; rewrite ?E.
  - intros r [->|Hr]%elem_of_cons; [done | by apply Hquiet].
  - destruct (Hquiet r0); [by left | done].
  - intros r [->|Hr]%elem_of_cons; [done | by apply Hquiet].
Qed.

Lemma start_commit_quiet w :
  isLiveTranscribing (state w) = false →
  (∀ r, r ∈ recognitions w → phase r ≠ Listening) →
  ∀ r, r ∈ recognitions (commit true (state w) (startLiveTranscription (state w) w)) →
       phase r ≠ Listening.
Proof.
  intros Hlive Hquiet. unfold startLiveTranscription, recognition_start.
  destruct (recognitions w) as [|r0 rest] eqn:E.
  { apply commit_quiet. cbn. by rewrite E. }
  destruct (phase r0) eqn:E0;
    [|apply commit_quiet; cbn; by rewrite E..].
  unfold commit. rewrite bool_decide_eq_false_2
    by (apply deps_changed; cbn; by rewrite Hlive).
  unfold recognition_effect, recognition_cleanup, recognition_stop.
  cbn. intros r [->|[->|Hr]%elem_of_cons]%elem_of_cons; [done..|].
  apply Hquiet. by right.
Qed.

Lemma stop_quiet w :
  (∀ r, r ∈ recognitions w → phase r ≠ Listening) →
  ∀ r, r ∈ recognitions (stopLiveTranscription (state w) w) → phase r ≠ Listening.
Proof.
  intros Hquiet. unfold stopLiveTranscription, recognition_stop.
  destruct (recognitions w) as [|r0 rest] eqn:E; [cbn; by rewrite E|].
  destruct (phase r0) eqn:E0; cbn; rewrite ?E; try done.
  intros r [->|Hr]%elem_of_cons; [done|]. apply Hquiet. by right.
Qed.

Lemma recognitions_onend_stale render w :
  isLiveTranscribing render = false →
  recognitions (onend render w) = recognitions w.
Proof. intros H. by rewrite onend_stale. Qed.

Lemma fire_quiet i ev w :
  started_are_stale (recognitions w) →
  (∀ r, r ∈ recognitions w → phase r ≠ Listening) →
  ∀ r, r ∈ recognitions (fire i ev w) → phase r ≠ Listening.
Proof.
  intros Hstale Hquiet. unfold fire.
  destruct (recognitions w !! i) as [r0|] eqn:Ei; [|done].
  destruct (phase r0) eqn:E0; [done|..];
    (assert (Hr0 : isLiveTranscribing (closure r0) = false)
       by (apply Hstale; [by eapply list_elem_of_lookup_2 | congruence]));
    destruct ev as [event| |]; cbn [deliver];
    rewrite ?recognitions_onresult, ?recognitions_onend_stale by done;
    try done.
  all: cbn [recognitions set_recognitions];
       intros r Hr; apply list_elem_of_lookup in Hr as [j Hj];
       destruct (decide (i = j)) as [<-|Hne];
       [ rewrite list_lookup_insert_eq in Hj by (by eapply lookup_lt_Some);
         by injection Hj as <-
       | rewrite list_lookup_insert_ne in Hj by done;
         apply Hquiet; by eapply list_elem_of_lookup_2 ].
Qed.

(** After every render of the component no recognition object is
    listening.  The start button starts the object in the ref and sets
    the live flag; the flag is a dependency of the effect, so the render
    caused by that click runs the cleanup, which stops the object just
    started, and puts a new object, never started, in the ref.  Nothing
    later starts one: an end event restarts nothing. *)
Theorem live_session_never_listens (w : World) :
  reachable w →
  ∀ r, r ∈ recognitions w → phase r ≠ Listening.
Proof.
  induction 1 as [s ls Hs|w w' Hreach IH Hstep].
  - cbn. by intros r ->%list_elem_of_singleton.
  - destruct (reachable_sound w Hreach) as [Hstale _].
    destruct Hstep as [w Hlive|w Hlive|w i ev|w w' Hflag Hrec].
    + by apply start_commit_quiet.
    + by apply commit_quiet, stop_quiet.
    + by apply commit_quiet, fire_quiet.
    + apply commit_quiet. by rewrite Hrec.
Qed.

Lemma live_session_never_listens_witness :
  let w := commit true initial_state
             (startLiveTranscription initial_state initial_world) in
  reachable w ∧
  isLiveTranscribing (state w) = true ∧
  phase <$> recognitions w = [Idle; Stopping] ∧
  ∀ r, r ∈ recognitions w → phase r ≠ Listening.
Proof.
  intros w.
  assert (Hreach : reachable w).
  { eapply reachable_step; [apply (reachable_mount initial_state ∅); reflexivity|].
    apply (step_start_live initial_world). reflexivity. }
  split; [exact Hreach|]. split; [reflexivity|]. split; [reflexivity|].
  exact (live_session_never_listens w Hreach).
Defined.

End SpeechLabMore.

(** ** The history page *)

Module HistoryPageFacts.
Import History HistoryPage HistoryFacts.

Lemma filter_all {A} (P : A → Prop) `{∀ x, Decision (P x)} (l : list A) :
  Forall P l → filter P l = l.
Proof.
  induction 1 as [|x l Hx _ IH]; [done|]. by rewrite filter_cons_True, IH.
Qed.

Lemma filter_none {A} (P : A → Prop) `{∀ x, Decision (P x)} (l : list A) :
  Forall (λ x, ¬ P x) l → filter P l = [].
Proof.
  induction 1 as [|x l Hx _ IH]; [done|]. by rewrite filter_cons_False.
Qed.

Lemma fmap_unchanged {A} (f : A → A) (l : list A) :
  Forall (λ x, f x = x) l → f <$> l = l.
Proof. induction 1 as [|x l Hx _ IH]; [done|]. cbn. by rewrite Hx, IH. Qed.

Lemma normalize_all kind (g : nat → string) (l : list HistoryItem) :
  Forall (λ p, type (item p) = kind ∧ service p = "speech-lab"%string ∧
               ∃ rest, id (item p) = kind +:+ "-" +:+ rest)
    (imap (λ i, normalize kind (g i)) l).
Proof.
  revert g. induction l as [|x l IH]; intros g; [constructor|].
  rewrite imap_cons. constructor; [|apply (IH (g ∘ S))].
  split; [done|]. split; [done|]. by eexists.
Qed.

Lemma content_normalize kind (g : nat → string) (l : list HistoryItem) :
  (λ p, content (item p)) <$> imap (λ i, normalize kind (g i)) l = content <$> l.
Proof.
  revert g. induction l as [|x l IH]; intros g; [done|].
  rewrite imap_cons. cbn. f_equal. apply (IH (g ∘ S)).
Qed.

Lemma history_fetch clock w stt tts :
  parse_history stt_key (localStorage w) = Some stt →
  parse_history tts_key (localStorage w) = Some tts →
  fetchHistoryData clock w
  = update (setIsLoading false)
      (update (setHistory
                 (imap (λ i, normalize "stt" (clock i)) stt
                  ++ imap (λ i, normalize "tts" (clock (length stt + i)%nat)) tts))
         (update (setIsLoading true) w)).
Proof.
  intros Hstt Htts. unfold fetchHistoryData.
  cbn [localStorage update]. by rewrite Hstt, Htts.
Qed.

(** The page's list is rebuilt from both stored collections or not at
    all.  When both can be read, the tab counts are the sizes of the
    collections (the kind of an entry is the collection it came from,
    whatever its stored [type] says), every entry is marked as coming
    from the speech lab, and the texts appear in stored order, speech
    to text first.  When one of them is damaged, the list shown stays as
    it was and the error is only logged.  Storage is never written and
    the loading flag is off at the end. *)
Theorem fetchHistoryData_combines (clock : nat → string) (w : World) :
  let w' := fetchHistoryData clock w in
  isLoading (state w') = false ∧
  localStorage w' = localStorage w ∧
  match parse_history stt_key (localStorage w), parse_history tts_key (localStorage w) with
  | Some stt, Some tts =>
      trace w' = trace w ∧
      tab_count "all" (history (state w')) = (length stt + length tts)%nat ∧
      tab_count "stt" (history (state w')) = length stt ∧
      tab_count "tts" (history (state w')) = length tts ∧
      Forall (λ p, service p = "speech-lab"%string) (history (state w')) ∧
      (λ p, content (item p)) <$> history (state w')
      = (content <$> stt) ++ (content <$> tts)
  | _, _ =>
      history (state w') = history (state w) ∧
      trace w' = trace w ++ [ConsoleError]
  end.
Proof.
  intros w'. subst w'.
  destruct (parse_history stt_key (localStorage w)) as [stt|] eqn:Hstt;
    [destruct (parse_history tts_key (localStorage w)) as [tts|] eqn:Htts|].
  - rewrite (history_fetch clock w stt tts Hstt Htts).
    cbn [state update history setHistory setIsLoading isLoading localStorage trace].
    pose proof (normalize_all "stt" clock stt) as Hs.
    pose proof (normalize_all "tts" (λ i, clock (length stt + i)%nat) tts) as Ht.
    split; [done|]. split; [done|]. split; [done|].
    unfold tab_count.
    rewrite bool_decide_eq_true_2, !bool_decide_eq_false_2 by done.
    rewrite !filter_app, !length_app, !length_imap.
    split; [done|]. split; [|split; [|split]].
    + rewrite (filter_all _ (imap _ stt)), (filter_none _ (imap _ tts)).
      * rewrite length_imap. cbn. lia.
      * eapply Forall_impl; [exact Ht|]. intros p (Hty & _). cbn. congruence.
      * eapply Forall_impl; [exact Hs|]. by intros p (Hty & _).
    + rewrite (filter_none _ (imap _ stt)), (filter_all _ (imap _ tts)).
      * rewrite length_imap. cbn. lia.
      * eapply Forall_impl; [exact Ht|]. by intros p (Hty & _).
      * eapply Forall_impl; [exact Hs|]. intros p (Hty & _). cbn. congruence.
    + apply Forall_app. split; (eapply Forall_impl; [eassumption|]);
        by intros p (_ & Hsv & _).
    + by rewrite fmap_app, !content_normalize.
  - unfold fetchHistoryData. cbn [localStorage update]. rewrite Hstt, Htts. done.
  - unfold fetchHistoryData. cbn [localStorage update]. rewrite Hstt. done.
Qed.

(** *** Edits made on the page

    The page looks its entries up in storage by the id it shows, which
    carries the prefix added by [fetchHistoryData]; the stored ids do
    not carry it. *)

Lemma find_item_Some render id0 p :
  find_item render id0 = Some p → p ∈ history render ∧ id (item p) = id0.
Proof.
  intros [Hin Hid]%find_some. split; [by apply list_elem_of_In|].
  by apply bool_decide_eq_true in Hid.
Qed.

Lemma fetched_item clock w stt tts p :
  parse_history stt_key (localStorage w) = Some stt →
  parse_history tts_key (localStorage w) = Some tts →
  p ∈ history (state (fetchHistoryData clock w)) →
  service p = "speech-lab"%string ∧
  ((key_of p = stt_key ∧ String.prefix "stt-" (id (item p)) = true) ∨
   (key_of p = tts_key ∧ String.prefix "tts-" (id (item p)) = true)).
Proof.
  intros Hstt Htts. rewrite (history_fetch clock w stt tts Hstt Htts).
  cbn [state update history setHistory setIsLoading].
  intros [Hp|Hp]%elem_of_app.
  - pose proof (normalize_all "stt" clock stt) as Hall.
    rewrite Forall_forall in Hall. destruct (Hall p Hp) as (Hty & Hsv & rest & Hid).
    split; [done|]. left. unfold key_of. rewrite Hty, Hid.
    split; [reflexivity | by destruct rest].
  - pose proof (normalize_all "tts" (λ i, clock (length stt + i)%nat) tts) as Hall.
    rewrite Forall_forall in Hall. destruct (Hall p Hp) as (Hty & Hsv & rest & Hid).
    split; [done|]. right. unfold key_of. rewrite Hty, Hid.
    split; [reflexivity | by destruct rest].
Qed.

Lemma no_stored_match (prefix : string) (items : list HistoryItem) (page_id : string) :
  Forall (λ it, String.prefix prefix (id it) = false) items →
  String.prefix prefix page_id = true →
  Forall (λ it, id it ≠ page_id) items.
Proof.
  intros Hall Hpage. eapply Forall_impl; [exact Hall|].
  intros it Hit Heq. cbn in Hit. congruence.
Qed.

Section Unprefixed.
Context (clock : nat → string) (w : World) (stt tts : list HistoryItem).
Hypothesis Hstt : parse_history stt_key (localStorage w) = Some stt.
Hypothesis Htts : parse_history tts_key (localStorage w) = Some tts.
Hypothesis Ustt : Forall (λ it, String.prefix "stt-" (id it) = false) stt.
Hypothesis Utts : Forall (λ it, String.prefix "tts-" (id it) = false) tts.

Lemma localStorage_fetch : localStorage (fetchHistoryData clock w) = localStorage w.
Proof. by rewrite (history_fetch clock w stt tts Hstt Htts). Qed.

Lemma reload_same w1 :
  parse_history stt_key (localStorage w1) = Some stt →
  parse_history tts_key (localStorage w1) = Some tts →
  history (state (fetchHistoryData clock w1))
  = history (state (fetchHistoryData clock w)).
Proof.
  intros H1 H2.
  by rewrite (history_fetch clock w1 stt tts H1 H2),
    (history_fetch clock w stt tts Hstt Htts).
Qed.

(** Writing a collection back for a page entry changes nothing when the
    rewritten list is the stored one. *)
Lemma write_back p (f : string → list HistoryItem → list HistoryItem)
  (ls : gmap string stored) :
  p ∈ history (state (fetchHistoryData clock w)) →
  (∀ items, Forall (λ it, id it ≠ id (item p)) items → f (id (item p)) items = items) →
  parse_history stt_key ls = Some stt →
  parse_history tts_key ls = Some tts →
  ∃ existing,
    parse_history (key_of p) ls = Some existing ∧
    parse_history stt_key (<[key_of p := Arr (f (id (item p)) existing)]> ls) = Some stt ∧
    parse_history tts_key (<[key_of p := Arr (f (id (item p)) existing)]> ls) = Some tts.
Proof.
  intros Hp Hf H1 H2.
  destruct (fetched_item clock w stt tts p Hstt Htts Hp)
    as (_ & [[-> Hpre]|[-> Hpre]]).
  - exists stt. split; [done|].
    rewrite (Hf stt) by (by eapply no_stored_match).
    rewrite parse_history_insert, parse_history_insert_ne by done. done.
  - exists tts. split; [done|].
    rewrite (Hf tts) by (by eapply no_stored_match).
    rewrite parse_history_insert, parse_history_insert_ne by done. done.
Qed.

Lemma delete_loop_keeps (ids : list string) : ∀ ls,
  parse_history stt_key ls = Some stt →
  parse_history tts_key ls = Some tts →
  ∃ ls',
    delete_loop (state (fetchHistoryData clock w)) ids ls = (ls', true) ∧
    parse_history stt_key ls' = Some stt ∧
    parse_history tts_key ls' = Some tts.
Proof.
  induction ids as [|id0 ids IH]; intros ls H1 H2; [by exists ls|].
  cbn [delete_loop]. unfold delete_stored.
  destruct (find_item _ id0) as [p|] eqn:Hfind; [|by apply IH].
  apply find_item_Some in Hfind as [Hp _].
  destruct (fetched_item clock w stt tts p Hstt Htts Hp) as (-> & _).
  rewrite bool_decide_eq_true_2 by done.
  destruct (write_back p (λ page_id, filter (λ storedItem, id storedItem ≠ page_id))
              ls Hp) as (existing & -> & H1' & H2'); [|done..|by apply IH].
  intros items Hitems. by apply filter_all.
Qed.

End Unprefixed.

(** Marking an entry as favourite changes the entry shown, and nothing
    in storage: when no stored id begins with the page's prefix (ids
    made by [generateUniqueId] never do), the comparison of a stored id
    with the page's id fails for every stored entry, and the collection
    is written back as it was.  After the next load the mark is gone. *)
Theorem favorite_not_stored (clock : nat → string) (w : World)
  (stt tts : list HistoryItem) (id0 : string) :
  parse_history stt_key (localStorage w) = Some stt →
  parse_history tts_key (localStorage w) = Some tts →
  Forall (λ it, String.prefix "stt-" (id it) = false) stt →
  Forall (λ it, String.prefix "tts-" (id it) = false) tts →
  let w0 := fetchHistoryData clock w in
  ∃ w1,
    toggleFavorite (state w0) id0 w0 = (w1, false) ∧
    history (state w1)
    = (λ p, if bool_decide (id (item p) = id0)
            then {| item := toggle (item p); service := service p |}
            else p) <$> history (state w0) ∧
    parse_history stt_key (localStorage w1) = Some stt ∧
    parse_history tts_key (localStorage w1) = Some tts ∧
    history (state (fetchHistoryData clock w1)) = history (state w0).
Proof.
  intros Hstt Htts Ustt Utts w0. subst w0. unfold toggleFavorite.
  pose proof (localStorage_fetch clock w stt tts Hstt Htts) as Hls.
  destruct (find_item _ id0) as [p|] eqn:Hfind.
  - apply find_item_Some in Hfind as [Hp _].
    destruct (fetched_item clock w stt tts p Hstt Htts Hp) as (-> & _).
    rewrite bool_decide_eq_true_2 by done.
    cbn [localStorage update].
    destruct (write_back clock w stt tts Hstt Htts Ustt Utts p
                (λ page_id items,
                   (λ storedItem, if bool_decide (id storedItem = page_id)
                                  then toggle storedItem else storedItem) <$> items)
                (localStorage (fetchHistoryData clock w)) Hp)
      as (existing & -> & H1 & H2); [|by rewrite Hls..|].
    { intros items Hitems. apply fmap_unchanged.
      eapply Forall_impl; [exact Hitems|]. intros it Hit. cbn.
      by rewrite bool_decide_eq_false_2. }
    eexists. split; [reflexivity|].
    cbn [state update localStorage set_localStorage history setHistory].
    split; [done|]. split; [done|]. split; [done|].
    by apply (reload_same clock w stt tts).
  - eexists. split; [reflexivity|].
    cbn [state update localStorage history setHistory].
    rewrite Hls. split; [done|]. split; [done|]. split; [done|].
    apply (reload_same clock w stt tts Hstt Htts);
      cbn [localStorage update]; by rewrite Hls.
Qed.

Lemma favorite_not_stored_witness :
  let entry := stt_item {| stt_env := SpeechLab.sample_env; stt_text := "hello";
                           stt_accuracy := 95 # 100; stt_language := "en";
                           stt_duration := 5 |} in
  let w := page {[ stt_key := Arr [entry] ]} in
  let w0 := fetchHistoryData digits w in
  parse_history stt_key (localStorage w) = Some [entry] ∧
  parse_history tts_key (localStorage w) = Some [] ∧
  Forall (λ it, String.prefix "stt-" (id it) = false) [entry] ∧
  Forall (λ it, String.prefix "tts-" (id it) = false) [] ∧
  ∃ w1,
    toggleFavorite (state w0) "stt-id-1" w0 = (w1, false) ∧
    (λ p, favorite (item p)) <$> history (state w1) = [Some true] ∧
    (λ p, favorite (item p)) <$> history (state (fetchHistoryData digits w1)) = [None].
Proof.
  intros entry w w0.
  assert (H1 : parse_history stt_key (localStorage w) = Some [entry]) by reflexivity.
  assert (H2 : parse_history tts_key (localStorage w) = Some []) by reflexivity.
  assert (H3 : Forall (λ it, String.prefix "stt-" (id it) = false) [entry])
    by (by repeat constructor).
  assert (H4 : Forall (λ it : HistoryItem, String.prefix "tts-" (id it) = false) [])
    by constructor.
  repeat (split; [assumption|]).
  destruct (favorite_not_stored digits w [entry] [] "stt-id-1" H1 H2 H3 H4)
    as (w1 & Hrun & Hpage & _ & _ & Hreload).
  exists w1. split; [exact Hrun|]. split.
  - rewrite Hpage. reflexivity.
  - rewrite Hreload. reflexivity.
Defined.

(** Deleting entries on the page removes them from the list shown and
    clears the selection, and removes nothing from storage: under the
    same condition on the stored ids, every collection is written back
    in full, no error is reported, and the next load shows every
    deleted entry again.  Without confirmation nothing happens. *)
Theorem deleted_items_return (clock : nat → string) (w : World)
  (stt tts : list HistoryItem) (ids : list string) :
  parse_history stt_key (localStorage w) = Some stt →
  parse_history tts_key (localStorage w) = Some tts →
  Forall (λ it, String.prefix "stt-" (id it) = false) stt →
  Forall (λ it, String.prefix "tts-" (id it) = false) tts →
  let w0 := fetchHistoryData clock w in
  let w1 := deleteItems (state w0) true ids w0 in
  deleteItems (state w0) false ids w0 = w0 ∧
  history (state w1) = filter (λ p, id (item p) ∉ ids) (history (state w0)) ∧
  selectedItems (state w1) = [] ∧
  trace w1 = trace w0 ∧
  parse_history stt_key (localStorage w1) = Some stt ∧
  parse_history tts_key (localStorage w1) = Some tts ∧
  history (state (fetchHistoryData clock w1)) = history (state w0).
Proof.
  intros Hstt Htts Ustt Utts w0 w1. subst w0 w1.
  split; [done|]. unfold deleteItems. cbn [negb localStorage update].
  pose proof (localStorage_fetch clock w stt tts Hstt Htts) as Hls.
  destruct (delete_loop_keeps clock w stt tts Hstt Htts Ustt Utts ids
              (localStorage (fetchHistoryData clock w)))
    as (ls' & -> & H1 & H2); [by rewrite Hls..|].
  cbn [state update localStorage set_localStorage history setHistory
       selectedItems setSelectedItems trace].
  repeat (split; [done|]).
  by apply (reload_same clock w stt tts).
Qed.

Lemma deleted_items_return_witness :
  let entry := stt_item {| stt_env := SpeechLab.sample_env; stt_text := "hello";
                           stt_accuracy := 95 # 100; stt_language := "en";
                           stt_duration := 5 |} in
  let w := page {[ stt_key := Arr [entry] ]} in
  let w0 := fetchHistoryData digits w in
  let w1 := deleteItems (state w0) true ["stt-id-1"%string] w0 in
  parse_history stt_key (localStorage w) = Some [entry] ∧
  parse_history tts_key (localStorage w) = Some [] ∧
  Forall (λ it, String.prefix "stt-" (id it) = false) [entry] ∧
  Forall (λ it, String.prefix "tts-" (id it) = false) [] ∧
  history (state w1) = [] ∧
  parse_history stt_key (localStorage w1) = Some [entry] ∧
  (λ p, content (item p)) <$> history (state (fetchHistoryData digits w1))
  = ["hello"%string].
Proof.
  intros entry w w0 w1.
  assert (H1 : parse_history stt_key (localStorage w) = Some [entry]) by reflexivity.
  assert (H2 : parse_history tts_key (localStorage w) = Some []) by reflexivity.
  assert (H3 : Forall (λ it, String.prefix "stt-" (id it) = false) [entry])
    by (by repeat constructor).
  assert (H4 : Forall (λ it : HistoryItem, String.prefix "tts-" (id it) = false) [])
    by constructor.
  repeat (split; [assumption|]).
  destruct (deleted_items_return digits w [entry] [] ["stt-id-1"%string] H1 H2 H3 H4)
    as (_ & Hpage & _ & _ & Hstored & _ & Hreload).
  split; [by vm_compute|]. split; [exact Hstored|].
  unfold w1, w0. rewrite Hreload. reflexivity.
Defined.

(** *** Selection *)

(** Clicking an entry's check box flips whether its id is selected and
    leaves the selection of every other id alone; a selection without
    repetitions stays without repetitions. *)
Theorem toggleSelectItem_flips (id0 : string) (w : World) :
  let before := selectedItems (state w) in
  let after := selectedItems (state (toggleSelectItem id0 w)) in
  (id0 ∈ after ↔ id0 ∉ before) ∧
  (∀ other, other ≠ id0 → (other ∈ after ↔ other ∈ before)) ∧
  (NoDup before → NoDup after) ∧
  history (state (toggleSelectItem id0 w)) = history (state w) ∧
  localStorage (toggleSelectItem id0 w) = localStorage w.
Proof.
  intros before after. subst before after. unfold toggleSelectItem.
  cbn [state update selectedItems setSelectedItems history localStorage].
  case_bool_decide as Hin.
  - split; [|split; [|split]]; [| | |done].
    + rewrite list_elem_of_filter. intuition.
    + intros other Hne. rewrite list_elem_of_filter. intuition.
    + apply NoDup_filter.
  - split; [|split; [|split]]; [| | |done].
    + rewrite elem_of_app, list_elem_of_singleton. intuition.
    + intros other Hne. rewrite elem_of_app, list_elem_of_singleton. intuition.
    + intros Hnd. apply NoDup_app. split; [done|]. split; [|apply NoDup_singleton].
      intros x Hx ->%list_elem_of_singleton. done.
Qed.

Lemma toggleSelectItem_flips_witness :
  let w := update (setSelectedItems ["stt-a"; "tts-b"]%string) (page ∅) in
  NoDup (selectedItems (state w)) ∧
  selectedItems (state (toggleSelectItem "stt-a" w)) = ["tts-b"%string] ∧
  NoDup (selectedItems (state (toggleSelectItem "stt-a" w))).
Proof.
  intros w.
  assert (Hnd : NoDup (selectedItems (state w)))
    by (apply (bool_decide_unpack _); by vm_compute).
  split; [exact Hnd|]. split; [reflexivity|].
  destruct (toggleSelectItem_flips "stt-a" w) as (_ & _ & Hkeeps & _).
  exact (Hkeeps Hnd).
Defined.

(** *** Relative times *)

(** What [formatTimeAgo] shows for a valid date: "Just now" for
    anything less than a minute old, dates in the future included; then
    whole minutes from 1 to 59, whole hours from 1 to 23, whole days
    from 1 to 29, each rounded down; from 30 days on, the date itself. *)
Theorem formatTimeAgo_ranges (now date : Z) :
  match formatTimeAgo now (Some date) with
  | JustNow => now - date < 60000
  | MinutesAgo n => 1 ≤ n ≤ 59 ∧ 60000 * n ≤ now - date < 60000 * (n + 1)
  | HoursAgo n => 1 ≤ n ≤ 23 ∧ 3600000 * n ≤ now - date < 3600000 * (n + 1)
  | DaysAgo n => 1 ≤ n ≤ 29 ∧ 86400000 * n ≤ now - date < 86400000 * (n + 1)
  | LocaleDate => 2592000000 ≤ now - date
  end.
Proof.
  unfold formatTimeAgo. cbv zeta.
  destruct (Z.ltb_spec ((now - date) / 1000) 60) as [H1|H1];
    [|destruct (Z.ltb_spec ((now - date) / 1000) 3600) as [H2|H2];
      [|destruct (Z.ltb_spec ((now - date) / 1000) 86400) as [H3|H3];
        [|destruct (Z.ltb_spec ((now - date) / 1000) 2592000) as [H4|H4]]]];
    Z.to_euclidean_division_equations; lia.
Qed.

End HistoryPageFacts.

(** ** Voice profiles *)

Module VoiceProfileFacts.
Import VoiceProfile.

(** A profile is not submitted with fewer than ten samples, nor with a
    name that is empty or white space: the user is alerted, no request
    is made, and state and storage stay as they were; the processing
    flag is not even raised. *)
Theorem profile_refused (render : State) (create : Outcome Created)
  (train : Outcome unit) (profiles : Outcome (list Profile))
  (syntax_error : string) (env : Env) (w : World) :
  (length (samples render) < 10)%nat ∨
  Str.whitespace_only (name (voiceSettings render)) = true →
  ∃ message,
    saveVoiceProfile render create train profiles syntax_error env w
    = emit (Alert message) w.
Proof.
  intros Hbad. unfold saveVoiceProfile.
  destruct (Nat.ltb_spec (length (samples render)) 10) as [Hlt|Hge]; [by eexists|].
  destruct Hbad as [Hlt|Hws]; [lia|].
  rewrite SpeechLabMore.truthy_trim, Hws. by eexists.
Qed.

(** The name of the witness is a space and a no-break space. *)
Lemma profile_refused_witness :
  let render := setVoiceSettings
                  {| name := " " +:+ String (Ascii.ascii_of_nat 160) "";
                     settings_tone := "calm" |} ready_state in
  Str.whitespace_only (name (voiceSettings render)) = true ∧
  trace (saveVoiceProfile render (Ok {| success := true; created_id := "p1" |})
           (Ok ()) (Ok []) "" sample_env ready_world)
  = [Alert "Please give your custom voice a name"].
Proof.
  intros render.
  assert (Hws : Str.whitespace_only (name (voiceSettings render)) = true)
    by reflexivity.
  split; [exact Hws|].
  destruct (profile_refused render (Ok {| success := true; created_id := "p1" |})
              (Ok ()) (Ok []) "" sample_env ready_world (or_intror Hws))
    as [message Hrun].
  reflexivity.
Defined.

(** With at least ten samples and a proper name, an accepted creation
    and a training that succeeds, the profile is recorded: the three
    requests are made in order, one history entry with the name, the
    tone and the number of samples is put first in storage and on the
    page, which never hold more than 50, the samples and the name are
    cleared, and the success alert comes last.  Whether the list of
    profiles could be reloaded does not matter. *)
Theorem profile_saved (render : State) (new_id : string)
  (profiles : Outcome (list Profile)) (syntax_error : string) (env : Env)
  (w : World) (existing : list VoiceHistoryItem) :
  (10 ≤ length (samples render))%nat →
  Str.whitespace_only (name (voiceSettings render)) = false →
  parse_history (localStorage w) = Some existing →
  let w' := saveVoiceProfile render (Ok {| success := true; created_id := new_id |})
              (Ok ()) profiles syntax_error env w in
  let entry := {| id := now_ms env; profileName := name (voiceSettings render);
                  tone := settings_tone (voiceSettings render);
                  samplesCount := length (samples render);
                  timestamp := now_iso env |} in
  parse_history (localStorage w') = Some (entry :: take 49 existing) ∧
  history (state w') = entry :: take 49 existing ∧
  (length (history (state w')) ≤ 50)%nat ∧
  samples (state w') = [] ∧
  name (voiceSettings (state w')) = ""%string ∧
  settings_tone (voiceSettings (state w')) = settings_tone (voiceSettings (state w)) ∧
  isProcessing (state w') = false ∧
  trace w' = trace w ++ [ Request "POST" "/api/voice/profiles";
                           Request "POST" ("/api/voice/profiles/" +:+ new_id +:+ "/train");
                           Request "GET" "/api/voice/profiles";
                           Alert "Voice profile created successfully!" ].
Proof.
  intros Hlen Hname Hparse w' entry. subst w' entry. unfold saveVoiceProfile.
  rewrite (proj2 (Nat.ltb_ge _ _) Hlen), SpeechLabMore.truthy_trim, Hname.
  cbn [negb success created_id].
  assert (Hls : localStorage
                  (loadVoiceProfiles profiles
                     (emit (Request "POST" ("/api/voice/profiles/" +:+ new_id +:+ "/train"))
                        (emit (Request "POST" "/api/voice/profiles")
                           (update (setIsProcessing true) w))))
                = localStorage w) by (by destruct profiles).
  unfold saveVoiceHistory. rewrite Hls, Hparse.
  unfold loadHistory. cbn [localStorage set_localStorage].
  assert (Hnew : ∀ items, parse_history (<[history_key := Arr items]> (localStorage w))
                          = Some items)
    by (intros items; unfold parse_history; by rewrite lookup_insert_eq).
  rewrite Hnew.
  cbn [state update emit localStorage set_localStorage trace history setHistory
       samples setSamples voiceSettings setVoiceSettings isProcessing
       setIsProcessing name settings_tone].
  split; [apply Hnew|]. split; [done|].
  split; [cbn [length]; rewrite length_take; lia|].
  split; [done|]. split; [done|].
  split; [by destruct profiles|]. split; [done|].
  destruct profiles; cbn; by rewrite <- !app_assoc.
Qed.

Lemma profile_saved_witness :
  (10 ≤ length (samples ready_state))%nat ∧
  Str.whitespace_only (name (voiceSettings ready_state)) = false ∧
  parse_history (localStorage ready_world) = Some [] ∧
  let w' := saveVoiceProfile ready_state (Ok {| success := true; created_id := "p1" |})
              (Ok ()) (Throws "Failed to fetch voice profiles") "" sample_env
              ready_world in
  history (state w')
  = [ {| id := "1700000000000"; profileName := "My voice"; tone := "calm";
         samplesCount := 10; timestamp := "2023-11-14T22:13:20.000Z" |} ] ∧
  samples (state w') = [].
Proof.
  assert (H1 : (10 ≤ length (samples ready_state))%nat) by (cbn; lia).
  assert (H2 : Str.whitespace_only (name (voiceSettings ready_state)) = false)
    by reflexivity.
  assert (H3 : parse_history (localStorage ready_world) = Some []) by reflexivity.
  repeat (split; [assumption|]).
  destruct (profile_saved ready_state "p1" (Throws "Failed to fetch voice profiles")
              "" sample_env ready_world [] H1 H2 H3)
    as (_ & Hhist & _ & Hsamples & _).
  split; [exact Hhist | exact Hsamples].
Defined.

(** When the profile passes the two checks but is not recorded, nothing
    is lost and nothing is stored: samples, settings, history and
    storage stay as they were and the processing flag is lowered.  A
    request that throws, or a damaged history, is reported in one alert
    with the error's message.  A creation that is answered without
    [success] is not reported at all: the only effect is the request. *)
Theorem profile_not_saved (render : State) (create : Outcome Created)
  (train : Outcome unit) (profiles : Outcome (list Profile))
  (syntax_error : string) (env : Env) (w : World) :
  (10 ≤ length (samples render))%nat →
  Str.whitespace_only (name (voiceSettings render)) = false →
  match create with
  | Throws _ => True
  | Ok result =>
      success result = false ∨ (∃ message, train = Throws message) ∨
      parse_history (localStorage w) = None
  end →
  let w' := saveVoiceProfile render create train profiles syntax_error env w in
  localStorage w' = localStorage w ∧
  samples (state w') = samples (state w) ∧
  voiceSettings (state w') = voiceSettings (state w) ∧
  history (state w') = history (state w) ∧
  isProcessing (state w') = false ∧
  ∃ effs,
    trace w' = trace w ++ effs ∧
    List.filter is_alert effs
    = match create with
      | Throws message => [Alert ("Failed to save voice profile: " +:+ message)]
      | Ok result =>
          if success result then
            [Alert ("Failed to save voice profile: " +:+
                    match train with Throws message => message | Ok _ => syntax_error end)]
          else []
      end.
Proof.
  intros Hlen Hname Hwhy w'. subst w'. unfold saveVoiceProfile.
  rewrite (proj2 (Nat.ltb_ge _ _) Hlen), SpeechLabMore.truthy_trim, Hname.
  cbn [negb].
  destruct create as [[[] new_id]|message]; cbn [success created_id].
  - destruct train as [[]|message].
    + destruct Hwhy as [?|[[message ?]|Hparse]]; [done..|].
      unfold saveVoiceHistory.
      replace (localStorage (loadVoiceProfiles profiles _)) with (localStorage w)
        by (by destruct profiles).
      rewrite Hparse.
      destruct profiles; repeat (split; [done|]);
        eexists; cbn [trace emit update loadVoiceProfiles];
        rewrite <- !app_assoc; (split; [reflexivity | done]).
    + repeat (split; [done|]). eexists. cbn [trace emit update].
      rewrite <- !app_assoc. split; [reflexivity | done].
  - repeat (split; [done|]). eexists. cbn [trace emit update].
    split; [reflexivity | done].
  - repeat (split; [done|]). eexists. cbn [trace emit update].
    rewrite <- !app_assoc. split; [reflexivity | done].
Qed.

Lemma profile_not_saved_witness :
  (10 ≤ length (samples ready_state))%nat ∧
  Str.whitespace_only (name (voiceSettings ready_state)) = false ∧
  let w' := saveVoiceProfile ready_state (Ok {| success := false; created_id := "" |})
              (Ok ()) (Ok []) "" sample_env ready_world in
  trace w' = [Request "POST" "/api/voice/profiles"] ∧
  samples (state w') = ten_samples ∧
  localStorage w' = ∅.
Proof.
  assert (H1 : (10 ≤ length (samples ready_state))%nat) by (cbn; lia).
  assert (H2 : Str.whitespace_only (name (voiceSettings ready_state)) = false)
    by reflexivity.
  repeat (split; [assumption|]).
  destruct (profile_not_saved ready_state (Ok {| success := false; created_id := "" |})
              (Ok ()) (Ok []) "" sample_env ready_world H1 H2 (or_introl eq_refl))
    as (Hls & Hsamples & _).
  split; [reflexivity|]. split; [exact Hsamples | exact Hls].
Defined.

End VoiceProfileFacts.
